(** * Gemini-Hunter: the progress store and the per-frame simulation step

    A shallow embedding of the game's zustand store ([store.ts]) and of the
    [useFrame] callback of [LevelManager.tsx], with the listener of
    [Player.tsx] that its hit events run, then of the store's timers, the
    callbacks of [Player.tsx], the shop screen of [HUD.tsx] and the
    transitions and particle system of [LevelManager.tsx], followed by the
    properties proved about them.

    JavaScript numbers are IEEE-754 doubles.  The simulation is written once
    over an interface of the arithmetic it uses ([Number]); the interface is
    instantiated with Rocq's primitive binary64 floats, which evaluate the
    code on concrete inputs exactly as the engine would, and with the real
    numbers, for statements about exact arithmetic.  Fields that only ever
    hold integers (score, lives, level, health, ...) are integers of [Z]. *)

From Stdlib Require Import ZArith Floats Reals Lra Lia String List Bool.
From stdpp Require Import base list.
Import ListNotations.

Set Default Proof Using "Type".

(** ** Numbers *)

Class Number (num : Type) : Type := {
  ofZ : Z -> num;
  nadd : num -> num -> num;
  nsub : num -> num -> num;
  nmul : num -> num -> num;
  ndiv : num -> num -> num;
  nopp : num -> num;               (* unary minus *)
  nsqrt : num -> num;              (* Math.sqrt *)
  nabs : num -> num;               (* Math.abs *)
  nmin : num -> num -> num;        (* Math.min *)
  nmax : num -> num -> num;        (* Math.max *)
  nltb : num -> num -> bool;       (* a < b *)
  nleb : num -> num -> bool;       (* a <= b *)
  ntruthy : num -> bool;           (* ToBoolean: neither 0 nor NaN *)
  nfloorZ : num -> Z               (* Math.floor of a finite number *)
}.

Declare Scope num_scope.
Delimit Scope num_scope with num.
Infix "+" := nadd : num_scope.
Infix "-" := nsub : num_scope.
Infix "*" := nmul : num_scope.
Infix "/" := ndiv : num_scope.
Notation "- a" := (nopp a) : num_scope.
Infix "<?" := nltb : num_scope.
Infix "<=?" := nleb : num_scope.
Notation "a >? b" := (nltb b a) (at level 70) : num_scope.
Notation "a >=? b" := (nleb b a) (at level 70) : num_scope.

(** The decimal literal [m]e-[k], e.g. [dec 5 2] for [0.05]: the quotient of
    two exactly representable integers, correctly rounded, which is the
    double the literal denotes. *)
Definition dec {num} `{Number num} (m : Z) (k : nat) : num :=
  ndiv (ofZ m) (ofZ (10 ^ Z.of_nat k)).

(** [x || d] on an optional numeric property. *)
Definition num_or {num} `{Number num} (x : option num) (d : num) : num :=
  match x with
  | Some v => if ntruthy v then v else d
  | None => d
  end.

(** ** types.ts *)

Inductive GameStatus := MENU | PLAYING | SHOP | GAME_OVER | VICTORY.

Inductive ObjectType :=
  OBSTACLE | BARREL | GEM | LETTER | SHOP_PORTAL | ALIEN | MISSILE | BULLET
| ENEMY_BULLET.

Inductive EnemyVariant := GREEN_ALIEN | SAUCER | ARMORED.

Definition ObjectType_eqb (a b : ObjectType) : bool :=
  match a, b with
  | OBSTACLE, OBSTACLE | BARREL, BARREL | GEM, GEM | LETTER, LETTER
  | SHOP_PORTAL, SHOP_PORTAL | ALIEN, ALIEN | MISSILE, MISSILE
  | BULLET, BULLET | ENEMY_BULLET, ENEMY_BULLET => true
  | _, _ => false
  end.

Definition variant_is (v : option EnemyVariant) (w : EnemyVariant) : bool :=
  match v, w with
  | Some GREEN_ALIEN, GREEN_ALIEN | Some SAUCER, SAUCER
  | Some ARMORED, ARMORED => true
  | _, _ => false
  end.

(** ** store.ts *)

Module Store.
Section Store.
Context {num : Type} `{Number num}.
Local Open Scope Z_scope.

Record GameState := mkGameState {
  status : GameStatus;
  score : Z;
  lives : Z;
  maxLives : Z;
  speed : num;
  collectedLetters : list Z;
  level : Z;
  laneCount : Z;
  gemsCollected : Z;
  distance : Z;
  gameTime : num;
  isSlowMotion : bool;
  damagePerShot : Z;
  hasSpreadShot : bool;
  hasImmortality : bool;
  isImmortalityActive : bool
}.

Definition GEMINI_TARGET : list string :=
  ["G"; "E"; "M"; "I"; "N"; "I"]%string.
Definition MAX_LEVEL : Z := 50.
Definition RUN_SPEED_BASE : num := ofZ 6.

(** Partial updates [set({...})], one setter per field written. *)
Definition set_status v (s : GameState) :=
  mkGameState v (score s) (lives s) (maxLives s) (speed s)
    (collectedLetters s) (level s) (laneCount s) (gemsCollected s)
    (distance s) (gameTime s) (isSlowMotion s) (damagePerShot s)
    (hasSpreadShot s) (hasImmortality s) (isImmortalityActive s).
Definition set_score v (s : GameState) :=
  mkGameState (status s) v (lives s) (maxLives s) (speed s)
    (collectedLetters s) (level s) (laneCount s) (gemsCollected s)
    (distance s) (gameTime s) (isSlowMotion s) (damagePerShot s)
    (hasSpreadShot s) (hasImmortality s) (isImmortalityActive s).
Definition set_lives v (s : GameState) :=
  mkGameState (status s) (score s) v (maxLives s) (speed s)
    (collectedLetters s) (level s) (laneCount s) (gemsCollected s)
    (distance s) (gameTime s) (isSlowMotion s) (damagePerShot s)
    (hasSpreadShot s) (hasImmortality s) (isImmortalityActive s).
Definition set_maxLives v (s : GameState) :=
  mkGameState (status s) (score s) (lives s) v (speed s)
    (collectedLetters s) (level s) (laneCount s) (gemsCollected s)
    (distance s) (gameTime s) (isSlowMotion s) (damagePerShot s)
    (hasSpreadShot s) (hasImmortality s) (isImmortalityActive s).
Definition set_speed v (s : GameState) :=
  mkGameState (status s) (score s) (lives s) (maxLives s) v
    (collectedLetters s) (level s) (laneCount s) (gemsCollected s)
    (distance s) (gameTime s) (isSlowMotion s) (damagePerShot s)
    (hasSpreadShot s) (hasImmortality s) (isImmortalityActive s).
Definition set_collectedLetters v (s : GameState) :=
  mkGameState (status s) (score s) (lives s) (maxLives s) (speed s)
    v (level s) (laneCount s) (gemsCollected s)
    (distance s) (gameTime s) (isSlowMotion s) (damagePerShot s)
    (hasSpreadShot s) (hasImmortality s) (isImmortalityActive s).
Definition set_level v (s : GameState) :=
  mkGameState (status s) (score s) (lives s) (maxLives s) (speed s)
    (collectedLetters s) v (laneCount s) (gemsCollected s)
    (distance s) (gameTime s) (isSlowMotion s) (damagePerShot s)
    (hasSpreadShot s) (hasImmortality s) (isImmortalityActive s).
Definition set_laneCount v (s : GameState) :=
  mkGameState (status s) (score s) (lives s) (maxLives s) (speed s)
    (collectedLetters s) (level s) v (gemsCollected s)
    (distance s) (gameTime s) (isSlowMotion s) (damagePerShot s)
    (hasSpreadShot s) (hasImmortality s) (isImmortalityActive s).
Definition set_gemsCollected v (s : GameState) :=
  mkGameState (status s) (score s) (lives s) (maxLives s) (speed s)
    (collectedLetters s) (level s) (laneCount s) v
    (distance s) (gameTime s) (isSlowMotion s) (damagePerShot s)
    (hasSpreadShot s) (hasImmortality s) (isImmortalityActive s).
Definition set_distance v (s : GameState) :=
  mkGameState (status s) (score s) (lives s) (maxLives s) (speed s)
    (collectedLetters s) (level s) (laneCount s) (gemsCollected s)
    v (gameTime s) (isSlowMotion s) (damagePerShot s)
    (hasSpreadShot s) (hasImmortality s) (isImmortalityActive s).
Definition set_gameTime v (s : GameState) :=
  mkGameState (status s) (score s) (lives s) (maxLives s) (speed s)
    (collectedLetters s) (level s) (laneCount s) (gemsCollected s)
    (distance s) v (isSlowMotion s) (damagePerShot s)
    (hasSpreadShot s) (hasImmortality s) (isImmortalityActive s).
Definition set_isSlowMotion v (s : GameState) :=
  mkGameState (status s) (score s) (lives s) (maxLives s) (speed s)
    (collectedLetters s) (level s) (laneCount s) (gemsCollected s)
    (distance s) (gameTime s) v (damagePerShot s)
    (hasSpreadShot s) (hasImmortality s) (isImmortalityActive s).
Definition set_damagePerShot v (s : GameState) :=
  mkGameState (status s) (score s) (lives s) (maxLives s) (speed s)
    (collectedLetters s) (level s) (laneCount s) (gemsCollected s)
    (distance s) (gameTime s) (isSlowMotion s) v
    (hasSpreadShot s) (hasImmortality s) (isImmortalityActive s).
Definition set_hasSpreadShot v (s : GameState) :=
  mkGameState (status s) (score s) (lives s) (maxLives s) (speed s)
    (collectedLetters s) (level s) (laneCount s) (gemsCollected s)
    (distance s) (gameTime s) (isSlowMotion s) (damagePerShot s)
    v (hasImmortality s) (isImmortalityActive s).
Definition set_isImmortalityActive v (s : GameState) :=
  mkGameState (status s) (score s) (lives s) (maxLives s) (speed s)
    (collectedLetters s) (level s) (laneCount s) (gemsCollected s)
    (distance s) (gameTime s) (isSlowMotion s) (damagePerShot s)
    (hasSpreadShot s) (hasImmortality s) v.

(** The state every field of which [startGame] and [restartGame] write. *)
Definition startGame (_ : GameState) : GameState :=
  mkGameState PLAYING 0 3 3 RUN_SPEED_BASE [] 1 3 0 0 (ofZ 0)
    false 1 false false false.
Definition restartGame (s : GameState) : GameState := startGame s.

Definition takeDamage (s : GameState) : GameState :=
  if isImmortalityActive s then s
  else if 1 <? lives s then set_lives (lives s - 1) s
  else set_speed (ofZ 0) (set_status GAME_OVER (set_lives 0 s)).

Definition addScore (amount : Z) (s : GameState) : GameState :=
  set_score (score s + amount) s.

Definition collectGem (value : Z) (s : GameState) : GameState :=
  set_gemsCollected (gemsCollected s + 1) (set_score (score s + value) s).

Definition setDistance (dist : Z) (s : GameState) : GameState :=
  set_distance dist s.

Definition updateTime (delta : num) (s : GameState) : GameState :=
  set_gameTime (nadd (gameTime s) delta) s.

Definition advanceLevel (s : GameState) : GameState :=
  let nextLevel := level s + 1 in
  let newSpeed := nmul (speed s) (dec 105 2) in
  set_collectedLetters []
    (set_speed newSpeed
       (set_status PLAYING
          (set_laneCount (Z.min (laneCount s + 2) 9)
             (set_level nextLevel s)))).

(** [collectedLetters.includes(index)] *)
Definition includes (l : list Z) (index : Z) : bool :=
  existsb (Z.eqb index) l.

Definition collectLetter (index : Z) (s : GameState) : GameState :=
  let collected := collectedLetters s in
  let level0 := level s in
  let speed0 := speed s in
  if negb (includes collected index) then
    let newLetters := collected ++ [index] in
    let speedIncrease := nmul speed0 (dec 1 2) in
    let nextSpeed := nadd speed0 speedIncrease in
    let s1 := set_speed nextSpeed (set_collectedLetters newLetters s) in
    if Nat.eqb (length newLetters) (length GEMINI_TARGET) then
      if level0 <? MAX_LEVEL then advanceLevel s1
      else set_score (score s1 + 50000) (set_status VICTORY s1)
    else s1
  else s.

Definition openShop (s : GameState) : GameState := set_status SHOP s.
Definition closeShop (s : GameState) : GameState := set_status PLAYING s.

Inductive ItemType := HEAVY_AMMO | SPREAD_SHOT | MAX_LIFE | HEAL.

(** [buyItem] returns its boolean together with the state it leaves. *)
Definition buyItem (type : ItemType) (cost : Z) (s : GameState)
  : bool * GameState :=
  let score0 := score s in
  let maxLives0 := maxLives s in
  let lives0 := lives s in
  let damagePerShot0 := damagePerShot s in
  if cost <=? score0 then
    let s1 := set_score (score0 - cost) s in
    let s2 :=
      match type with
      | HEAVY_AMMO => set_damagePerShot (damagePerShot0 + 1) s1
      | SPREAD_SHOT => set_hasSpreadShot true s1
      | MAX_LIFE => set_lives (lives0 + 1) (set_maxLives (maxLives0 + 1) s1)
      | HEAL => set_lives (Z.min (lives0 + 1) maxLives0) s1
      end in
    (true, s2)
  else (false, s).

(** [triggerSlowMotion] sets the flag when it is clear and arms a timer;
    [slowMotionTimeout] is the timer's callback, five seconds later. *)
Definition triggerSlowMotion (s : GameState) : GameState :=
  if negb (isSlowMotion s) then set_isSlowMotion true s else s.
Definition slowMotionTimeout (s : GameState) : GameState :=
  set_isSlowMotion false s.

Definition activateImmortality (s : GameState) : GameState :=
  if hasImmortality s && negb (isImmortalityActive s)
  then set_isImmortalityActive true s else s.
Definition immortalityTimeout (s : GameState) : GameState :=
  set_isImmortalityActive false s.

Definition setStatus (v : GameStatus) (s : GameState) : GameState :=
  set_status v s.

End Store.
Arguments GameState : clear implicits.
End Store.

(** ** LevelManager.tsx

    The sources hold two revisions of this file, which differ in tuning
    constants only (the minimum gap, spawn heights and probabilities, the
    saucer's vertical band, the health of level 1); the first one is
    embedded here. *)

Module LevelManager.
Import Store.
Section LevelManager.
Context {num : Type} `{Number num}.
Local Open Scope num_scope.

Definition Vec3 : Type := num * num * num.

Record GameObject := mkGameObject {
  id : string;
  type : ObjectType;
  position : Vec3;
  active : bool;
  value : option string;
  color : option string;
  targetIndex : option Z;
  points : option Z;
  hasFired : option bool;
  lastShotTime : option num;
  strafeOffset : option num;
  health : option Z;
  maxHealth : option Z;
  variant : option EnemyVariant;
  velocity : option Vec3;
  scale : option num;
  speedBonus : option num;
  vx : option num   (* the lateral velocity attached to a bullet at run time *)
}.

Definition posX (o : GameObject) : num := fst (fst (position o)).
Definition posY (o : GameObject) : num := snd (fst (position o)).
Definition posZ (o : GameObject) : num := snd (position o).

(** Assignments to one property of an object. *)
Definition set_position v (o : GameObject) :=
  mkGameObject (id o) (type o) v (active o) (value o) (color o)
    (targetIndex o) (points o) (hasFired o) (lastShotTime o)
    (strafeOffset o) (health o) (maxHealth o) (variant o) (velocity o)
    (scale o) (speedBonus o) (vx o).
Definition set_active v (o : GameObject) :=
  mkGameObject (id o) (type o) (position o) v (value o) (color o)
    (targetIndex o) (points o) (hasFired o) (lastShotTime o)
    (strafeOffset o) (health o) (maxHealth o) (variant o) (velocity o)
    (scale o) (speedBonus o) (vx o).
Definition set_hasFired v (o : GameObject) :=
  mkGameObject (id o) (type o) (position o) (active o) (value o) (color o)
    (targetIndex o) (points o) v (lastShotTime o)
    (strafeOffset o) (health o) (maxHealth o) (variant o) (velocity o)
    (scale o) (speedBonus o) (vx o).
Definition set_lastShotTime v (o : GameObject) :=
  mkGameObject (id o) (type o) (position o) (active o) (value o) (color o)
    (targetIndex o) (points o) (hasFired o) v
    (strafeOffset o) (health o) (maxHealth o) (variant o) (velocity o)
    (scale o) (speedBonus o) (vx o).
Definition set_strafeOffset v (o : GameObject) :=
  mkGameObject (id o) (type o) (position o) (active o) (value o) (color o)
    (targetIndex o) (points o) (hasFired o) (lastShotTime o)
    v (health o) (maxHealth o) (variant o) (velocity o)
    (scale o) (speedBonus o) (vx o).
Definition set_health v (o : GameObject) :=
  mkGameObject (id o) (type o) (position o) (active o) (value o) (color o)
    (targetIndex o) (points o) (hasFired o) (lastShotTime o)
    (strafeOffset o) v (maxHealth o) (variant o) (velocity o)
    (scale o) (speedBonus o) (vx o).
Definition set_vx v (o : GameObject) :=
  mkGameObject (id o) (type o) (position o) (active o) (value o) (color o)
    (targetIndex o) (points o) (hasFired o) (lastShotTime o)
    (strafeOffset o) (health o) (maxHealth o) (variant o) (velocity o)
    (scale o) (speedBonus o) v.

Definition set_value v (o : GameObject) :=
  mkGameObject (id o) (type o) (position o) (active o) v (color o)
    (targetIndex o) (points o) (hasFired o) (lastShotTime o)
    (strafeOffset o) (health o) (maxHealth o) (variant o) (velocity o)
    (scale o) (speedBonus o) (vx o).
Definition set_color v (o : GameObject) :=
  mkGameObject (id o) (type o) (position o) (active o) (value o) v
    (targetIndex o) (points o) (hasFired o) (lastShotTime o)
    (strafeOffset o) (health o) (maxHealth o) (variant o) (velocity o)
    (scale o) (speedBonus o) (vx o).
Definition set_targetIndex v (o : GameObject) :=
  mkGameObject (id o) (type o) (position o) (active o) (value o) (color o)
    v (points o) (hasFired o) (lastShotTime o)
    (strafeOffset o) (health o) (maxHealth o) (variant o) (velocity o)
    (scale o) (speedBonus o) (vx o).
Definition set_points v (o : GameObject) :=
  mkGameObject (id o) (type o) (position o) (active o) (value o) (color o)
    (targetIndex o) v (hasFired o) (lastShotTime o)
    (strafeOffset o) (health o) (maxHealth o) (variant o) (velocity o)
    (scale o) (speedBonus o) (vx o).
Definition set_maxHealth v (o : GameObject) :=
  mkGameObject (id o) (type o) (position o) (active o) (value o) (color o)
    (targetIndex o) (points o) (hasFired o) (lastShotTime o)
    (strafeOffset o) (health o) v (variant o) (velocity o)
    (scale o) (speedBonus o) (vx o).
Definition set_variant v (o : GameObject) :=
  mkGameObject (id o) (type o) (position o) (active o) (value o) (color o)
    (targetIndex o) (points o) (hasFired o) (lastShotTime o)
    (strafeOffset o) (health o) (maxHealth o) v (velocity o)
    (scale o) (speedBonus o) (vx o).
Definition set_velocity v (o : GameObject) :=
  mkGameObject (id o) (type o) (position o) (active o) (value o) (color o)
    (targetIndex o) (points o) (hasFired o) (lastShotTime o)
    (strafeOffset o) (health o) (maxHealth o) (variant o) v
    (scale o) (speedBonus o) (vx o).
Definition set_scale v (o : GameObject) :=
  mkGameObject (id o) (type o) (position o) (active o) (value o) (color o)
    (targetIndex o) (points o) (hasFired o) (lastShotTime o)
    (strafeOffset o) (health o) (maxHealth o) (variant o) (velocity o)
    v (speedBonus o) (vx o).
Definition set_speedBonus v (o : GameObject) :=
  mkGameObject (id o) (type o) (position o) (active o) (value o) (color o)
    (targetIndex o) (points o) (hasFired o) (lastShotTime o)
    (strafeOffset o) (health o) (maxHealth o) (variant o) (velocity o)
    (scale o) v (vx o).

(** An object literal [{ id, type, position, active: true }]; the literals of
    the source list their further properties after it. *)
Definition object (i : string) (t : ObjectType) (p : Vec3) : GameObject :=
  mkGameObject i t p true None None None None None None None None None None
    None None None None.

Definition LANE_WIDTH : num := dec 22 1.
Definition SPAWN_DISTANCE : num := ofZ 120.
Definition REMOVE_DISTANCE : num := ofZ 20.
Definition GEMINI_COLORS : list string :=
  ["#2979ff"; "#ff1744"; "#ffea00"; "#2979ff"; "#00e676"; "#ff1744"]%string.

Definition BASE_LETTER_INTERVAL : num := ofZ 150.
Definition MISSILE_SPEED : num := ofZ 30.
Definition BULLET_SPEED : num := ofZ 60.
Definition ENEMY_BULLET_SPEED : num := ofZ 20.

(** What the engine and the libraries provide: [Math.sin] and [Math.pow]
    (implementation-approximated), the successive results of
    [Math.random()] and of [uuidv4()], and the outcome of
    [availableLanes.sort(() => Math.random() - 0.5)], which returns the
    reordered array and consumes some number of random values. *)
Record Platform := mkPlatform {
  sin : num -> num;
  pow : num -> num -> num;
  random : nat -> num;
  uuidv4 : nat -> string;
  sortRandom : nat -> list Z -> list Z * nat
}.

Definition getLetterInterval (P : Platform) (level : Z) : num :=
  BASE_LETTER_INTERVAL * pow P (dec 15 1) (ofZ (Z.max 0 (level - 1))).

(** [getRandomLane], given the value [Math.random()] returned. *)
Definition getRandomLane (r : num) (laneCount : Z) : Z :=
  let max := (laneCount / 2)%Z in
  (nfloorZ (nmul r (ofZ (max * 2 + 1))) - max)%Z.

(** The events dispatched on [window] and the calls to [audio], those of
    the listener of [player-hit] included. *)
Inductive Effect :=
| ParticleBurst (position : Vec3) (color : string)
| PlayerHit
| PlayShoot
| PlayExplosion
| PlayGemCollect
| PlayLetterCollect
| PlayDamage.

(** The listener of [player-hit] that Player.tsx keeps on [window]
    ([checkHit]), as a frame finds it: the two refs it reads and writes, and
    the [isImmortalityActive] of the render that created it. *)
Record HitListener := mkHitListener {
  hl_isInvincible : bool;           (* isInvincible.current *)
  hl_lastDamageTime : Z;            (* lastDamageTime.current *)
  hl_isImmortalityActive : bool
}.

(** The refs and state of the component. *)
Record Manager := mkManager {
  objects : list GameObject;        (* objectsRef.current *)
  renderTrigger : nat;
  distanceTraveled : num;
  nextLetterDistance : num
}.

(** The state of one run of the frame callback.  [heap] is [currentObjects]:
    the objects of the store, which the loop mutates in place; an index into
    it stands for a reference to the object, so [targets] and [keptObjects]
    are lists of indices until the loop is over.  [listener] is the listener
    of [player-hit], which the frame runs whenever it dispatches that
    event. *)
Record Frame := mkFrame {
  heap : list GameObject;
  keptObjects : list nat;
  newSpawns : list GameObject;
  store : GameState num;
  effects : list Effect;
  hasChanges : bool;
  randoms : nat;                    (* calls to Math.random() so far *)
  uuids : nat;                      (* calls to uuidv4() so far *)
  listener : HitListener
}.

Definition set_heap v (f : Frame) :=
  mkFrame v (keptObjects f) (newSpawns f) (store f) (effects f)
    (hasChanges f) (randoms f) (uuids f) (listener f).
Definition set_store v (f : Frame) :=
  mkFrame (heap f) (keptObjects f) (newSpawns f) v (effects f)
    (hasChanges f) (randoms f) (uuids f) (listener f).
Definition set_randoms v (f : Frame) :=
  mkFrame (heap f) (keptObjects f) (newSpawns f) (store f) (effects f)
    (hasChanges f) v (uuids f) (listener f).
Definition set_listener v (f : Frame) :=
  mkFrame (heap f) (keptObjects f) (newSpawns f) (store f) (effects f)
    (hasChanges f) (randoms f) (uuids f) v.
Definition changed (f : Frame) :=
  mkFrame (heap f) (keptObjects f) (newSpawns f) (store f) (effects f)
    true (randoms f) (uuids f) (listener f).
Definition emit (e : Effect) (f : Frame) :=
  mkFrame (heap f) (keptObjects f) (newSpawns f) (store f) (effects f ++ [e])
    (hasChanges f) (randoms f) (uuids f) (listener f).
Definition keep_object (i : nat) (f : Frame) :=
  mkFrame (heap f) (keptObjects f ++ [i]) (newSpawns f) (store f) (effects f)
    (hasChanges f) (randoms f) (uuids f) (listener f).
(** [newSpawns.push({ id: uuidv4(), ... })] *)
Definition spawn (P : Platform) (mk : string -> GameObject) (f : Frame) :=
  mkFrame (heap f) (keptObjects f)
    (newSpawns f ++ [mk (uuidv4 P (uuids f))]) (store f) (effects f)
    (hasChanges f) (randoms f) (S (uuids f)) (listener f).

(** What one frame is called with: the values destructured from
    [useStore()] at the last render ([props]), the frame's [delta] and
    clock, the player's world position when the player object is attached,
    the listener of [player-hit] as it stands on [window], and
    [Date.now()]. *)
Record FrameInput := mkFrameInput {
  props : GameState num;
  delta : num;
  time : num;
  player : option Vec3;
  hitListener : HitListener;
  now : Z
}.

Definition playerPos (inp : FrameInput) : Vec3 :=
  match player inp with
  | Some p => p
  | None => (ofZ 0, ofZ 0, ofZ 0)
  end.

Definition safeDelta (inp : FrameInput) : num := nmin (delta inp) (dec 5 2).
Definition effectiveSpeed (inp : FrameInput) : num :=
  if isSlowMotion (props inp) then speed (props inp) * dec 5 1
  else speed (props inp).
Definition dist (inp : FrameInput) : num := effectiveSpeed inp * safeDelta inp.

Definition isTarget (o : GameObject) : bool :=
  match type o with
  | BARREL | ALIEN | MISSILE => active o
  | _ => false
  end.

(** The indices of the elements of [l] that satisfy [p], in order. *)
Definition indices_where (p : GameObject -> bool) (l : list GameObject)
  : list nat :=
  List.map fst
    (List.filter (fun io => p (snd io)) (combine (seq 0 (length l)) l)).

(** [obj.points || 50] and [obj.color || '#ffffff'] *)
Definition points_or (o : GameObject) (d : Z) : Z :=
  match points o with
  | Some p => if (p =? 0)%Z then d else p
  | None => d
  end.
Definition color_or (o : GameObject) (d : string) : string :=
  match color o with
  | Some c => if String.eqb c EmptyString then d else c
  | None => d
  end.

(** [a.distanceToSquared(b)] of three.js *)
Definition distanceToSquared (a b : Vec3) : num :=
  let '(ax, ay, az) := a in
  let '(bx, by_, bz) := b in
  let dx := ax - bx in
  let dy := ay - by_ in
  let dz := az - bz in
  dx * dx + dy * dy + dz * dz.

Variable P : Platform.

(** The listener of the player's shoot event: while the game is playing it
    pushes a bullet onto the store and attaches its lateral velocity; [uid]
    counts the calls to [uuidv4()] so far. *)
Definition handlePlayerShoot (status : GameStatus) (at_ : Vec3) (angle : num)
  (uid : nat) (m : Manager) : Manager :=
  match status with
  | PLAYING =>
      let '(x, y, z) := at_ in
      let vx := sin P angle * BULLET_SPEED * dec 3 1 in
      let bullet :=
        set_vx (Some vx)
          (set_color (Some "#00ffff"%string)
             (object (uuidv4 P uid) BULLET (x, y, z - ofZ 1))) in
      mkManager (objects m ++ [bullet]) (renderTrigger m)
        (distanceTraveled m) (nextLetterDistance m)
  | _ => m
  end.

Variable inp : FrameInput.

Definition nextRandom (fr : Frame) : num * Frame :=
  (random P (randoms fr), set_randoms (S (randoms fr)) fr).

(** *** Movement *)

Definition moveObject (obj : GameObject) : GameObject :=
  let '(x, y, z) := position obj in
  match type obj with
  | BULLET =>
      let z' := z - BULLET_SPEED * safeDelta inp in
      let vx := num_or (vx obj) (ofZ 0) in
      set_position (x + vx * safeDelta inp, y, z') obj
  | ENEMY_BULLET =>
      match velocity obj with
      | Some (v0, v1, v2) =>
          set_position (x + v0 * safeDelta inp, y + v1 * safeDelta inp,
                        z + v2 * safeDelta inp) obj
      | None =>
          set_position (x, y, z + ENEMY_BULLET_SPEED * safeDelta inp) obj
      end
  | MISSILE =>
      set_position
        (x, y,
         z + (dist inp
              + (if isSlowMotion (props inp) then MISSILE_SPEED * dec 5 1
                 else MISSILE_SPEED) * safeDelta inp)) obj
  | _ =>
      let bonus := num_or (speedBonus obj) (ofZ 0) in
      set_position (x, y, z + (dist inp + bonus * safeDelta inp)) obj
  end.

(** *** Enemy AI *)

(** 1. Green Alien (Dodger): strafes side to side. *)
Definition dodgerAI (obj : GameObject) (fr : Frame) : GameObject * Frame :=
  if ObjectType_eqb (type obj) BARREL
     && variant_is (variant obj) GREEN_ALIEN && active obj
  then
    let '(off, fr) :=
      match strafeOffset obj with
      | Some off => (off, fr)
      | None => let '(r, fr) := nextRandom fr in (r * ofZ 100, fr)
      end in
    let obj := set_strafeOffset (Some off) obj in
    let strafeAmount :=
      sin P (time inp * ofZ 3 + off) * ofZ 2 * safeDelta inp in
    let x := posX obj + strafeAmount in
    let maxWidth :=
      (ofZ (laneCount (props inp)) * LANE_WIDTH) / ofZ 2 + ofZ 1 in
    let x := nmax (- maxWidth) (nmin maxWidth x) in
    (set_position (x, posY obj, posZ obj) obj, fr)
  else (obj, fr).

(** The velocity given to an enemy bullet fired from [from]. *)
Definition aimedVelocity (from : Vec3) : Vec3 :=
  let '(px, py, pz) := playerPos inp in
  let '(x, y, z) := from in
  let dx := px - x in
  let dy := (py + dec 5 1) - y in
  let dz := pz - z in
  let mag := nsqrt (dx * dx + dy * dy + dz * dz) in
  let speed :=
    if isSlowMotion (props inp) then ENEMY_BULLET_SPEED * dec 5 1
    else ENEMY_BULLET_SPEED in
  ((dx / mag) * speed, (dy / mag) * speed, (dz / mag) * speed).

(** 2. Saucer (Shooter): fires bullets. *)
Definition shooterAI (obj : GameObject) (fr : Frame) : GameObject * Frame :=
  if ObjectType_eqb (type obj) BARREL
     && variant_is (variant obj) SAUCER && active obj
  then
    let '(last, fr) :=
      match lastShotTime obj with
      | Some t => (t, fr)
      | None => let '(r, fr) := nextRandom fr in (time inp + r, fr)
      end in
    let obj := set_lastShotTime (Some last) obj in
    if time inp >? last + dec 25 1 then
      let obj := set_lastShotTime (Some (time inp)) obj in
      let bullet i :=
        set_color (Some "#ff0000"%string)
          (set_velocity (Some (aimedVelocity (position obj)))
             (object i ENEMY_BULLET
                (posX obj, posY obj, posZ obj + ofZ 1))) in
      (obj, changed (emit PlayShoot (spawn P bullet fr)))
    else (obj, fr)
  else (obj, fr).

(** Alien (old flyer): launches one missile. *)
Definition flyerAI (obj : GameObject) (fr : Frame) : GameObject * Frame :=
  if ObjectType_eqb (type obj) ALIEN && active obj
     && negb (default false (hasFired obj))
  then
    if posZ obj >? ofZ (-90) then
      let obj := set_hasFired (Some true) obj in
      let missile i :=
        set_health (Some (level (props inp) * 2)%Z)
          (set_color (Some "#ff0000"%string)
             (object i MISSILE (posX obj, ofZ 1, posZ obj + ofZ 2))) in
      (obj,
       emit (ParticleBurst (position obj) "#ff00ff")
         (changed (spawn P missile fr)))
    else (obj, fr)
  else (obj, fr).

(** *** Collisions *)

(** The listener of Player.tsx, run on the state of the store: while the
    player is neither invincible nor immortal it plays the damage sound,
    calls [takeDamage()] and opens the invincibility window. *)
Definition checkHit (fr : Frame) : Frame :=
  let h := listener fr in
  if hl_isInvincible h || hl_isImmortalityActive h then fr
  else
    let fr := emit PlayDamage fr in
    let fr := set_store (takeDamage (store fr)) fr in
    set_listener (mkHitListener true (now inp) (hl_isImmortalityActive h)) fr.

(** [window.dispatchEvent(new Event('player-hit'))]: the listener runs
    before the call returns. *)
Definition dispatchPlayerHit (fr : Frame) : Frame :=
  checkHit (emit PlayerHit fr).

(** [obj.active = false], on the object in the store. *)
Definition deactivate (i : nat) (fr : Frame) : Frame :=
  set_heap (alter (set_active false) i (heap fr)) fr.

(** The bullet's box test against one target: forward and lateral axes only,
    the radius scaled by the target's scale. *)
Definition overlaps (obj target : GameObject) : bool :=
  let targetScale := num_or (scale target) (ofZ 1) in
  let hitRadius := ofZ 1 * targetScale in
  let dx := nabs (posX obj - posX target) in
  let dz := nabs (posZ obj - posZ target) in
  (dx <? hitRadius) && (dz <? hitRadius).

(** The health a hit leaves to a target. *)
Definition healthAfterHit (target : GameObject) : Z :=
  match health target with
  | Some h => (h - damagePerShot (props inp))%Z
  | None => 0%Z
  end.

(** The damage logic run on the target at index [j] once a bullet has hit
    it. *)
Definition hitTarget (j : nat) (fr : Frame) : Frame :=
  match heap fr !! j with
  | None => fr
  | Some target =>
      let h := healthAfterHit target in
      let fr := set_heap (alter (set_health (Some h)) j (heap fr)) fr in
      let fr := emit (ParticleBurst (position target) "#ffffff") fr in
      if (h <=? 0)%Z then
        let fr := deactivate j fr in
        let fr := set_store (collectGem 50 (store fr)) fr in
        let fr := emit PlayExplosion fr in
        emit (ParticleBurst (position target) "#ffaa00") fr
      else emit PlayShoot fr
  end.

(** [for (const target of targets) { ... break; }] for the bullet at index
    [i]; the boolean tells whether the bullet hit a target. *)
Fixpoint bulletScan (i : nat) (targets : list nat) (fr : Frame)
  : bool * Frame :=
  match targets with
  | [] => (false, fr)
  | j :: rest =>
      match heap fr !! i, heap fr !! j with
      | Some obj, Some target =>
          if negb (active target) then bulletScan i rest fr
          else if overlaps obj target then
            (true, hitTarget j (changed (deactivate i fr)))
          else bulletScan i rest fr
      | _, _ => bulletScan i rest fr
      end
  end.

Definition isDamageSource (t : ObjectType) : bool :=
  match t with
  | BARREL | ALIEN | MISSILE => true
  | _ => false
  end.

(** The vertical band [(objBottom, objTop)] of a damage source. *)
Definition verticalBand (obj : GameObject) : num * num :=
  let scale := num_or (scale obj) (ofZ 1) in
  match type obj with
  | BARREL =>
      if variant_is (variant obj) SAUCER
      then (dec 5 1 * scale, dec 15 1 * scale)
      else if variant_is (variant obj) ARMORED
      then (ofZ 0, dec 15 1 * scale)
      else (ofZ 0, dec 12 1 * scale)
  | MISSILE => (dec 5 1, dec 15 1)
  | ALIEN => (ofZ 1, ofZ 2)
  | _ => (ofZ 0, ofZ 1)
  end.

(** Player collision logic, for an object other than a bullet; the boolean
    is [keep]. *)
Definition playerCollision (i : nat) (obj : GameObject) (fr : Frame)
  : bool * Frame :=
  let '(px, py, pz) := playerPos inp in
  let zThreshold := ofZ 2 in
  let inZZone :=
    (posZ obj >? pz - zThreshold) && (posZ obj <? pz + zThreshold) in
  if ObjectType_eqb (type obj) SHOP_PORTAL then
    let dz := nabs (posZ obj - pz) in
    if dz <? ofZ 2 then
      (false, changed (deactivate i (set_store (openShop (store fr)) fr)))
    else (true, fr)
  else if inZZone then
    let dx := nabs (posX obj - px) in
    if ObjectType_eqb (type obj) ENEMY_BULLET then
      let dy := nabs (posY obj - (py + dec 6 1)) in
      if (dx <? dec 5 1) && (dy <? dec 6 1) then
        (true,
         emit PlayExplosion (changed (deactivate i (dispatchPlayerHit fr))))
      else (true, fr)
    else if dx <? dec 9 1 * num_or (scale obj) (ofZ 1) then
      if isDamageSource (type obj) then
        let playerBottom := py in
        let playerTop := py + dec 18 1 in
        let '(objBottom, objTop) := verticalBand obj in
        let isHit := (playerBottom <? objTop) && (playerTop >? objBottom) in
        if isHit then
          (true,
           emit (ParticleBurst (position obj) "#ff4400")
             (emit PlayExplosion
                (changed (deactivate i (dispatchPlayerHit fr)))))
        else (true, fr)
      else
        let dy := nabs (posY obj - py) in
        if dy <? dec 25 1 then
          let fr :=
            if ObjectType_eqb (type obj) GEM then
              emit PlayGemCollect
                (set_store (collectGem (points_or obj 50) (store fr)) fr)
            else fr in
          let fr :=
            match ObjectType_eqb (type obj) LETTER, targetIndex obj with
            | true, Some index =>
                emit PlayLetterCollect
                  (set_store (collectLetter index (store fr)) fr)
            | _, _ => fr
            end in
          let fr :=
            emit (ParticleBurst (position obj) (color_or obj "#ffffff")) fr in
          (true, changed (deactivate i fr))
        else (true, fr)
    else (true, fr)
  else (true, fr).

(** The body of [if (obj.active) { ... }] for the object at index [i], whose
    value after movement and AI is [obj]; the boolean is [keep]. *)
Definition resolve (targets : list nat) (i : nat) (obj : GameObject)
  (fr : Frame) : bool * Frame :=
  let '(keep, fr) :=
    if ObjectType_eqb (type obj) GEM then
      let distSq := distanceToSquared (playerPos inp) (position obj) in
      if distSq <? ofZ 25 then
        let fr := set_store (collectGem (points_or obj 50) (store fr)) fr in
        let fr := emit PlayGemCollect fr in
        let fr :=
          emit (ParticleBurst (position obj) (color_or obj "#ffffff")) fr in
        (false, changed (deactivate i fr))
      else (true, fr)
    else (true, fr) in
  if ObjectType_eqb (type obj) BULLET && keep then
    let '(hit, fr) := bulletScan i targets fr in
    let keep := negb hit in
    (* Shortened range: bullets move towards negative z. *)
    if posZ obj <? ofZ (-30) then (false, fr) else (keep, fr)
  else if keep then playerCollision i obj fr
  else (keep, fr).

(** One iteration of [for (const obj of currentObjects)]. *)
Definition stepObject (targets : list nat) (fr : Frame) (i : nat) : Frame :=
  match heap fr !! i with
  | None => fr
  | Some obj =>
      let obj := moveObject obj in
      let '(obj, fr) := dodgerAI obj fr in
      let '(obj, fr) := shooterAI obj fr in
      let '(obj, fr) := flyerAI obj fr in
      let fr := set_heap (<[i := obj]> (heap fr)) fr in
      let '(keep, fr) :=
        if active obj then resolve targets i obj fr else (true, fr) in
      let '(keep, fr) :=
        if negb (ObjectType_eqb (type obj) BULLET)
           && (posZ obj >? REMOVE_DISTANCE)
        then (false, changed fr) else (keep, fr) in
      if keep then keep_object i fr else fr
  end.

(** The whole loop over the store. *)
Definition updateObjects (fr : Frame) : Frame :=
  let targets := indices_where isTarget (heap fr) in
  fold_left (stepObject targets) (seq 0 (length (heap fr))) fr.


(** *** Spawning *)

(** The state of the spawning logic: what it pushes onto [keptObjects],
    [hasChanges], [nextLetterDistance.current] and the two counters. *)
Record Director := mkDirector {
  pushed : list GameObject;
  d_hasChanges : bool;
  d_nextLetterDistance : num;
  d_randoms : nat;
  d_uuids : nat
}.

Definition d_random (d : Director) : num * Director :=
  (random P (d_randoms d),
   mkDirector (pushed d) (d_hasChanges d) (d_nextLetterDistance d)
     (S (d_randoms d)) (d_uuids d)).
Definition d_skip (n : nat) (d : Director) : Director :=
  mkDirector (pushed d) (d_hasChanges d) (d_nextLetterDistance d)
    (n + d_randoms d) (d_uuids d).
Definition d_changed (d : Director) : Director :=
  mkDirector (pushed d) true (d_nextLetterDistance d) (d_randoms d)
    (d_uuids d).
Definition d_letterSpawned (d : Director) : Director :=
  mkDirector (pushed d) (d_hasChanges d)
    (d_nextLetterDistance d + getLetterInterval P (level (props inp)))
    (d_randoms d) (d_uuids d).
(** [keptObjects.push({ id: uuidv4(), ... })] *)
Definition push (mk : string -> GameObject) (d : Director) : Director :=
  mkDirector (pushed d ++ [mk (uuidv4 P (d_uuids d))]) (d_hasChanges d)
    (d_nextLetterDistance d) (d_randoms d) (S (d_uuids d)).

Definition isStatic (o : GameObject) : bool :=
  negb (ObjectType_eqb (type o) MISSILE)
  && negb (ObjectType_eqb (type o) BULLET)
  && negb (ObjectType_eqb (type o) ENEMY_BULLET).

Definition furthestZ (kept : list GameObject) : num :=
  match List.map posZ (List.filter isStatic kept) with
  | [] => ofZ (-60)
  | z :: zs => fold_left nmin zs z
  end.

Definition minGap : num := ofZ 6 + speed (props inp) * dec 2 1.

Definition spawnZ (furthest : num) : num :=
  nmax (furthest - minGap) (- SPAWN_DISTANCE).

(** [availableLanes], filled from [-maxLane] to [maxLane] and then
    shuffled. *)
Definition shuffledLanes (d : Director) : list Z * Director :=
  let maxLane := (laneCount (props inp) / 2)%Z in
  let availableLanes := seqZ (- maxLane) (2 * maxLane + 1) in
  let '(lanes, calls) := sortRandom P (d_randoms d) availableLanes in
  (lanes, d_skip calls d).

Definition laneX (lane : Z) : num := ofZ lane * LANE_WIDTH.

Definition spawnLetter (z : num) (d : Director) : Director :=
  let '(r, d) := d_random d in
  let lane := getRandomLane r (laneCount (props inp)) in
  let target := ["G"; "E"; "M"; "I"; "N"; "I"]%string in
  let availableIndices :=
    List.filter (fun i => negb (includes (collectedLetters (props inp)) i))
      (seqZ 0 (Z.of_nat (length target))) in
  match availableIndices with
  | _ :: _ =>
      let '(r, d) := d_random d in
      let k := nfloorZ (r * ofZ (Z.of_nat (length availableIndices))) in
      let chosenIndex := nth (Z.to_nat k) availableIndices 0%Z in
      let letter i :=
        set_targetIndex (Some chosenIndex)
          (set_value (Some (nth (Z.to_nat chosenIndex) target EmptyString))
             (set_color
                (Some (nth (Z.to_nat chosenIndex) GEMINI_COLORS EmptyString))
                (object i LETTER (laneX lane, ofZ 1, z)))) in
      d_changed (d_letterSpawned (push letter d))
  | [] =>
      let gem i :=
        set_points (Some 50%Z)
          (set_color (Some "#00ffff"%string)
             (object i GEM (laneX lane, dec 12 1, z))) in
      d_changed (push gem d)
  end.

(** [for (let k = 0; k < alienCount; k++)], from [k] on, [n] rounds left. *)
Fixpoint spawnAliens (lanes : list Z) (z : num) (n k : nat) (d : Director)
  : Director :=
  match n with
  | O => d
  | S n' =>
      let lane := nth k lanes 0%Z in
      let obstacleHealth := (level (props inp) * 2)%Z in
      let alien i :=
        set_maxHealth (Some obstacleHealth)
          (set_health (Some obstacleHealth)
             (set_hasFired (Some false)
                (set_color (Some "#00ff00"%string)
                   (object i ALIEN (laneX lane, dec 15 1, z))))) in
      spawnAliens lanes z n' (S k) (push alien d)
  end.

(** [for (let i = 0; i < countToSpawn; i++)], from [k] on, [n] rounds
    left. *)
Fixpoint spawnHazards (lanes : list Z) (z : num) (n k : nat) (d : Director)
  : Director :=
  match n with
  | O => d
  | S n' =>
      let lane := nth k lanes 0%Z in
      let lvl := level (props inp) in
      let obstacleHealth := (lvl * 2)%Z in
      let '(archetypeRoll, d) := d_random d in
      let canBeAdvanced := (3 <=? lvl)%Z in
      let '(variant, height, hp, scale, speedBonus) :=
        if canBeAdvanced && (archetypeRoll >? dec 8 1) then
          (ARMORED, dec 12 1, (lvl * 6)%Z, dec 18 1, dec (-15) 1)
        else if canBeAdvanced && (archetypeRoll >? dec 6 1) then
          (SAUCER, ofZ 1, Z.max 2 lvl, dec 8 1, ofZ 5)
        else
          (GREEN_ALIEN, dec 6 1, obstacleHealth, ofZ 1, ofZ 0) in
      let hazard i :=
        set_speedBonus (Some speedBonus)
          (set_scale (Some scale)
             (set_variant (Some variant)
                (set_maxHealth (Some hp)
                   (set_health (Some hp)
                      (set_color (Some "#ff0000"%string)
                         (object i BARREL (laneX lane, height, z))))))) in
      let d := push hazard d in
      let '(r, d) := d_random d in
      let d :=
        if r <? dec 3 1 then
          let gem i :=
            set_points (Some 100%Z)
              (set_color (Some "#ffd700"%string)
                 (object i GEM
                    (laneX lane, height + dec 15 1 * scale, z))) in
          push gem d
        else d in
      spawnHazards lanes z n' (S k) d
  end.

(** The branch taken when no letter is due and the density roll passed. *)
Definition spawnObstacleOrGem (z : num) (d : Director) : Director :=
  let '(r, d) := d_random d in
  let isObstacle := r >? dec 40 2 in
  if isObstacle then
    let '(spawnAlien, d) :=
      if (2 <=? level (props inp))%Z then
        let '(r, d) := d_random d in (r <? dec 2 1, d)
      else (false, d) in
    if spawnAlien then
      let '(lanes, d) := shuffledLanes d in
      let '(pAlien, d) := d_random d in
      let alienCount :=
        if pAlien >? dec 7 1 then Nat.min 2 (length lanes) else 1%nat in
      spawnAliens lanes z alienCount 0 d
    else
      let '(lanes, d) := shuffledLanes d in
      let '(p, d) := d_random d in
      let countToSpawn :=
        if p >? dec 90 2 then Nat.min 3 (length lanes)
        else if p >? dec 70 2 then Nat.min 2 (length lanes)
        else 1%nat in
      spawnHazards lanes z countToSpawn 0 d
  else
    let '(r, d) := d_random d in
    let lane := getRandomLane r (laneCount (props inp)) in
    let gem i :=
      set_points (Some 50%Z)
        (set_color (Some "#00ffff"%string)
           (object i GEM (laneX lane, dec 12 1, z))) in
    push gem d.

(** 2. Spawning logic, on the objects kept by the loop. *)
Definition spawnDirector (kept : list GameObject) (distanceTraveled : num)
  (d : Director) : Director :=
  let furthest := furthestZ kept in
  if furthest >? - SPAWN_DISTANCE then
    let z := spawnZ furthest in
    (* Only spawn if we haven't hit the horizon clamp yet. *)
    if z <? furthest then
      let isLetterDue := distanceTraveled >=? d_nextLetterDistance d in
      if isLetterDue then spawnLetter z d
      else
        let '(r, d) := d_random d in
        if r >? dec 1 1 then d_changed (spawnObstacleOrGem z d) else d
    else d
  else d.

(** *** The frame callback *)

Record Outcome := mkOutcome {
  manager : Manager;
  state : GameState num;            (* the zustand state it leaves *)
  emitted : list Effect;
  randomsUsed : nat;
  uuidsUsed : nat;
  heard : HitListener               (* the listener as the frame leaves it *)
}.

(** The objects [keptObjects] refers to once the loop is over, followed by
    [newSpawns]. *)
Definition keptAfterLoop (fr : Frame) : list GameObject :=
  omap (fun i => heap fr !! i) (keptObjects fr) ++ newSpawns fr.

Definition useFrame (m : Manager) (st : GameState num) (rnd uid : nat)
  : Outcome :=
  match status (props inp) with
  | PLAYING =>
      let distanceTraveled := distanceTraveled m + dist inp in
      let st := updateTime (safeDelta inp) st in
      let fr :=
        updateObjects
          (mkFrame (objects m) [] [] st [] false rnd uid (hitListener inp)) in
      let kept := keptAfterLoop fr in
      let d :=
        spawnDirector kept distanceTraveled
          (mkDirector [] (hasChanges fr) (nextLetterDistance m)
             (randoms fr) (uuids fr)) in
      let kept := kept ++ pushed d in
      mkOutcome
        (mkManager
           (if d_hasChanges d then kept else heap fr)
           (if d_hasChanges d then S (renderTrigger m) else renderTrigger m)
           distanceTraveled (d_nextLetterDistance d))
        (store fr) (effects fr) (d_randoms d) (d_uuids d) (listener fr)
  | _ => mkOutcome m st [] rnd uid (hitListener inp)
  end.

End LevelManager.

Arguments GameObject : clear implicits.
Arguments Vec3 : clear implicits.
Arguments Platform : clear implicits.
Arguments Manager : clear implicits.
Arguments Frame : clear implicits.
Arguments FrameInput : clear implicits.
Arguments Director : clear implicits.
Arguments Outcome : clear implicits.
Arguments Effect : clear implicits.
End LevelManager.

(** ** The two instances of the arithmetic *)

#[local] Set Warnings "-inexact-float".

(** *** IEEE-754 binary64, as the engine computes *)

Module Float64.
Local Open Scope float_scope.

Definition ofZ (z : Z) : float :=
  match z with
  | Z0 => 0
  | Zpos _ => of_uint63 (Uint63.of_Z z)
  | Zneg p => - of_uint63 (Uint63.of_Z (Zpos p))
  end.

Definition min (a b : float) : float :=
  if is_nan a || is_nan b then nan
  else if a <? b then a
  else if b <? a then b
  else if get_sign a then a else b.

Definition max (a b : float) : float :=
  if is_nan a || is_nan b then nan
  else if a <? b then b
  else if b <? a then a
  else if get_sign a then b else a.

Definition truthy (a : float) : bool := negb (is_nan a) && negb (a =? 0).

Definition floorZ (a : float) : Z :=
  match Prim2SF a with
  | S754_finite s m e =>
      let v := if s then Zneg m else Zpos m in
      if (0 <=? e)%Z then (v * 2 ^ e)%Z else (v / 2 ^ (- e))%Z
  | _ => 0%Z
  end.

End Float64.

#[export] Instance Number_float : Number float := {|
  ofZ := Float64.ofZ;
  nadd := PrimFloat.add;
  nsub := PrimFloat.sub;
  nmul := PrimFloat.mul;
  ndiv := PrimFloat.div;
  nopp := PrimFloat.opp;
  nsqrt := PrimFloat.sqrt;
  nabs := PrimFloat.abs;
  nmin := Float64.min;
  nmax := Float64.max;
  nltb := PrimFloat.ltb;
  nleb := PrimFloat.leb;
  ntruthy := Float64.truthy;
  nfloorZ := Float64.floorZ
|}.

(** *** Exact real arithmetic *)

Module Exact.
Local Open Scope R_scope.

Definition ltb (a b : R) : bool := if Rlt_dec a b then true else false.
Definition leb (a b : R) : bool := if Rle_dec a b then true else false.
Definition truthy (a : R) : bool := if Req_dec_T a 0 then false else true.

End Exact.

#[export] Instance Number_R : Number R := {|
  ofZ := IZR;
  nadd := Rplus;
  nsub := Rminus;
  nmul := Rmult;
  ndiv := Rdiv;
  nopp := Ropp;
  nsqrt := sqrt;
  nabs := Rabs;
  nmin := Rmin;
  nmax := Rmax;
  nltb := Exact.ltb;
  nleb := Exact.leb;
  ntruthy := Exact.truthy;
  nfloorZ := Int_part
|}.

Import Store LevelManager.

(** * Vocabulary of the properties of the frame *)

Section Vocabulary.
Context {num : Type} `{Number num}.
Variable inp : FrameInput num.

(** An object whose health has run out is inactive. *)
Definition spent_inactive (o : GameObject num) : Prop :=
  forall h, health o = Some h -> (h <= 0)%Z -> active o = false.

(** What the frame may do to an object of the store: it keeps its type and
    its velocity, it is never activated again, and its health does not run
    out without deactivating it. *)
Record evolves (o o' : GameObject num) : Prop := mkEvolves {
  ev_type : type o' = type o;
  ev_velocity : velocity o' = velocity o;
  ev_active : active o = false -> active o' = false;
  ev_health : spent_inactive o -> spent_inactive o'
}.

(** What movement and AI may do to the object they run on. *)
Record same_core (o o' : GameObject num) : Prop := mkSameCore {
  sc_type : type o' = type o;
  sc_active : active o' = active o;
  sc_health : health o' = health o;
  sc_velocity : velocity o' = velocity o
}.

(** The objects the AI spawns: enemy bullets and missiles. *)
Definition fresh (o : GameObject num) : Prop :=
  active o = true /\
  ((type o = ENEMY_BULLET /\ health o = None) \/
   (type o = MISSILE /\ health o = Some (level (props inp) * 2)%Z)).

(** The effect of a bullet's hit on its target. *)
Definition damage (target : GameObject num) : GameObject num :=
  let h := healthAfterHit inp target in
  let target := set_health (Some h) target in
  if (h <=? 0)%Z then set_active false target else target.

(** The bullet at index [i] has hit the first target of [targets] that is
    active and overlaps it, and [fr'] differs from [fr] by that hit alone. *)
Definition first_match (i : nat) (targets : list nat) (fr fr' : Frame num)
  : Prop :=
  exists pre j post obj target,
    targets = pre ++ j :: post /\
    heap fr !! i = Some obj /\ heap fr !! j = Some target /\
    active target = true /\ overlaps obj target = true /\
    (forall k t, In k pre -> heap fr !! k = Some t ->
                 active t && overlaps obj t = false) /\
    heap fr' = alter damage j (alter (set_active false) i (heap fr)) /\
    (forall k, k <> i -> k <> j -> heap fr' !! k = heap fr !! k) /\
    (exists b, heap fr' !! i = Some b /\ active b = false).

(** The kinds that every path deactivating them also drops from
    [keptObjects]. *)
Definition dropped_on_deactivation (t : ObjectType) : bool :=
  match t with
  | BULLET | SHOP_PORTAL => true
  | _ => false
  end.

Definition tidy (o : GameObject num) : Prop :=
  dropped_on_deactivation (type o) = true -> active o = true.

(** What an AI step does to the object it is given and to the frame. *)
Record ai_ok (obj : GameObject num) (fr : Frame num)
  (r : GameObject num * Frame num) : Prop := mkAiOk {
  ai_core : same_core obj (fst r);
  ai_heap : heap (snd r) = heap fr;
  ai_kept : keptObjects (snd r) = keptObjects fr;
  ai_store : store (snd r) = store fr;
  ai_changes : hasChanges fr = true -> hasChanges (snd r) = true;
  ai_spawns : exists extra,
      newSpawns (snd r) = newSpawns fr ++ extra /\ Forall fresh extra
}.

(** What the steps run on the object at index [i] may do to the frame: the
    objects of the store evolve, only the object itself and the targets are
    touched, [hasChanges] is never cleared, [newSpawns] grows by fresh
    objects. *)
Record advances (targets : list nat) (i : nat) (fr fr' : Frame num)
  : Prop := mkAdvances {
  adv_heap : Forall2 evolves (heap fr) (heap fr');
  adv_others : forall j, j <> i -> ~ In j targets ->
      heap fr' !! j = heap fr !! j;
  adv_changes : hasChanges fr = true -> hasChanges fr' = true;
  adv_spawns : exists extra,
      newSpawns fr' = newSpawns fr ++ extra /\ Forall fresh extra
}.

(** The object at index [i], of a kind dropped on deactivation and active
    in [fr], is not found inactive in [fr'] unless [P] holds. *)
Definition drops_unless (i : nat) (fr fr' : Frame num) (P : Prop) : Prop :=
  forall o o', heap fr !! i = Some o -> heap fr' !! i = Some o' ->
    dropped_on_deactivation (type o) = true ->
    active o = true -> active o' = false -> P.

(** The objects the spawning logic creates at the forward coordinate [z]:
    active, placed at [z], without a velocity, with the health of one of the
    three archetypes when they have one. *)
Definition spawned_at (z : num) (o : GameObject num) : Prop :=
  active o = true /\ posZ o = z /\ velocity o = None /\
  dropped_on_deactivation (type o) = false /\
  match health o with
  | Some h =>
      let lvl := level (props inp) in
      (h = lvl * 2 \/ h = lvl * 6 \/ h = Z.max 2 lvl)%Z
  | None => True
  end.

(** What the spawning logic may do to its state when it spawns at [z]. *)
Record directs (z : num) (d d' : Director num) : Prop := mkDirects {
  dir_pushed : exists extra,
      pushed d' = pushed d ++ extra /\ Forall (spawned_at z) extra;
  dir_changes : d_hasChanges d = true -> d_hasChanges d' = true
}.

(** The loop invariant once the objects before index [k] have been
    processed, [heap0] being the store the frame started from. *)
Record loop_inv (heap0 : list (GameObject num)) (k : nat) (fr : Frame num)
  : Prop := mkLoopInv {
  li_heap : Forall2 evolves heap0 (heap fr);
  li_kept : Forall (fun j => j < k) (keptObjects fr);
  li_spawns : Forall fresh (newSpawns fr)
}.

(** An object of a kind dropped on deactivation that is inactive has been
    processed, has set [hasChanges] and is not among the kept ones. *)
Definition loop_tidy (k : nat) (fr : Frame num) : Prop :=
  forall j o, heap fr !! j = Some o ->
    dropped_on_deactivation (type o) = true -> active o = false ->
    j < k /\ hasChanges fr = true /\ ~ In j (keptObjects fr).

(** The targets are damage sources of the store the frame started from. *)
Definition targets_typed (heap0 : list (GameObject num))
  (targets : list nat) : Prop :=
  forall j, In j targets ->
    exists o, heap0 !! j = Some o /\ isDamageSource (type o) = true.

(** The length of a vector, and the point an enemy bullet is aimed at. *)
Definition magnitude (v : Vec3 num) : num :=
  let '(x, y, z) := v in nsqrt (nadd (nadd (nmul x x) (nmul y y)) (nmul z z)).

Definition aimPoint : Vec3 num :=
  let '(px, py, pz) := playerPos inp in (px, nadd py (dec 5 1), pz).

End Vocabulary.

(** * Scenarios

    Concrete frames, in binary64.  The platform's [sin] and [pow] are
    stand-ins that these frames never reach; [Math.random()] returns [r]
    every time and the shuffle leaves the lanes in order. *)

Module Scenario.
Local Open Scope float_scope.

Definition platform (r : float) : Platform float :=
  mkPlatform (fun _ => 0) (fun x _ => x) (fun _ => r)
    (fun _ => "new"%string) (fun _ lanes => (lanes, 0%nat)).

(** A run at level 1, base speed, nothing collected. *)
Definition playing : GameState float :=
  mkGameState PLAYING 0 3 3 6 [] 1 3 0 0 0 false 1 false false false.

Definition hazard (i : string) (h : Z) (p : Vec3 float) : GameObject float :=
  set_variant (Some ARMORED)
    (set_maxHealth (Some h) (set_health (Some h) (object i BARREL p))).

(** A bullet over two armored hazards that both overlap it, and a letter at
    the player's feet. *)
Definition crowded : Manager float :=
  mkManager
    [ object "bullet" BULLET (0, 1, -5);
      hazard "A" 1 (0, 0.6, -5.5);
      hazard "B" 5 (0.5, 0.6, -5.2);
      set_targetIndex (Some 2%Z) (object "letter" LETTER (0, 1, 0)) ]
    0 0 150.

(** The listener of a player who is neither invincible nor immortal. *)
Definition alert : HitListener := mkHitListener false 0 false.

(** A frame of 16 ms, one second into the run, the player at the origin. *)
Definition input : FrameInput float :=
  mkFrameInput playing 0.016 1 (Some (0, 0, 0)) alert 1000.

Definition frame : Frame float :=
  mkFrame (objects crowded) [] [] playing [] false 0 0 alert.

(** Store states for the shop and the letters. *)
Definition rich : GameState float := set_score 7000 playing.
Definition five_letters : GameState float :=
  set_collectedLetters [0; 1; 2; 3; 4]%Z playing.

(** In exact arithmetic, under slow motion: a saucer as the spawning logic
    makes them, at height 1, due to fire, twenty units ahead of a player
    standing at the origin. *)
Definition exact_platform : Platform R :=
  mkPlatform (fun _ => 0%R) (fun x _ => x) (fun _ => 0%R)
    (fun _ => "new"%string) (fun _ lanes => (lanes, 0%nat)).

Definition exact_slow : FrameInput R :=
  mkFrameInput
    (mkGameState PLAYING 0 3 3 6%R [] 3 3 0 0 0%R true 1 false false false)
    (16 / 1000)%R 3%R (Some (0, 0, 0)%R) alert 3000.

Definition exact_saucer : GameObject R :=
  set_lastShotTime (Some 0%R)
    (set_variant (Some SAUCER)
       (set_health (Some 3%Z) (object "saucer" BARREL (0, 1, -20)%R))).

Definition exact_frame : Frame R :=
  mkFrame [exact_saucer] [] [] (props exact_slow) [] false 0 0 alert.

End Scenario.

(** * More of the code *)

(** ** store.ts: the store as its callers drive it *)

Module Session.
Section Session.
Context {num : Type} `{Number num}.
Local Open Scope Z_scope.

(** The state [create] builds before any action is called. *)
Definition initial : GameState num :=
  mkGameState MENU 0 3 3 (ofZ 0) [] 1 3 0 0 (ofZ 0) false 1 false false false.

(** One call to an action of the store, or one of its two timers going
    off. *)
Inductive Action :=
| StartGame
| RestartGame
| TakeDamage
| AddScore (amount : Z)
| CollectGem (value : Z)
| CollectLetter (index : Z)
| SetStatus (status : GameStatus)
| SetDistance (dist : Z)
| UpdateTime (delta : num)
| BuyItem (item : ItemType) (cost : Z)
| AdvanceLevel
| OpenShop
| CloseShop
| ActivateImmortality
| ImmortalityTimeout
| TriggerSlowMotion
| SlowMotionTimeout.

Definition perform (a : Action) (s : GameState num) : GameState num :=
  match a with
  | StartGame => startGame s
  | RestartGame => restartGame s
  | TakeDamage => takeDamage s
  | AddScore amount => addScore amount s
  | CollectGem value => collectGem value s
  | CollectLetter index => collectLetter index s
  | SetStatus status => setStatus status s
  | SetDistance dist => setDistance dist s
  | UpdateTime delta => updateTime delta s
  | BuyItem item cost => snd (buyItem item cost s)
  | AdvanceLevel => advanceLevel s
  | OpenShop => openShop s
  | CloseShop => closeShop s
  | ActivateImmortality => activateImmortality s
  | ImmortalityTimeout => immortalityTimeout s
  | TriggerSlowMotion => triggerSlowMotion s
  | SlowMotionTimeout => slowMotionTimeout s
  end.

Definition run (actions : list Action) (s : GameState num) : GameState num :=
  fold_left (fun s a => perform a s) actions s.

(** [advanceLevel] is called by [collectLetter] only; no component calls it
    on its own. *)
Definition called_by_components (a : Action) : bool :=
  match a with
  | AdvanceLevel => false
  | _ => true
  end.

(** What every state the store can be in satisfies. *)
Record sound (s : GameState num) : Prop := mkSound {
  snd_lives : 0 <= lives s <= maxLives s;
  snd_maxLives : 3 <= maxLives s;
  snd_level : 1 <= level s;
  snd_damage : 1 <= damagePerShot s;
  snd_lanes : In (laneCount s) [3; 5; 7; 9];
  snd_hasImmortality : hasImmortality s = false;
  snd_immortal : isImmortalityActive s = false;
  snd_letters : List.NoDup (collectedLetters s)
}.

(** The letters of the word: indices 0 to 5. *)
Definition slots : list Z := seqZ 0 (Z.of_nat (length GEMINI_TARGET)).

(** The level manager registers the [targetIndex] of a letter it spawned,
    an index into the word. *)
Definition letter_of_the_word (a : Action) : bool :=
  match a with
  | CollectLetter index => includes slots index
  | _ => true
  end.

End Session.
Arguments Action : clear implicits.
End Session.

(** ** store.ts: the two timers

    [triggerSlowMotion] and [activateImmortality] arm a timer of five
    seconds with [setTimeout]; nothing cancels one.  The store is taken
    together with the timers that are pending, each with the time it is
    due at, in the order they were armed (which is the order they go off
    in, the delay being the same). *)

Module Timers.
Import Store.
Section Timers.
Context {num : Type} `{Number num}.
Local Open Scope Z_scope.

Inductive Timer := SlowMotionEnds | ImmortalityEnds.

Record Clocked := mkClocked {
  current : GameState num;
  pending : list (Z * Timer)
}.

(** The callback of a timer. *)
Definition ring (t : Timer) (s : GameState num) : GameState num :=
  match t with
  | SlowMotionEnds => slowMotionTimeout s
  | ImmortalityEnds => immortalityTimeout s
  end.

(** The timers due by [now] go off. *)
Fixpoint elapse (now : Z) (timers : list (Z * Timer)) (s : GameState num)
  : Clocked :=
  match timers with
  | [] => mkClocked s []
  | (due, t) :: rest =>
      if due <=? now then elapse now rest (ring t s)
      else
        let w := elapse now rest s in
        mkClocked (current w) ((due, t) :: pending w)
  end.

(** The timer an action arms, if any. *)
Definition arms (a : Session.Action num) (s : GameState num)
  : option Timer :=
  match a with
  | Session.TriggerSlowMotion =>
      if negb (isSlowMotion s) then Some SlowMotionEnds else None
  | Session.ActivateImmortality =>
      if hasImmortality s && negb (isImmortalityActive s)
      then Some ImmortalityEnds else None
  | _ => None
  end.

(** An action called at time [now]. *)
Definition call (now : Z) (a : Session.Action num) (w : Clocked) : Clocked :=
  let w := elapse now (pending w) (current w) in
  let s := current w in
  mkClocked (Session.perform a s)
    (pending w
     ++ match arms a s with
        | Some t => [(now + 5000, t)]
        | None => []
        end).

Definition calls (l : list (Z * Session.Action num)) (w : Clocked)
  : Clocked :=
  fold_left (fun w ta => call (fst ta) (snd ta) w) l w.

(** The store as it is created: no timer is pending. *)
Definition created : Clocked := mkClocked Session.initial [].

(** The calls are made in the order of their times, from [since] on. *)
Fixpoint in_time (since : Z) (l : list (Z * Session.Action num)) : bool :=
  match l with
  | [] => true
  | (now, a) :: rest => (since <=? now) && in_time now rest
  end.

(** The time of the last call. *)
Fixpoint last_call (since : Z) (l : list (Z * Session.Action num)) : Z :=
  match l with
  | [] => since
  | (now, _) :: rest => last_call now rest
  end.

(** While slow motion is on, a timer that ends it is pending; every
    pending timer is due within five seconds, none is overdue. *)
Record ticking (now : Z) (w : Clocked) : Prop := mkTicking {
  tk_slow : isSlowMotion (current w) = true ->
    exists due, In (due, SlowMotionEnds) (pending w);
  tk_due : Forall (fun dt => now < fst dt <= now + 5000) (pending w)
}.

End Timers.
Arguments Clocked : clear implicits.
End Timers.

(** ** Player.tsx

    The state and the callbacks of the [Player] component: steering between
    lanes, the held trigger and the fire rate, the slide towards the lane
    and the invincibility window after a hit.  The group is taken to be
    mounted ([groupRef.current] is set); the rotations, the bobbing of the
    body and the models are rendering and are left out. *)

Module Player.
Import Store LevelManager.
Section Player.
Context {num : Type} `{Number num}.
Local Open Scope num_scope.

Definition FIRE_RATE : num := dec 15 2.

(** [lane] is the component's state; the other fields are its refs and the
    two properties of the group the callbacks write. *)
Record PlayerState := mkPlayerState {
  lane : Z;
  groupPosition : Vec3 num;         (* groupRef.current.position *)
  visible : bool;                   (* groupRef.current.visible *)
  touchStartX : num;
  touchStartY : num;
  isInvincible : bool;
  lastDamageTime : Z;               (* a Date.now(), in milliseconds *)
  isFiring : bool;
  lastFireTime : num
}.

Definition set_lane v (p : PlayerState) :=
  mkPlayerState v (groupPosition p) (visible p) (touchStartX p)
    (touchStartY p) (isInvincible p) (lastDamageTime p) (isFiring p)
    (lastFireTime p).
Definition set_groupPosition v (p : PlayerState) :=
  mkPlayerState (lane p) v (visible p) (touchStartX p)
    (touchStartY p) (isInvincible p) (lastDamageTime p) (isFiring p)
    (lastFireTime p).
Definition set_visible v (p : PlayerState) :=
  mkPlayerState (lane p) (groupPosition p) v (touchStartX p)
    (touchStartY p) (isInvincible p) (lastDamageTime p) (isFiring p)
    (lastFireTime p).
Definition set_touchStart x y (p : PlayerState) :=
  mkPlayerState (lane p) (groupPosition p) (visible p) x y
    (isInvincible p) (lastDamageTime p) (isFiring p) (lastFireTime p).
Definition set_isInvincible v (p : PlayerState) :=
  mkPlayerState (lane p) (groupPosition p) (visible p) (touchStartX p)
    (touchStartY p) v (lastDamageTime p) (isFiring p) (lastFireTime p).
Definition set_lastDamageTime v (p : PlayerState) :=
  mkPlayerState (lane p) (groupPosition p) (visible p) (touchStartX p)
    (touchStartY p) (isInvincible p) v (isFiring p) (lastFireTime p).
Definition set_isFiring v (p : PlayerState) :=
  mkPlayerState (lane p) (groupPosition p) (visible p) (touchStartX p)
    (touchStartY p) (isInvincible p) (lastDamageTime p) v (lastFireTime p).
Definition set_lastFireTime v (p : PlayerState) :=
  mkPlayerState (lane p) (groupPosition p) (visible p) (touchStartX p)
    (touchStartY p) (isInvincible p) (lastDamageTime p) (isFiring p) v.

(** The component as it mounts. *)
Definition mounted : PlayerState :=
  mkPlayerState 0 (ofZ 0, ofZ 0, ofZ 0) true (ofZ 0) (ofZ 0) false 0 false
    (ofZ 0).

(** [THREE.MathUtils.lerp] of three.js *)
Definition lerp (x y t : num) : num := (ofZ 1 - t) * x + t * y.

Definition maxLane (laneCount : Z) : Z := (laneCount / 2)%Z.

(** [setLane(l => Math.max(l - 1, -maxLane))] and
    [setLane(l => Math.min(l + 1, maxLane))] *)
Definition steerLeft (laneCount : Z) (p : PlayerState) : PlayerState :=
  set_lane (Z.max (lane p - 1) (- maxLane laneCount)) p.
Definition steerRight (laneCount : Z) (p : PlayerState) : PlayerState :=
  set_lane (Z.min (lane p + 1) (maxLane laneCount)) p.

(** The effect on [status]: reset state on game start. *)
Definition resetOnStart (status : GameStatus) (p : PlayerState)
  : PlayerState :=
  match status with
  | PLAYING =>
      let '(x, _, z) := groupPosition p in
      set_isFiring false (set_groupPosition (x, ofZ 0, z) p)
  | _ => p
  end.

(** The effect on [laneCount] and [lane]: clamp the lane. *)
Definition clampLane (laneCount : Z) (p : PlayerState) : PlayerState :=
  let maxLane := maxLane laneCount in
  if (maxLane <? Z.abs (lane p))%Z
  then set_lane (Z.max (Z.min (lane p) maxLane) (- maxLane)) p
  else p.

(** The lane is one of the lanes of the track. *)
Definition on_track (laneCount : Z) (p : PlayerState) : Prop :=
  (Z.abs (lane p) <= maxLane laneCount)%Z.

(** What the component sends out: calls to [audio] and the shoot events
    dispatched on [window]. *)
Inductive Signal :=
| PlayShootSound
| PlayDamageSound
| PlayerShoot (at_ : Vec3 num) (angle : num).

Definition triggerShoot (hasSpreadShot : bool) (p : PlayerState)
  : list Signal :=
  let '(x, y0, z) := groupPosition p in
  let y := y0 + dec 12 1 in
  PlayShootSound
  :: PlayerShoot (x, y, z) (ofZ 0)
  :: (if hasSpreadShot
      then [PlayerShoot (x, y, z) (- dec 2 1); PlayerShoot (x, y, z) (dec 2 1)]
      else []).

Definition key_in (key : string) (keys : list string) : bool :=
  existsb (String.eqb key) keys.

(** The listeners see the store through the last render; [s] is the state
    of the store they read and, for the crouch and the damage, write. *)
Definition handleKeyDown (key : string) (p : PlayerState) (s : GameState num)
  : PlayerState * GameState num :=
  match status s with
  | PLAYING =>
      if key_in key ["ArrowLeft"; "a"; "A"]%string
      then (steerLeft (laneCount s) p, s)
      else if key_in key ["ArrowRight"; "d"; "D"]%string
      then (steerRight (laneCount s) p, s)
      else if key_in key ["ArrowDown"; "s"; "S"]%string
      then (p, triggerSlowMotion s)
      else if key_in key [" "; "Enter"]%string
      then (set_isFiring true p, s)
      else (p, s)
  | _ => (p, s)
  end.

Definition handleKeyUp (key : string) (p : PlayerState) : PlayerState :=
  if key_in key [" "; "Enter"]%string then set_isFiring false p else p.

Definition handleMouseDown (button : Z) (p : PlayerState) (s : GameState num)
  : PlayerState :=
  match status s with
  | PLAYING => if (button =? 0)%Z then set_isFiring true p else p
  | _ => p
  end.

Definition handleMouseUp (p : PlayerState) : PlayerState :=
  set_isFiring false p.

Definition handleTouchStart (clientX clientY : num) (p : PlayerState)
  : PlayerState :=
  set_isFiring true (set_touchStart clientX clientY p).

Definition handleTouchEnd (clientX clientY : num) (p : PlayerState)
  (s : GameState num) : PlayerState * GameState num :=
  match status s with
  | PLAYING =>
      let deltaX := clientX - touchStartX p in
      let deltaY := clientY - touchStartY p in
      let p := set_isFiring false p in
      if (nabs deltaX >? nabs deltaY) && (nabs deltaX >? ofZ 30) then
        if deltaX >? ofZ 0 then (steerRight (laneCount s) p, s)
        else (steerLeft (laneCount s) p, s)
      else if (nabs deltaY >? nabs deltaX) && (deltaY >? ofZ 30) then
        (p, triggerSlowMotion s)
      else (p, s)
  | _ => (p, s)
  end.

(** The animation loop; [now] is [Date.now()]. *)
Definition useFrame (time delta : num) (now : Z) (p : PlayerState)
  (s : GameState num) : PlayerState * list Signal :=
  match status s with
  | PLAYING | SHOP =>
      let fire := isFiring p && (time >? lastFireTime p + FIRE_RATE) in
      let out := if fire then triggerShoot (hasSpreadShot s) p else [] in
      let p := if fire then set_lastFireTime time p else p in
      let targetX := ofZ (lane p) * LANE_WIDTH in
      let '(x, y, z) := groupPosition p in
      let p := set_groupPosition (lerp x targetX (delta * ofZ 15), y, z) p in
      let showFlicker := isInvincible p || isImmortalityActive s in
      let p :=
        if showFlicker then
          let p :=
            if isInvincible p then
              if (1500 <? now - lastDamageTime p)%Z
              then set_visible true (set_isInvincible false p)
              else set_visible (Z.rem (now / 50) 2 =? 0)%Z p
            else p in
          if isImmortalityActive s then set_visible true p else p
        else set_visible true p in
      (p, out)
  | _ => (p, [])
  end.

(** The listener of the hit event. *)
Definition checkHit (now : Z) (p : PlayerState) (s : GameState num)
  : PlayerState * GameState num * list Signal :=
  if isInvincible p || isImmortalityActive s then (p, s, [])
  else
    (set_lastDamageTime now (set_isInvincible true p), takeDamage s,
     [PlayDamageSound]).

(** What reaches the component, in the order it happens. *)
Inductive Event :=
| KeyDown (key : string)
| KeyUp (key : string)
| MouseDown (button : Z)
| MouseUp
| TouchStart (clientX clientY : num)
| TouchEnd (clientX clientY : num)
| Hit (now : Z)
| Tick (time delta : num) (now : Z).

Definition handle (e : Event) (w : PlayerState * GameState num)
  : PlayerState * GameState num * list Signal :=
  let '(p, s) := w in
  match e with
  | KeyDown key => (handleKeyDown key p s, [])
  | KeyUp key => (handleKeyUp key p, s, [])
  | MouseDown button => (handleMouseDown button p s, s, [])
  | MouseUp => (handleMouseUp p, s, [])
  | TouchStart x y => (handleTouchStart x y p, s, [])
  | TouchEnd x y => (handleTouchEnd x y p s, [])
  | Hit now => checkHit now p s
  | Tick time delta now =>
      let '(p, out) := useFrame time delta now p s in (p, s, out)
  end.

Fixpoint play (events : list Event) (w : PlayerState * GameState num)
  : PlayerState * GameState num * list Signal :=
  match events with
  | [] => (w, [])
  | e :: rest =>
      let '(w, out) := handle e w in
      let '(w, out') := play rest w in
      (w, out ++ out')
  end.

(** The time an event carries, for those that read the clock. *)
Definition stamp (e : Event) : option Z :=
  match e with
  | Hit now | Tick _ _ now => Some now
  | _ => None
  end.

(** The event happens no later than 1500 ms after [since]. *)
Definition in_window (since : Z) (e : Event) : bool :=
  match stamp e with
  | Some now => (now - since <=? 1500)%Z
  | None => true
  end.

(** The shoot events as the listener of the level manager receives them. *)
Fixpoint deliver (P : Platform num) (status : GameStatus)
  (signals : list Signal) (uid : nat) (m : Manager num) : Manager num * nat :=
  match signals with
  | [] => (m, uid)
  | PlayerShoot at_ angle :: rest =>
      deliver P status rest
        (match status with PLAYING => S uid | _ => uid end)
        (handlePlayerShoot P status at_ angle uid m)
  | _ :: rest => deliver P status rest uid m
  end.

End Player.
Arguments PlayerState : clear implicits.
Arguments Signal : clear implicits.
Arguments Event : clear implicits.
End Player.

(** ** HUD.tsx: the shop screen

    The catalogue, the three offers drawn when the screen mounts and the
    purchase buttons.  The icons and the markup are left out. *)

Module HUD.
Import Store.
Section HUD.
Context {num : Type} `{Number num}.
Local Open Scope Z_scope.

Record ShopItem := mkShopItem {
  item_id : ItemType;
  name : string;
  description : string;
  cost : Z;
  oneTime : bool
}.

Definition SHOP_ITEMS : list ShopItem :=
  [ mkShopItem HEAVY_AMMO "HEAVY ROUNDS"
      "Bullets deal +1 Damage. Essential for high level obstacles."
      6000 false;
    mkShopItem SPREAD_SHOT "TRIPLE CANNON"
      "Fire 3 bullets at once in a spread pattern."
      12000 true;
    mkShopItem MAX_LIFE "HULL INTEGRITY"
      "Permanently adds a heart slot and heals you."
      5000 false;
    mkShopItem HEAL "REPAIR KIT"
      "Restores 1 Life point instantly."
      1500 false ]%string.

Definition is_spread_shot (item : ShopItem) : bool :=
  match item_id item with
  | SPREAD_SHOT => true
  | _ => false
  end.

(** The pool the offers are drawn from. *)
Definition pool (hasSpreadShot : bool) : list ShopItem :=
  List.filter (fun item => negb (is_spread_shot item && hasSpreadShot))
    SHOP_ITEMS.

(** The effect run when the screen mounts; [shuffle] is what
    [pool.sort(() => 0.5 - Math.random())] returns. *)
Definition offers (shuffle : list ShopItem -> list ShopItem)
  (s : GameState num) : list ShopItem :=
  take 3 (shuffle (pool (hasSpreadShot s))).

Definition canAfford (s : GameState num) (item : ShopItem) : bool :=
  cost item <=? score s.

(** A click on the button of an item; the button is disabled unless the
    item can be afforded. *)
Definition clickBuy (item : ShopItem) (s : GameState num) : GameState num :=
  if canAfford s item then snd (buyItem (item_id item) (cost item) s)
  else s.

(** A visit to the shop: the offers are drawn once, the [n]-th button is
    clicked for each [n] of [clicks], and the resume button closes the
    shop. *)
Definition visit (shuffle : list ShopItem -> list ShopItem)
  (clicks : list nat) (s : GameState num) : GameState num :=
  let items := offers shuffle s in
  closeShop
    (fold_left
       (fun s n =>
          match items !! n with
          | Some item => clickBuy item s
          | None => s
          end)
       clicks s).

(** What a visit to the shop may change: it spends score and upgrades. *)
Record upgraded (s s' : GameState num) : Prop := mkUpgraded {
  up_score : 0 <= score s' <= score s;
  up_lives : lives s <= lives s' <= maxLives s';
  up_maxLives : maxLives s <= maxLives s';
  up_damage : damagePerShot s <= damagePerShot s';
  up_spread : hasSpreadShot s = true -> hasSpreadShot s' = true;
  up_level : level s' = level s;
  up_letters : collectedLetters s' = collectedLetters s;
  up_lanes : laneCount s' = laneCount s;
  up_speed : speed s' = speed s
}.

End HUD.
End HUD.

(** ** LevelManager.tsx: resets and transitions

    The effect the component runs when [status] or [level] changes. *)

Module Transitions.
Import Store LevelManager.
Section Transitions.
Context {num : Type} `{Number num}.
Local Open Scope num_scope.
Variable P : Platform num.

Record Refs := mkRefs {
  prevStatus : GameStatus;
  prevLevel : Z
}.

Definition GameStatus_eqb (a b : GameStatus) : bool :=
  match a, b with
  | MENU, MENU | PLAYING, PLAYING | SHOP, SHOP
  | GAME_OVER, GAME_OVER | VICTORY, VICTORY => true
  | _, _ => false
  end.

Definition shopPortal (i : string) : GameObject num :=
  object i SHOP_PORTAL (ofZ 0, ofZ 0, ofZ (-100)).

(** The effect, run with the [status] and [level] of the render; [st] is
    the state of the store and [uid] counts the calls to [uuidv4()]. *)
Definition onTransition (status : GameStatus) (level : Z) (refs : Refs)
  (m : Manager num) (st : GameState num) (uid : nat)
  : Refs * Manager num * GameState num * nat :=
  let isRestart :=
    GameStatus_eqb status PLAYING && GameStatus_eqb (prevStatus refs) GAME_OVER in
  let isMenuReset := GameStatus_eqb status MENU in
  let isLevelUp :=
    negb (level =? prevLevel refs)%Z && GameStatus_eqb status PLAYING in
  let isVictoryReset :=
    GameStatus_eqb status PLAYING && GameStatus_eqb (prevStatus refs) VICTORY in
  let '(m, st, uid) :=
    if isMenuReset || isRestart || isVictoryReset then
      (mkManager [] (S (renderTrigger m)) (ofZ 0) (getLetterInterval P 1),
       st, uid)
    else if isLevelUp && (1 <? level)%Z then
      let kept :=
        List.filter (fun obj => posZ obj >? ofZ (-80)) (objects m) in
      (mkManager (kept ++ [shopPortal (uuidv4 P uid)])
         (S (renderTrigger m)) (distanceTraveled m)
         (distanceTraveled m - SPAWN_DISTANCE + getLetterInterval P level),
       st, S uid)
    else if GameStatus_eqb status GAME_OVER || GameStatus_eqb status VICTORY
    then (m, setDistance (nfloorZ (distanceTraveled m)) st, uid)
    else (m, st, uid) in
  (mkRefs status level, m, st, uid).

End Transitions.
End Transitions.

(** ** LevelManager.tsx: the particle system

    The pool of particles, the listener of the burst event and the frame
    callback.  The instanced mesh the particles are drawn with is left
    out. *)

Module ParticleSystem.
Import Store LevelManager.
Section ParticleSystem.
Context {num : Type} `{Number num}.
Local Open Scope num_scope.

Definition PARTICLE_COUNT : nat := 600.
Definition burstAmount : nat := 40.

Record Particle := mkParticle {
  life : num;
  pos : Vec3 num;
  vel : Vec3 num;
  rot : Vec3 num;
  rotVel : Vec3 num;
  p_color : string
}.

(** [new Array(PARTICLE_COUNT).fill(0).map(...)]; the color of a new
    [THREE.Color] is white. *)
Definition idle : Particle :=
  let zero := (ofZ 0, ofZ 0, ofZ 0) in
  mkParticle (ofZ 0) zero zero zero zero "#ffffff".
Definition particles : list Particle := replicate PARTICLE_COUNT idle.

(** [Math.cos], [Math.acos] and [Math.PI]; [Math.sin] and [Math.random]
    are the platform's. *)
Record Trig := mkTrig {
  cos : num -> num;
  acos : num -> num;
  PI : num
}.

Variable P : Platform num.
Variable T : Trig.

Definition multiplyScalar (v : Vec3 num) (k : num) : Vec3 num :=
  let '(x, y, z) := v in (x * k, y * k, z * k).

(** The body of [if (p.life <= 0) { ... }]: the particle the slot holds
    after the burst at [position], drawing ten random values from the
    [rnd]-th on. *)
Definition revive (position : Vec3 num) (color : string) (rnd : nat)
  : Particle :=
  let r k := random P (rnd + k) in
  let life := ofZ 1 + r 0%nat * dec 5 1 in
  let theta := r 1%nat * PI T * ofZ 2 in
  let phi := acos T (ofZ 2 * r 2%nat - ofZ 1) in
  let speed := ofZ 2 + r 3%nat * ofZ 10 in
  let vel :=
    multiplyScalar
      (sin P phi * cos T theta, sin P phi * sin P theta, cos T phi) speed in
  let rot := (r 4%nat * PI T, r 5%nat * PI T, r 6%nat * PI T) in
  let rotVel :=
    multiplyScalar
      (r 7%nat - dec 5 1, r 8%nat - dec 5 1, r 9%nat - dec 5 1) (ofZ 5) in
  mkParticle life position vel rot rotVel color.

(** [for (let i = 0; i < PARTICLE_COUNT; i++)] over the slots not yet
    visited, [spawned] particles revived so far. *)
Fixpoint burstLoop (position : Vec3 num) (color : string)
  (ps : list Particle) (spawned rnd : nat) : list Particle * nat :=
  match ps with
  | [] => ([], rnd)
  | p :: rest =>
      if life p <=? ofZ 0 then
        let p := revive position color rnd in
        let spawned := S spawned in
        if (burstAmount <=? spawned)%nat then (p :: rest, (rnd + 10)%nat)
        else
          let '(rest, rnd') :=
            burstLoop position color rest spawned (rnd + 10)%nat in
          (p :: rest, rnd')
      else
        let '(rest, rnd') := burstLoop position color rest spawned rnd in
        (p :: rest, rnd')
  end.

(** The slot is free: the test of the burst loop. *)
Definition dead (p : Particle) : bool := life p <=? ofZ 0.

(** The number of free slots before index [i]. *)
Definition deadBefore (i : nat) (ps : list Particle) : nat :=
  length (List.filter dead (take i ps)).

Definition handleExplosion (position : Vec3 num) (color : string)
  (ps : list Particle) (rnd : nat) : list Particle * nat :=
  burstLoop position color ps 0 rnd.

(** The frame callback, on one particle. *)
Definition stepParticle (delta : num) (p : Particle) : Particle :=
  let safeDelta := nmin delta (dec 1 1) in
  if life p >? ofZ 0 then
    let life := life p - safeDelta * dec 15 1 in
    let '(px, py, pz) := pos p in
    let '(vx, vy, vz) := vel p in
    let pos := (px + vx * safeDelta, py + vy * safeDelta, pz + vz * safeDelta) in
    let vy := vy - safeDelta * ofZ 5 in
    let vel := multiplyScalar (vx, vy, vz) (dec 98 2) in
    let '(rx, ry, rz) := rot p in
    let '(wx, wy, _) := rotVel p in
    let rot := (rx + wx * safeDelta, ry + wy * safeDelta, rz) in
    mkParticle life pos vel rot (rotVel p) (p_color p)
  else p.

Definition useFrame (delta : num) (ps : list Particle) : list Particle :=
  List.map (stepParticle delta) ps.

End ParticleSystem.
Arguments Particle : clear implicits.
Arguments Trig : clear implicits.
End ParticleSystem.

(** ** Vocabulary of the further properties of the frame *)

Section Conduct.
Context {num : Type} `{Number num}.
Variable P : Platform num.
Variable inp : FrameInput num.

(** What stays of an object for as long as it is in the store: everything
    but its position, its AI timers and its health; it is never activated
    again, a flyer that has fired stays so, and health is only taken
    away. *)
Record persists (o o' : GameObject num) : Prop := mkPersists {
  ps_id : id o' = id o;
  ps_type : type o' = type o;
  ps_value : value o' = value o;
  ps_color : color o' = color o;
  ps_targetIndex : targetIndex o' = targetIndex o;
  ps_points : points o' = points o;
  ps_maxHealth : maxHealth o' = maxHealth o;
  ps_variant : variant o' = variant o;
  ps_velocity : velocity o' = velocity o;
  ps_scale : scale o' = scale o;
  ps_speedBonus : speedBonus o' = speedBonus o;
  ps_vx : vx o' = vx o;
  ps_active : active o = false -> active o' = false;
  ps_fired : hasFired o = Some true -> hasFired o' = Some true;
  ps_health : (0 <= damagePerShot (props inp))%Z ->
    forall h, health o = Some h ->
    exists h', health o' = Some h' /\ (h' <= h)%Z
}.

(** The object stays where it is; it may be deactivated or lose health. *)
Record stays (o o' : GameObject num) : Prop := mkStays {
  st_persists : persists o o';
  st_position : position o' = position o;
  st_hasFired : hasFired o' = hasFired o
}.

(** The store actions the frame calls itself; [takeDamage] is called for it
    by the listener of its hit events. *)
Inductive store_action : (GameState num -> GameState num) -> Prop :=
| action_collectGem v : store_action (collectGem v)
| action_collectLetter index : store_action (collectLetter index)
| action_openShop : store_action openShop.

(** What the AI and the collision logic do to the frame, one operation
    after the other: they emit, set [hasChanges], call the store, draw
    random values, spawn, deactivate an object, take health from one or
    dispatch a hit on the player.  They neither move an object nor decide
    what is kept. *)
Inductive settles (fr : Frame num) : Frame num -> Prop :=
| settles_refl : settles fr fr
| settles_emit fr' e : settles fr fr' -> settles fr (emit e fr')
| settles_changed fr' : settles fr fr' -> settles fr (changed fr')
| settles_store fr' f :
    store_action f -> settles fr fr' ->
    settles fr (set_store (f (store fr')) fr')
| settles_random fr' :
    settles fr fr' -> settles fr (set_randoms (S (randoms fr')) fr')
| settles_spawn fr' mk :
    (forall u, fresh inp (mk u)) -> (forall u, id (mk u) = u) ->
    settles fr fr' ->
    settles fr (spawn P mk fr')
| settles_deactivate fr' j :
    settles fr fr' -> settles fr (deactivate j fr')
| settles_hurt fr' j target :
    heap fr' !! j = Some target -> settles fr fr' ->
    settles fr
      (set_heap
         (alter (set_health (Some (healthAfterHit inp target))) j (heap fr'))
         fr')
| settles_dispatch fr' :
    settles fr fr' -> settles fr (dispatchPlayerHit inp fr').

(** The object is within the range the loop keeps objects in: a bullet that
    is active has not passed 30 units ahead, any other object has not
    passed [REMOVE_DISTANCE] behind the player. *)
Definition in_bounds (o : GameObject num) : Prop :=
  if ObjectType_eqb (type o) BULLET
  then active o = true -> nltb (posZ o) (ofZ (-30)) = false
  else nltb REMOVE_DISTANCE (posZ o) = false.

(** The invariant of the loop once the objects before index [k] have been
    processed: the objects persist, the kept ones are in bounds, and an
    object other than a bullet is not dropped without [hasChanges]. *)
Record conducted (heap0 : list (GameObject num)) (k : nat) (fr : Frame num)
  : Prop := mkConducted {
  cd_heap : Forall2 persists heap0 (heap fr);
  cd_kept : forall j, In j (keptObjects fr) ->
      j < k /\ exists o', heap fr !! j = Some o' /\ in_bounds o';
  cd_dropped : forall j o', j < k -> heap fr !! j = Some o' ->
      ~ In j (keptObjects fr) -> type o' <> BULLET -> hasChanges fr = true
}.

(** [Math.floor(Math.random() * k)] is an index below [k], and the shuffle
    returns the lanes it is given, reordered. *)
Definition random_index : Prop :=
  forall n k, (0 < k)%Z ->
    (0 <= nfloorZ (nmul (random P n) (ofZ k)) < k)%Z.
Definition fair_shuffle : Prop :=
  forall n l, Permutation l (fst (sortRandom P n l)).

(** The object stands on one of the lanes of the track. *)
Definition on_lane (o : GameObject num) : Prop :=
  exists lane,
    (Z.abs lane <= laneCount (props inp) / 2)%Z /\ posX o = laneX lane.

(** A letter carries the index of a letter of the word that the store does
    not hold, with the glyph and the color of that index. *)
Definition wanted_letter (o : GameObject num) : Prop :=
  type o = LETTER ->
  exists index,
    targetIndex o = Some index /\
    (0 <= index < Z.of_nat (length GEMINI_TARGET))%Z /\
    includes (collectedLetters (props inp)) index = false /\
    value o = Some (nth (Z.to_nat index) GEMINI_TARGET EmptyString) /\
    color o = Some (nth (Z.to_nat index) GEMINI_COLORS EmptyString).

Definition well_placed (o : GameObject num) : Prop :=
  on_lane o /\ wanted_letter o.


(** The spawning logic has pushed objects that satisfy [Q], and nothing
    else. *)
Definition pushes (Q : GameObject num -> Prop) (d d' : Director num) : Prop :=
  exists extra, pushed d' = pushed d ++ extra /\ Forall Q extra.

(** The ids of the objects are results of [uuidv4()], each of another call
    before the [uid]-th. *)
Definition issued_before (uid : nat) (l : list (GameObject num)) : Prop :=
  exists ks,
    List.map id l = List.map (uuidv4 P) ks /\ List.NoDup ks /\
    Forall (fun k => k < uid) ks.

(** The ids of the objects are the results of the calls to [uuidv4()] from
    the [uid]-th on, in order. *)
Definition numbered (uid : nat) (l : list (GameObject num)) : Prop :=
  List.map id l = List.map (uuidv4 P) (seq uid (length l)).

(** What the loop and the spawning logic add is numbered from their
    counter of calls on, and the counter moves on accordingly. *)
Definition frame_issues (fr fr' : Frame num) : Prop :=
  exists extra,
    newSpawns fr' = newSpawns fr ++ extra /\ numbered (uuids fr) extra /\
    uuids fr' = uuids fr + length extra.
Definition director_issues (d d' : Director num) : Prop :=
  exists extra,
    pushed d' = pushed d ++ extra /\ numbered (d_uuids d) extra /\
    d_uuids d' = d_uuids d + length extra.

(** The spawning logic has pushed no letter and has left
    [nextLetterDistance.current] alone. *)
Definition no_letter (d d' : Director num) : Prop :=
  pushes (fun o => type o <> LETTER) d d' /\
  d_nextLetterDistance d' = d_nextLetterDistance d.

(** The store [l'] by which a frame that has made [n] calls to [uuidv4()]
    replaces the store [l]: objects of [l] carried over in their order, each
    related by [R] to what it was, followed by the [n] objects the frame has
    created, which satisfy [Q]. *)
Definition carries (R : GameObject num -> GameObject num -> Prop)
  (Q : GameObject num -> Prop) (l l' : list (GameObject num)) (n : nat)
  : Prop :=
  exists js carried created,
    l' = carried ++ created /\ length created = n /\
    sublist js (seq 0 (length l)) /\
    Forall2 (fun j o' => exists o, l !! j = Some o /\ R o o') js carried /\
    Forall Q created.

(** The listener lets a hit through: the player is neither invincible nor,
    as far as the listener knows, immortal. *)
Definition listening (h : HitListener) : bool :=
  negb (hl_isInvincible h || hl_isImmortalityActive h).

(** The listener once it has let a hit through. *)
Definition struck (h : HitListener) : HitListener :=
  mkHitListener true (now inp) (hl_isImmortalityActive h).

(** Between the two states the listener has let no hit through, and the
    lives are as they were; or it was listening, has let one hit through,
    and the lives are what [takeDamage()] makes of them. *)
Definition takes_one_hit (h : HitListener) (s : GameState num)
  (h' : HitListener) (s' : GameState num) : Prop :=
  (h' = h /\ lives s' = lives s) \/
  (listening h = true /\ h' = struck h /\
   lives s' = lives (takeDamage s)).

(** What a frame leaves of the state of the store: it touches no upgrade;
    gems and levels only go up. *)
Record frame_leaves (s s' : GameState num) : Prop := mkFrameLeaves {
  fl_maxLives : maxLives s' = maxLives s;
  fl_damagePerShot : damagePerShot s' = damagePerShot s;
  fl_hasSpreadShot : hasSpreadShot s' = hasSpreadShot s;
  fl_isSlowMotion : isSlowMotion s' = isSlowMotion s;
  fl_hasImmortality : hasImmortality s' = hasImmortality s;
  fl_isImmortalityActive : isImmortalityActive s' = isImmortalityActive s;
  fl_distance : distance s' = distance s;
  fl_gameTime : gameTime s' = gameTime s;
  fl_gemsCollected : (gemsCollected s <= gemsCollected s')%Z;
  fl_level : (level s <= level s')%Z
}.

End Conduct.

(** ** Scenarios for the session, the shop, the player and the
    transitions *)

Module Episode.
Import Scenario.
Local Open Scope float_scope.

(** The word, letter by letter. *)
Definition word : list (Session.Action float) :=
  List.map Session.CollectLetter [0; 1; 2; 3; 4; 5]%Z.

(** A whole game: the word completed fifty times. *)
Definition campaign : list (Session.Action float) :=
  Session.StartGame :: concat (replicate 50 word).

(** The shuffle that reverses the pool. *)
Definition reversed (l : list HUD.ShopItem) : list HUD.ShopItem := rev l.

Definition repairKit : HUD.ShopItem :=
  HUD.mkShopItem HEAL "REPAIR KIT" "Restores 1 Life point instantly."
    1500 false.

(** Three steps to the left, then a hit and what follows it at once. *)
Definition leftwards : list (Player.Event float) :=
  [Player.KeyDown "ArrowLeft"; Player.KeyDown "a"; Player.KeyDown "A"]%string.

Definition pileUp : list (Player.Event float) :=
  [Player.Hit 1000; Player.Tick 1 0.016 1016; Player.KeyDown "d";
   Player.Hit 2400; Player.Tick 2 0.016 2500]%string.

Definition triggerHeld : Player.PlayerState float :=
  Player.set_isFiring true Player.mounted.

Definition armed : GameState float := set_hasSpreadShot true playing.

(** Slow motion triggered twice, a hit in between, over three seconds. *)
Definition timeline : list (Z * Session.Action float) :=
  [(0, Session.StartGame); (1000, Session.TriggerSlowMotion);
   (2000, Session.TakeDamage); (3000, Session.TriggerSlowMotion)]%Z.

(** The refs of the level manager after a render at level 1. *)
Definition levelOne : Transitions.Refs := Transitions.mkRefs PLAYING 1.

(** A wreck: a hazard a bullet has destroyed, still in the store. *)
Definition wreck : GameObject float :=
  set_active false (hazard "wreck" 0 (0, 0.6, -5.5)).

Definition afterHit : Frame float :=
  mkFrame [wreck] [] [] playing [] false 0 0 alert.

(** The player in exact arithmetic, one lane to the right of the group. *)
Definition exact_player : Player.PlayerState R :=
  Player.set_lane 1 Player.mounted.

Definition exact_store : Manager R := mkManager [exact_saucer] 0 0%R 150%R.

(** Two hazards that run into the player in the same frame. *)
Definition pincer : Manager float :=
  mkManager
    [ hazard "A" 1 (0, 0.6, -0.5); hazard "B" 5 (0.5, 0.6, 0.2) ] 0 0 150.

Definition isPlayerHit (e : Effect float) : bool :=
  match e with
  | PlayerHit => true
  | _ => false
  end.

(** A saucer that has passed the player on the next lane and is due to
    fire, half a unit short of [REMOVE_DISTANCE]. *)
Definition rearguard : Manager float :=
  mkManager
    [ set_lastShotTime (Some (-2))
        (set_variant (Some SAUCER)
           (set_health (Some 2%Z) (object "saucer" BARREL (2.2, 1, 19.5)))) ]
    0 0 150.

(** A generator of ids that never repeats: its n-th id is n strokes. *)
Fixpoint tally (n : nat) : string :=
  match n with
  | O => EmptyString
  | S n => String.append "|"%string (tally n)
  end.

Definition counting : Platform float :=
  mkPlatform (fun _ => 0) (fun x _ => x) (fun _ => 0.5) tally
    (fun _ lanes => (lanes, 0%nat)).

(** A bullet about to destroy a hazard, with the first two ids. *)
Definition fleet : Manager float :=
  mkManager
    [ object (tally 0) BULLET (0, 1, -5);
      hazard (tally 1) 1 (0, 0.6, -5.5) ]
    0 0 150.

End Episode.

(** * Properties of the store *)

Section StoreProperties.
Context {num : Type} `{Number num}.
Local Open Scope Z_scope.

Lemma includes_In (l : list Z) (index : Z) :
  includes l index = true <-> In index l.
Proof.
  unfold includes. rewrite existsb_exists. split.
  - intros (x & Hx & E). apply Z.eqb_eq in E. now subst.
  - intros Hin. exists index. split; [assumption | apply Z.eqb_refl].
Qed.

Lemma includes_app_same (l : list Z) (index : Z) :
  includes (l ++ [index]) index = true.
Proof. apply includes_In, in_or_app. right. now left. Qed.

Lemma collectLetter_registered (index : Z) (s : GameState num) :
  In index (collectedLetters s) -> collectLetter index s = s.
Proof.
  intros Hin. apply includes_In in Hin.
  unfold collectLetter. now rewrite Hin.
Qed.

(** A second registration right after a first one that did not complete the
    word changes nothing either. *)
Lemma collectLetter_twice (index : Z) (s : GameState num) :
  length (collectedLetters s) <> 5%nat ->
  collectLetter index (collectLetter index s) = collectLetter index s.
Proof.
  intros Hlen. apply collectLetter_registered.
  unfold collectLetter at 1.
  destruct (includes (collectedLetters s) index) eqn:E; simpl.
  - now apply includes_In.
  - rewrite length_app. simpl.
    destruct (Nat.eqb_spec (length (collectedLetters s) + 1) 6); [lia|].
    simpl. apply in_or_app. right. now left.
Qed.

(** C5. Registering a target index that is already in the collected set
    leaves the whole game state as it was: collected letters, level and
    speed included. *)
Theorem collectLetter_idempotent (index : Z) (s : GameState num) :
  In index (collectedLetters s) ->
  collectLetter index s = s /\
  collectedLetters (collectLetter index s) = collectedLetters s /\
  level (collectLetter index s) = level s /\
  speed (collectLetter index s) = speed s.
Proof.
  intros Hin. rewrite (collectLetter_registered index s Hin). auto.
Qed.

(** The collected letters never hold an index twice. *)
Lemma collectLetter_NoDup (index : Z) (s : GameState num) :
  List.NoDup (collectedLetters s) ->
  List.NoDup (collectedLetters (collectLetter index s)).
Proof.
  intros Hnd. unfold collectLetter.
  destruct (includes (collectedLetters s) index) eqn:E; simpl; [assumption|].
  assert (Hnew : List.NoDup (collectedLetters s ++ [index])).
  { apply NoDup_ListNoDup, NoDup_app. repeat split.
    - now apply NoDup_ListNoDup.
    - intros x Hx Hx'. apply list_elem_of_In in Hx.
      apply list_elem_of_In in Hx'. destruct Hx' as [<- | []].
      apply includes_In in Hx. congruence.
    - apply NoDup_ListNoDup. repeat constructor. intros []. }
  destruct (_ =? _)%nat; [|exact Hnew].
  destruct (level s <? MAX_LEVEL); simpl; [constructor | exact Hnew].
Qed.

(** C6. Collecting a new letter when five are held completes the word: below
    the maximum level the level is incremented and the letters are reset, at
    the maximum level the game is won; any other registration leaves level,
    status and score alone, so a completion makes one transition. *)
Theorem collectLetter_completion (index : Z) (s : GameState num) :
  let s' := collectLetter index s in
  (includes (collectedLetters s) index = false ->
   length (collectedLetters s) = 5%nat ->
   level s < MAX_LEVEL ->
   level s' = level s + 1 /\ collectedLetters s' = [] /\
   status s' = PLAYING /\ score s' = score s)
  /\
  (includes (collectedLetters s) index = false ->
   length (collectedLetters s) = 5%nat ->
   MAX_LEVEL <= level s ->
   status s' = VICTORY /\ level s' = level s /\
   score s' = score s + 50000 /\
   collectedLetters s' = collectedLetters s ++ [index])
  /\
  (includes (collectedLetters s) index = true \/
   length (collectedLetters s) <> 5%nat ->
   level s' = level s /\ status s' = status s /\ score s' = score s).
Proof.
  cbv zeta. unfold collectLetter. split; [|split].
  - intros Hnew Hlen Hlvl. rewrite Hnew. simpl.
    rewrite length_app, Hlen. simpl.
    apply Z.ltb_lt in Hlvl. rewrite Hlvl. now simpl.
  - intros Hnew Hlen Hlvl. rewrite Hnew. simpl.
    rewrite length_app, Hlen. simpl.
    apply Z.ltb_ge in Hlvl. rewrite Hlvl. now simpl.
  - intros [Hin | Hlen]; [now rewrite Hin|].
    destruct (includes _ _); simpl; [now idtac|].
    rewrite length_app. simpl.
    destruct (Nat.eqb_spec (length (collectedLetters s) + 1) 6); [lia|].
    now simpl.
Qed.

(** C8. A purchase the score covers returns true, takes exactly the cost off
    the score and applies the upgrade; one it does not cover returns false
    and leaves the state as it was. *)
Theorem buyItem_all_or_nothing (type : ItemType) (cost : Z)
  (s : GameState num) :
  (cost <= score s ->
   let paid := set_score (score s - cost) s in
   fst (buyItem type cost s) = true /\
   score (snd (buyItem type cost s)) = score s - cost /\
   snd (buyItem type cost s) =
     match type with
     | HEAVY_AMMO => set_damagePerShot (damagePerShot s + 1) paid
     | SPREAD_SHOT => set_hasSpreadShot true paid
     | MAX_LIFE => set_lives (lives s + 1) (set_maxLives (maxLives s + 1) paid)
     | HEAL => set_lives (Z.min (lives s + 1) (maxLives s)) paid
     end)
  /\
  (score s < cost -> buyItem type cost s = (false, s)).
Proof.
  unfold buyItem. split.
  - intros Hle. apply Z.leb_le in Hle. rewrite Hle. cbv zeta.
    destruct type; simpl; auto.
  - intros Hlt. apply Z.leb_gt in Hlt. now rewrite Hlt.
Qed.

Lemma takeDamage_lives_nonneg (s : GameState num) :
  0 <= lives s -> 0 <= lives (takeDamage s).
Proof.
  intros Hpos. unfold takeDamage.
  destruct (isImmortalityActive s); [assumption|].
  destruct (1 <? lives s) eqn:E; simpl; [apply Z.ltb_lt in E|]; lia.
Qed.

(** C10. Under immortality [takeDamage] changes nothing; otherwise it takes
    one life when more than one is left, and ends the game (lives 0, status
    GAME_OVER, speed 0) on the last one; the lives never become negative,
    however many times it is called. *)
Theorem takeDamage_cases (s : GameState num) :
  (isImmortalityActive s = true -> takeDamage s = s)
  /\
  (isImmortalityActive s = false -> 1 < lives s ->
   takeDamage s = set_lives (lives s - 1) s /\
   lives (takeDamage s) = lives s - 1 /\
   status (takeDamage s) = status s)
  /\
  (isImmortalityActive s = false -> lives s = 1 ->
   lives (takeDamage s) = 0 /\ status (takeDamage s) = GAME_OVER /\
   speed (takeDamage s) = ofZ 0)
  /\
  (0 <= lives s -> forall n : nat, 0 <= lives (Nat.iter n takeDamage s)).
Proof.
  unfold takeDamage. split; [|split; [|split]].
  - now intros ->.
  - intros -> Hl. apply Z.ltb_lt in Hl. now rewrite Hl.
  - now intros -> ->.
  - intros Hpos n. induction n; simpl; [assumption|].
    now apply takeDamage_lives_nonneg.
Qed.

End StoreProperties.

(** * Properties of the frame *)

Section FrameProperties.
Context {num : Type} `{Number num}.
Variable P : Platform num.
Variable inp : FrameInput num.

Lemma ObjectType_eqb_eq (a b : ObjectType) :
  ObjectType_eqb a b = true <-> a = b.
Proof. destruct a, b; simpl; split; intros E; congruence. Qed.

Lemma ObjectType_eqb_refl (a : ObjectType) : ObjectType_eqb a a = true.
Proof. now apply ObjectType_eqb_eq. Qed.

Lemma evolves_refl (o : GameObject num) : evolves o o.
Proof. now constructor. Qed.

Lemma evolves_trans (a b c : GameObject num) :
  evolves a b -> evolves b c -> evolves a c.
Proof.
  intros [] []. constructor; try congruence; auto.
Qed.

Lemma same_core_refl (o : GameObject num) : same_core o o.
Proof. now constructor. Qed.

Lemma same_core_trans (a b c : GameObject num) :
  same_core a b -> same_core b c -> same_core a c.
Proof. intros [] []. constructor; congruence. Qed.

Lemma same_core_evolves (o o' : GameObject num) :
  same_core o o' -> evolves o o'.
Proof.
  intros []. constructor; try congruence.
  intros Hs h Hh Hle. rewrite sc_active0. apply (Hs h); congruence.
Qed.

Lemma moveObject_core (o : GameObject num) : same_core o (moveObject inp o).
Proof.
  unfold moveObject. destruct (position o) as [[x y] z].
  destruct (type o) eqn:E; try (constructor; simpl; auto; fail).
  destruct (velocity o) as [[[v0 v1] v2]|] eqn:V; constructor; simpl; auto.
Qed.

Lemma ai_ok_same (obj : GameObject num) (fr : Frame num) :
  ai_ok inp obj fr (obj, fr).
Proof.
  constructor; simpl; auto using same_core_refl.
  exists []. now rewrite app_nil_r.
Qed.

Lemma dodgerAI_ok (obj : GameObject num) (fr : Frame num) :
  ai_ok inp obj fr (dodgerAI P inp obj fr).
Proof.
  unfold dodgerAI.
  destruct (_ && _); [|apply ai_ok_same].
  destruct (strafeOffset obj); simpl.
  all: constructor; simpl; auto; try (now constructor).
  all: exists []; now rewrite app_nil_r.
Qed.

Lemma shooterAI_ok (obj : GameObject num) (fr : Frame num) :
  ai_ok inp obj fr (shooterAI P inp obj fr).
Proof.
  unfold shooterAI.
  destruct (_ && _); [|apply ai_ok_same].
  destruct (lastShotTime obj); simpl.
  all: destruct (nltb _ _); constructor; simpl; auto; try (now constructor).
  all: try (exists []; now rewrite app_nil_r).
  all: eexists [_]; split; [reflexivity|].
  all: constructor; [|constructor].
  all: split; [reflexivity | left; split; reflexivity].
Qed.

Lemma flyerAI_ok (obj : GameObject num) (fr : Frame num) :
  ai_ok inp obj fr (flyerAI P inp obj fr).
Proof.
  unfold flyerAI.
  destruct (_ && _); [|apply ai_ok_same].
  destruct (nltb _ _); [|apply ai_ok_same].
  constructor; simpl; auto; try (now constructor).
  eexists [_]; split; [reflexivity|].
  constructor; [|constructor].
  split; [reflexivity | right; split; reflexivity].
Qed.


(** *** The listener of the hit event *)

(** The listener touches the state of the store, its own refs and the
    log of effects, and nothing else of the frame. *)
Lemma dispatchPlayerHit_rest (fr : Frame num) :
  heap (dispatchPlayerHit inp fr) = heap fr /\
  keptObjects (dispatchPlayerHit inp fr) = keptObjects fr /\
  newSpawns (dispatchPlayerHit inp fr) = newSpawns fr /\
  hasChanges (dispatchPlayerHit inp fr) = hasChanges fr /\
  randoms (dispatchPlayerHit inp fr) = randoms fr /\
  uuids (dispatchPlayerHit inp fr) = uuids fr.
Proof.
  unfold dispatchPlayerHit, checkHit. cbn [listener emit].
  destruct (_ || _); repeat split; reflexivity.
Qed.

Lemma dispatchPlayerHit_kept (fr : Frame num) :
  keptObjects (dispatchPlayerHit inp fr) = keptObjects fr.
Proof. apply dispatchPlayerHit_rest. Qed.

(** *** The bullet-vs-target loop *)

Lemma damage_evolves (t : GameObject num) : evolves t (damage inp t).
Proof.
  unfold damage. destruct (_ <=? _)%Z eqn:E; constructor; simpl; auto.
  - intros _ h [= <-] _. reflexivity.
  - intros _ h [= <-] Hle. apply Z.leb_gt in E. lia.
Qed.

Lemma damage_spent_inactive (t : GameObject num) :
  spent_inactive (damage inp t).
Proof.
  unfold damage. destruct (_ <=? _)%Z eqn:E; intros h; simpl; auto.
  intros [= <-] Hle. apply Z.leb_gt in E. lia.
Qed.

Lemma hitTarget_heap (j : nat) (fr : Frame num) :
  heap (hitTarget inp j fr) = alter (damage inp) j (heap fr).
Proof.
  unfold hitTarget. destruct (heap fr !! j) as [target|] eqn:E.
  - apply list_eq. intros k. destruct (decide (j = k)) as [<-|Hne].
    + rewrite list_lookup_alter_eq, E. simpl. unfold damage.
      destruct (_ <=? _)%Z; simpl.
      * unfold deactivate. simpl.
        now rewrite !list_lookup_alter_eq, E.
      * now rewrite list_lookup_alter_eq, E.
    + rewrite list_lookup_alter_ne by assumption.
      destruct (_ <=? _)%Z; simpl;
        now rewrite ?list_lookup_alter_ne by assumption.
  - apply list_eq. intros k. destruct (decide (j = k)) as [<-|Hne].
    + now rewrite list_lookup_alter_eq, E.
    + now rewrite list_lookup_alter_ne by assumption.
Qed.

Lemma hitTarget_rest (j : nat) (fr : Frame num) :
  keptObjects (hitTarget inp j fr) = keptObjects fr /\
  newSpawns (hitTarget inp j fr) = newSpawns fr /\
  hasChanges (hitTarget inp j fr) = hasChanges fr.
Proof.
  unfold hitTarget. destruct (heap fr !! j); [|auto].
  destruct (_ <=? _)%Z; simpl; auto.
Qed.

Lemma hitTarget_store (j : nat) (fr : Frame num) (target : GameObject num) :
  heap fr !! j = Some target ->
  store (hitTarget inp j fr) =
    if (healthAfterHit inp target <=? 0)%Z then collectGem 50 (store fr)
    else store fr.
Proof.
  intros E. unfold hitTarget. rewrite E.
  destruct (_ <=? _)%Z; reflexivity.
Qed.

Lemma bulletScan_spec (i : nat) (targets : list nat) (fr : Frame num) :
  bulletScan inp i targets fr = (false, fr) \/
  exists pre j post obj target,
    targets = pre ++ j :: post /\
    heap fr !! i = Some obj /\ heap fr !! j = Some target /\
    active target = true /\ overlaps obj target = true /\
    (forall k t, In k pre -> heap fr !! k = Some t ->
                 active t && overlaps obj t = false) /\
    bulletScan inp i targets fr
      = (true, hitTarget inp j (changed (deactivate i fr))).
Proof.
  induction targets as [|j rest IH]; simpl; [now left|].
  destruct (heap fr !! i) as [obj|] eqn:Ei.
  - destruct (heap fr !! j) as [target|] eqn:Ej.
    + destruct (active target) eqn:Ea; simpl.
      * destruct (overlaps obj target) eqn:Eo.
        -- right. exists [], j, rest, obj, target. simpl.
           repeat split; auto. intros k t [].
        -- destruct IH as [IH | (pre & j' & post & obj' & t' & -> & Ho & IH)];
             [now left|].
           right. exists (j :: pre), j', post, obj', t'.
           destruct IH as (Hj' & Ha & Hov & Hpre & Hscan).
           assert (obj' = obj) as -> by congruence.
           repeat split; auto.
           intros k t [<- | Hin] Hk; [|eauto].
           assert (t = target) as -> by congruence.
           now rewrite Eo, andb_false_r.
      * destruct IH as [IH | (pre & j' & post & obj' & t' & -> & Ho & IH)];
          [now left|].
        right. exists (j :: pre), j', post, obj', t'.
        destruct IH as (Hj' & Ha & Hov & Hpre & Hscan).
        repeat split; auto.
        intros k t [<- | Hin] Hk; [|eauto].
        assert (t = target) as -> by congruence.
        now rewrite Ea.
    + destruct IH as [IH | (pre & j' & post & obj' & t' & -> & Ho & IH)];
        [now left|].
      right. exists (j :: pre), j', post, obj', t'.
      destruct IH as (Hj' & Ha & Hov & Hpre & Hscan).
      repeat split; auto.
      intros k t [<- | Hin] Hk; [congruence | eauto].
  - left. clear IH. induction rest as [|j' rest IH]; simpl; [reflexivity|].
    now rewrite Ei.
Qed.

(** C3. A bullet run against the targets either hits none of them, and then
    nothing changes, or hits exactly the first target of the list (the
    targets are listed in the order of the store) that is active and
    overlaps it: the bullet is deactivated, that one target takes the damage
    and no other object of the store is touched. *)
Theorem bullet_hits_first_match_only (i : nat) (targets : list nat)
  (fr : Frame num) (obj : GameObject num) :
  let r := bulletScan inp i targets fr in
  (fst r = false -> snd r = fr)
  /\
  (fst r = true -> first_match inp i targets fr (snd r))
  /\
  (type obj = BULLET -> fst r = true ->
   resolve inp targets i obj fr = (false, snd r)).
Proof.
  cbv zeta. split; [|split].
  - destruct (bulletScan_spec i targets fr)
      as [-> | (pre & j & post & o & t & _ & _ & _ & _ & _ & _ & ->)];
      simpl; [reflexivity | discriminate].
  - destruct (bulletScan_spec i targets fr)
      as [-> | (pre & j & post & o & t & Ht & Hi & Hj & Ha & Ho & Hpre & ->)];
      simpl; [discriminate | intros _].
    exists pre, j, post, o, t.
    rewrite hitTarget_heap. simpl.
    repeat split; auto.
    + intros k Hki Hkj. now rewrite !list_lookup_alter_ne by auto.
    + destruct (decide (j = i)) as [->|Hne].
      * rewrite !list_lookup_alter_eq, Hi. simpl.
        eexists. split; [reflexivity|].
        unfold damage. now destruct (_ <=? _)%Z.
      * rewrite list_lookup_alter_ne, list_lookup_alter_eq, Hi by assumption.
        simpl. eexists. split; reflexivity.
  - intros Ht Hhit. unfold resolve. rewrite Ht. simpl.
    destruct (bulletScan inp i targets fr) as [hit fr']. simpl in *.
    subst hit. now destruct (nltb _ _).
Qed.

(** C9. The hit that brings a target's health to zero or below runs the
    gem-collection action with 50 points: the score grows by 50 and the gem
    counter by one, as for a gem picked up; a hit the target survives leaves
    the progress state alone. *)
Theorem destruction_counts_as_gem (j : nat) (fr : Frame num)
  (target : GameObject num) :
  heap fr !! j = Some target ->
  ((healthAfterHit inp target <= 0)%Z ->
   store (hitTarget inp j fr) = collectGem 50 (store fr) /\
   score (store (hitTarget inp j fr)) = (score (store fr) + 50)%Z /\
   gemsCollected (store (hitTarget inp j fr))
     = (gemsCollected (store fr) + 1)%Z)
  /\
  ((0 < healthAfterHit inp target)%Z ->
   store (hitTarget inp j fr) = store fr).
Proof.
  intros E. rewrite (hitTarget_store j fr target E). split; intros Hh.
  - apply Z.leb_le in Hh. rewrite Hh. now simpl.
  - apply Z.leb_gt in Hh. now rewrite Hh.
Qed.


(** *** One iteration of the loop *)

Section Advances.
Variable targets : list nat.
Variable i : nat.

Lemma advances_refl (fr : Frame num) : advances inp targets i fr fr.
Proof.
  constructor; auto.
  - apply Forall_Forall2_diag, Forall_forall. intros; apply evolves_refl.
  - exists []. now rewrite app_nil_r.
Qed.

Lemma advances_trans (a b c : Frame num) :
  advances inp targets i a b -> advances inp targets i b c ->
  advances inp targets i a c.
Proof.
  intros [Hh Ho Hc (e1 & Hs1 & He1)] [Hh' Ho' Hc' (e2 & Hs2 & He2)].
  constructor; auto.
  - eapply Forall2_trans; [|exact Hh|exact Hh'].
    intros x y z. apply evolves_trans.
  - intros j Hj Hn. now rewrite Ho', Ho.
  - exists (e1 ++ e2). rewrite Hs2, Hs1, app_assoc. split; [reflexivity|].
    apply Forall_app. now split.
Qed.

Lemma adv_same_heap (fr fr' fr'' : Frame num) :
  heap fr'' = heap fr' -> newSpawns fr'' = newSpawns fr' ->
  (hasChanges fr' = true -> hasChanges fr'' = true) ->
  advances inp targets i fr fr' -> advances inp targets i fr fr''.
Proof.
  intros Hh Hs Hc [? ? ? ?]. constructor; rewrite ?Hh, ?Hs; auto.
Qed.

Lemma adv_emit e (fr fr' : Frame num) :
  advances inp targets i fr fr' -> advances inp targets i fr (emit e fr').
Proof. now apply adv_same_heap. Qed.

Lemma adv_changed (fr fr' : Frame num) :
  advances inp targets i fr fr' -> advances inp targets i fr (changed fr').
Proof. now apply adv_same_heap. Qed.

Lemma adv_set_store st (fr fr' : Frame num) :
  advances inp targets i fr fr' ->
  advances inp targets i fr (set_store st fr').
Proof. now apply adv_same_heap. Qed.

Lemma adv_set_randoms n (fr fr' : Frame num) :
  advances inp targets i fr fr' ->
  advances inp targets i fr (set_randoms n fr').
Proof. now apply adv_same_heap. Qed.

Lemma adv_alter f j (fr fr' : Frame num) :
  (forall x, evolves x (f x)) -> j = i \/ In j targets ->
  advances inp targets i fr fr' ->
  advances inp targets i fr (set_heap (alter f j (heap fr')) fr').
Proof.
  intros Hf Hj [Hh Ho Hc Hs]. constructor; simpl; auto.
  - apply Forall2_alter_r; [assumption|].
    intros x y _ _ Hxy. eapply evolves_trans; [exact Hxy | apply Hf].
  - intros k Hk Hn. rewrite list_lookup_alter_ne; [now apply Ho|].
    intros ->. destruct Hj; [congruence | contradiction].
Qed.

Lemma adv_deactivate (fr fr' : Frame num) :
  advances inp targets i fr fr' ->
  advances inp targets i fr (deactivate i fr').
Proof.
  apply adv_alter; [|now left].
  intros x. constructor; simpl; auto. intros _ h _ _. reflexivity.
Qed.

Lemma adv_hitTarget j (fr fr' : Frame num) :
  In j targets -> advances inp targets i fr fr' ->
  advances inp targets i fr (hitTarget inp j fr').
Proof.
  intros Hj Hadv.
  pose proof (adv_alter (damage inp) j fr fr' (damage_evolves) (or_intror Hj)
                Hadv) as [Hh Ho Hc Hs].
  destruct (hitTarget_rest j fr') as (_ & Hsp & Hch).
  constructor; rewrite ?hitTarget_heap, ?Hsp, ?Hch; auto.
Qed.

Lemma adv_write (o o' : GameObject num) (fr fr' : Frame num) :
  heap fr' !! i = Some o -> evolves o o' ->
  advances inp targets i fr fr' ->
  advances inp targets i fr (set_heap (<[i := o']> (heap fr')) fr').
Proof.
  intros Hi Hev [Hh Ho Hc Hs]. constructor; simpl; auto.
  - eapply Forall2_trans; [|exact Hh|].
    + intros x y z. apply evolves_trans.
    + rewrite <- (list_insert_id (heap fr') i o Hi) at 1.
      apply Forall2_insert; [|exact Hev].
      apply Forall_Forall2_diag, Forall_forall. intros; apply evolves_refl.
  - intros k Hk Hn. rewrite list_lookup_insert_ne by auto. now apply Ho.
Qed.

Lemma adv_dispatch (fr fr' : Frame num) :
  advances inp targets i fr fr' ->
  advances inp targets i fr (dispatchPlayerHit inp fr').
Proof.
  destruct (dispatchPlayerHit_rest fr') as (Hh & _ & Hs & Hc & _).
  apply adv_same_heap; [exact Hh | exact Hs | now rewrite Hc].
Qed.

Ltac adv :=
  repeat first
    [ apply advances_refl | apply adv_emit | apply adv_changed
    | apply adv_set_store | apply adv_set_randoms | apply adv_deactivate
    | apply adv_dispatch ].

Lemma playerCollision_spec (obj : GameObject num) (fr : Frame num) :
  let r := playerCollision inp i obj fr in
  advances inp targets i fr (snd r) /\
  keptObjects (snd r) = keptObjects fr /\
  (type obj = SHOP_PORTAL -> heap fr !! i = Some obj -> active obj = true ->
   forall o', heap (snd r) !! i = Some o' -> active o' = false ->
   fst r = false /\ hasChanges (snd r) = true).
Proof.
  cbv zeta. unfold playerCollision.
  destruct (playerPos inp) as [[px py] pz].
  destruct (ObjectType_eqb (type obj) SHOP_PORTAL) eqn:Et.
  - destruct (nltb _ _); simpl; (split; [adv | split; [reflexivity|]]).
    + intros _ _ _ o' _ _. now split.
    + intros _ Hi Ha o' Hi' Ha'. congruence.
  - assert (Hne : type obj <> SHOP_PORTAL).
    { intros E. rewrite E in Et. discriminate. }
    repeat case_match; simpl; rewrite ?dispatchPlayerHit_kept;
      (split; [adv | split; [reflexivity|]]);
      intros E; contradiction.
Qed.

Lemma resolve_spec (obj : GameObject num) (fr : Frame num) :
  let r := resolve inp targets i obj fr in
  advances inp targets i fr (snd r) /\
  keptObjects (snd r) = keptObjects fr /\
  (dropped_on_deactivation (type obj) = true ->
   heap fr !! i = Some obj -> active obj = true ->
   forall o', heap (snd r) !! i = Some o' -> active o' = false ->
   fst r = false /\ hasChanges (snd r) = true).
Proof.
  cbv zeta. unfold resolve.
  destruct (ObjectType_eqb (type obj) GEM) eqn:Eg.
  - apply ObjectType_eqb_eq in Eg. rewrite Eg. simpl.
    destruct (nltb _ _); simpl.
    + split; [adv | split; [reflexivity | discriminate]].
    + pose proof (playerCollision_spec obj fr) as (Ha & Hk & _).
      split; [exact Ha | split; [exact Hk | discriminate]].
  - destruct (ObjectType_eqb (type obj) BULLET) eqn:Eb; simpl.
    + destruct (bulletScan_spec i targets fr)
        as [-> | (pre & j & post & o & t & Ht & Hi & Hj & _ & _ & _ & ->)].
      * assert (Hsame : forall k : bool,
                   advances inp targets i fr fr /\
                   keptObjects fr = keptObjects fr /\
                   (dropped_on_deactivation (type obj) = true ->
                    heap fr !! i = Some obj -> active obj = true ->
                    forall o', heap fr !! i = Some o' -> active o' = false ->
                    k = false /\ hasChanges fr = true)).
        { intros k. split; [adv | split; [reflexivity|]].
          intros _ Hi Ha o' Hi' Ha'. congruence. }
        destruct (nltb _ _); simpl; apply Hsame.
      * assert (Hin : In j targets)
          by (rewrite Ht; apply in_or_app; right; now left).
        destruct (hitTarget_rest j (changed (deactivate i fr)))
          as (Hk & _ & Hc).
        destruct (nltb _ _); simpl;
          (split; [apply adv_hitTarget; [exact Hin | adv]
                  | split; [exact Hk | intros; split; [reflexivity | exact Hc]]]).
    + pose proof (playerCollision_spec obj fr) as (Ha & Hk & Hd).
      split; [exact Ha | split; [exact Hk|]].
      intros Hdrop. apply Hd.
      destruct (type obj); simpl in *; congruence.
Qed.

Lemma adv_ai (obj : GameObject num) (fr0 fr : Frame num)
  (r : GameObject num * Frame num) :
  ai_ok inp obj fr r -> advances inp targets i fr0 fr ->
  advances inp targets i fr0 (snd r).
Proof.
  intros [_ Hh _ _ Hc (e & Hs & He)] Hadv.
  eapply advances_trans; [exact Hadv|].
  constructor; rewrite ?Hh; auto.
  - apply Forall_Forall2_diag, Forall_forall. intros; apply evolves_refl.
  - now exists e.
Qed.

Lemma stepObject_spec (fr : Frame num) :
  let fr' := stepObject P inp targets fr i in
  advances inp targets i fr fr' /\
  (keptObjects fr' = keptObjects fr \/
   keptObjects fr' = keptObjects fr ++ [i]) /\
  drops_unless i fr fr'
    (hasChanges fr' = true /\ keptObjects fr' = keptObjects fr).
Proof.
  cbv zeta. unfold stepObject, drops_unless.
  destruct (heap fr !! i) as [o|] eqn:Ei;
    [|split; [adv | split; [now left | intros; discriminate]]].
  pose proof (moveObject_core o) as C1.
  pose proof (dodgerAI_ok (moveObject inp o) fr) as A2.
  destruct (dodgerAI P inp (moveObject inp o) fr) as [obj2 fr2].
  pose proof (shooterAI_ok obj2 fr2) as A3.
  destruct (shooterAI P inp obj2 fr2) as [obj3 fr3].
  pose proof (flyerAI_ok obj3 fr3) as A4.
  destruct (flyerAI P inp obj3 fr3) as [obj4 fr4].
  assert (Hadv : advances inp targets i fr fr4).
  { apply (adv_ai _ _ _ _ A4), (adv_ai _ _ _ _ A3), (adv_ai _ _ _ _ A2).
    apply advances_refl. }
  destruct A2 as [C2 H2 K2 _ _ _], A3 as [C3 H3 K3 _ _ _],
    A4 as [C4 H4 K4 _ _ _]. simpl in *.
  assert (Hcore : same_core o obj4).
  { eapply same_core_trans; [exact C1|].
    eapply same_core_trans; [exact C2|].
    eapply same_core_trans; [exact C3 | exact C4]. }
  assert (Hheap : heap fr4 = heap fr) by congruence.
  assert (Hkept : keptObjects fr4 = keptObjects fr) by congruence.
  simpl in *.
  set (frw := set_heap (<[i:=obj4]> (heap fr4)) fr4).
  assert (Hadvw : advances inp targets i fr frw).
  { apply (adv_write o); [now rewrite Hheap | | exact Hadv].
    now apply same_core_evolves. }
  assert (Hiw : heap frw !! i = Some obj4).
  { simpl. apply list_lookup_insert_eq. rewrite Hheap.
    now apply lookup_lt_Some in Ei. }
  assert (Hres : exists keep fr5,
             (if active obj4 then resolve inp targets i obj4 frw
              else (true, frw)) = (keep, fr5) /\
             advances inp targets i fr fr5 /\
             keptObjects fr5 = keptObjects fr /\
             (dropped_on_deactivation (type o) = true -> active o = true ->
              forall o', heap fr5 !! i = Some o' -> active o' = false ->
              keep = false /\ hasChanges fr5 = true)).
  { destruct (active obj4) eqn:Ea.
    - pose proof (resolve_spec obj4 frw) as (Ha & Hk & Hd).
      destruct (resolve inp targets i obj4 frw) as [keep fr5].
      exists keep, fr5. simpl in *.
      split; [reflexivity|].
      split; [eapply advances_trans; eassumption|].
      split; [now rewrite Hk|].
      intros Hdrop _. apply Hd; auto.
      now rewrite (sc_type _ _ Hcore).
    - exists true, frw. split; [reflexivity|].
      split; [exact Hadvw | split; [exact Hkept|]].
      intros _ Ha. rewrite (sc_active _ _ Hcore) in Ea. congruence. }
  destruct Hres as (keep & fr5 & -> & Hadv5 & Hk5 & Hd5).
  destruct (negb _ && _); simpl.
  - split; [now apply adv_changed | split; [now left|]].
    intros o0 o' [= <-] Hi' Hdrop Ha Ha'. now split.
  - destruct keep; simpl.
    + split; [now apply adv_same_heap with fr5 | split; [right; now rewrite Hk5|]].
      intros o0 o' [= <-] Hi' Hdrop Ha Ha'.
      destruct (Hd5 Hdrop Ha o' Hi' Ha'). discriminate.
    + split; [exact Hadv5 | split; [now left|]].
      intros o0 o' [= <-] Hi' Hdrop Ha Ha'.
      now destruct (Hd5 Hdrop Ha o' Hi' Ha').
Qed.

End Advances.


(** *** The spawning logic *)

Section Directs.
Variable z : num.

Lemma directs_refl (d : Director num) : directs inp z d d.
Proof. constructor; auto. exists []. now rewrite app_nil_r. Qed.

Lemma directs_trans (a b c : Director num) :
  directs inp z a b -> directs inp z b c -> directs inp z a c.
Proof.
  intros [(e1 & H1 & F1) C1] [(e2 & H2 & F2) C2]. constructor; auto.
  exists (e1 ++ e2). rewrite H2, H1, app_assoc. split; [reflexivity|].
  apply Forall_app. now split.
Qed.

Lemma dir_same_pushed (d d' d'' : Director num) :
  pushed d'' = pushed d' ->
  (d_hasChanges d' = true -> d_hasChanges d'' = true) ->
  directs inp z d d' -> directs inp z d d''.
Proof. intros Hp Hc [? ?]. constructor; rewrite ?Hp; auto. Qed.

Lemma dir_random (d d' : Director num) :
  directs inp z d d' -> directs inp z d (snd (d_random P d')).
Proof. now apply dir_same_pushed. Qed.

Lemma dir_skip n (d d' : Director num) :
  directs inp z d d' -> directs inp z d (d_skip n d').
Proof. now apply dir_same_pushed. Qed.

Lemma dir_changed (d d' : Director num) :
  directs inp z d d' -> directs inp z d (d_changed d').
Proof. now apply dir_same_pushed. Qed.

Lemma dir_letterSpawned (d d' : Director num) :
  directs inp z d d' -> directs inp z d (d_letterSpawned P inp d').
Proof. now apply dir_same_pushed. Qed.

Lemma dir_push (mk : string -> GameObject num) (d d' : Director num) :
  (forall i, spawned_at inp z (mk i)) ->
  directs inp z d d' -> directs inp z d (push P mk d').
Proof.
  intros Hmk Hd. eapply directs_trans; [exact Hd|].
  constructor; auto. eexists [_]. split; [reflexivity|].
  constructor; [apply Hmk | constructor].
Qed.

Ltac dir :=
  repeat first
    [ apply directs_refl | apply dir_changed | apply dir_letterSpawned
    | apply dir_skip | apply dir_random
    | apply dir_push; [intros; repeat split; simpl; auto|] ].

Lemma spawnLetter_directs (d : Director num) :
  directs inp z d (spawnLetter P inp z d).
Proof.
  unfold spawnLetter. cbv beta iota zeta delta [d_random].
  match goal with |- context [List.filter ?f ?l] =>
    destruct (List.filter f l) end; dir.
Qed.

Lemma spawnAliens_directs (lanes : list Z) (n k : nat) (d0 d : Director num) :
  directs inp z d0 d -> directs inp z d0 (spawnAliens P inp lanes z n k d).
Proof.
  revert k d. induction n as [|n IH]; intros k d Hd; [assumption|].
  cbn [spawnAliens]. apply IH. dir; assumption.
Qed.

Lemma spawnHazards_directs (lanes : list Z) (n k : nat) (d0 d : Director num) :
  directs inp z d0 d -> directs inp z d0 (spawnHazards P inp lanes z n k d).
Proof.
  revert k d. induction n as [|n IH]; intros k d Hd; [assumption|].
  cbn [spawnHazards]. cbv beta iota zeta delta [d_random].
  destruct (_ && _); [|destruct (_ && _)]; cbv beta iota zeta.
  all: apply IH; destruct (nltb _ _); dir; assumption.
Qed.

Lemma spawnObstacleOrGem_directs (d : Director num) :
  directs inp z d (spawnObstacleOrGem P inp z d).
Proof.
  unfold spawnObstacleOrGem. cbv beta iota zeta delta [d_random].
  destruct (nltb _ _); [|dir].
  unfold shuffledLanes.
  destruct (2 <=? _)%Z; cbv beta iota zeta delta [d_random];
    [destruct (nltb _ _)|].
  all: destruct (sortRandom P _ _) as [lanes calls];
    cbv beta iota zeta delta [d_random].
  - apply spawnAliens_directs. dir.
  - apply spawnHazards_directs. dir.
  - apply spawnHazards_directs. dir.
Qed.

End Directs.

Lemma spawnDirector_spec (kept : list (GameObject num)) (traveled : num)
  (d : Director num) :
  let furthest := furthestZ kept in
  let z := spawnZ inp furthest in
  let d' := spawnDirector P inp kept traveled d in
  (nltb z furthest = true /\ nltb (nopp SPAWN_DISTANCE) furthest = true /\
   directs inp z d d')
  \/ d' = d.
Proof.
  cbv zeta. unfold spawnDirector.
  destruct (nltb (nopp SPAWN_DISTANCE) (furthestZ kept)); [|now right].
  destruct (nltb (spawnZ inp (furthestZ kept)) (furthestZ kept)); [|now right].
  left. split; [reflexivity | split; [reflexivity|]].
  destruct (nleb _ _); [apply spawnLetter_directs|].
  simpl. destruct (nltb _ _).
  - apply dir_changed, (directs_trans _ _ (snd (d_random P d))).
    + apply dir_random, directs_refl.
    + apply spawnObstacleOrGem_directs.
  - apply dir_random, directs_refl.
Qed.


(** C4. Whatever the spawning logic creates in a frame is placed at
    [spawnZ], and [spawnZ] lies strictly behind [furthestZ] (further from the
    player); in a frame where [spawnZ] is not strictly behind [furthestZ]
    the spawning logic does nothing at all. *)
Theorem spawn_never_ahead_of_furthest (kept : list (GameObject num))
  (traveled : num) (d : Director num) :
  let furthest := furthestZ kept in
  let z := spawnZ inp furthest in
  let d' := spawnDirector P inp kept traveled d in
  (forall o, In o (pushed d') ->
     In o (pushed d) \/ (posZ o = z /\ nltb z furthest = true))
  /\
  (nltb z furthest = false -> d' = d).
Proof.
  cbv zeta.
  destruct (spawnDirector_spec kept traveled d)
    as [(Hz & _ & [(extra & -> & Hex) _]) | ->].
  - split; [|congruence].
    intros o [Hin | Hin]%in_app_or; [now left | right].
    rewrite Forall_forall in Hex. apply list_elem_of_In in Hin.
    destruct (Hex o Hin) as (_ & Hp & _). now split.
  - split; [now left | reflexivity].
Qed.

(** *** The loop over the store *)

Lemma combine_seq_lookup (l : list (GameObject num)) (s j : nat)
  (o : GameObject num) :
  In (j, o) (combine (seq s (length l)) l) -> s <= j /\ l !! (j - s) = Some o.
Proof.
  revert s. induction l as [|x l IH]; intros s; simpl; [intros []|].
  intros [[= <- <-] | Hin].
  - split; [lia|]. now rewrite Nat.sub_diag.
  - destruct (IH (S s) Hin) as (Hle & Hl). split; [lia|].
    replace (j - s) with (S (j - S s)) by lia. exact Hl.
Qed.

Lemma indices_where_lookup (p : GameObject num -> bool)
  (l : list (GameObject num)) (j : nat) :
  In j (indices_where p l) -> exists o, l !! j = Some o /\ p o = true.
Proof.
  unfold indices_where. intros ([j' o] & <- & Hin)%in_map_iff.
  apply filter_In in Hin. destruct Hin as (Hin & Hp). simpl in *.
  apply combine_seq_lookup in Hin. rewrite Nat.sub_0_r in Hin.
  exists o. now split.
Qed.

(** The indices are listed in the order of the store. *)
Lemma indices_where_ordered (p : GameObject num -> bool)
  (l : list (GameObject num)) :
  sublist (indices_where p l) (seq 0 (length l)).
Proof.
  unfold indices_where. generalize 0 as s.
  induction l as [|x l IH]; intros s; simpl; [constructor|].
  destruct (p x); simpl.
  - apply sublist_skip, IH.
  - apply sublist_cons, IH.
Qed.

Lemma targets_are_typed (heap0 : list (GameObject num)) :
  targets_typed heap0 (indices_where isTarget heap0).
Proof.
  intros j (o & Hj & Hp)%indices_where_lookup. exists o. split; [exact Hj|].
  unfold isTarget in Hp. now destruct (type o).
Qed.

Lemma stepObject_inv (heap0 : list (GameObject num)) (targets : list nat)
  (k : nat) (fr : Frame num) :
  loop_inv inp heap0 k fr ->
  loop_inv inp heap0 (S k) (stepObject P inp targets fr k).
Proof.
  intros [Hh Hk Hs].
  destruct (stepObject_spec targets k fr) as ([Ah Ao Ac (e & As & Ae)] & Hkept & _).
  constructor.
  - eapply Forall2_trans; [|exact Hh|exact Ah].
    intros x y z. apply evolves_trans.
  - destruct Hkept as [-> | ->].
    + eapply Forall_impl; [exact Hk|]. simpl. lia.
    + apply Forall_app. split.
      * eapply Forall_impl; [exact Hk|]. simpl. lia.
      * repeat constructor.
  - rewrite As. apply Forall_app. now split.
Qed.

Lemma stepObject_tidy (heap0 : list (GameObject num)) (targets : list nat)
  (k : nat) (fr : Frame num) :
  targets_typed heap0 targets ->
  loop_inv inp heap0 k fr -> loop_tidy k fr ->
  loop_tidy (S k) (stepObject P inp targets fr k).
Proof.
  intros Ht [Hh Hk Hs] Htidy j o' Hj' Hdrop Hina.
  destruct (stepObject_spec targets k fr) as ([Ah Ao Ac _] & Hkept & Hd).
  destruct (Forall2_lookup_r _ _ _ _ _ Ah Hj') as (o & Hj & Hev).
  destruct (decide (j = k)) as [->|Hne].
  - rewrite (ev_type _ _ Hev) in Hdrop.
    assert (Ha : active o = true).
    { destruct (active o) eqn:Ea; [reflexivity|].
      destruct (Htidy k o Hj Hdrop Ea). lia. }
    destruct (Hd o o' Hj Hj' Hdrop Ha Hina) as (Hc & Hsame).
    split; [lia | split; [exact Hc|]].
    rewrite Hsame. intros Hin. rewrite Forall_forall in Hk.
    apply list_elem_of_In in Hin. specialize (Hk k Hin). lia.
  - assert (Hnt : ~ In j targets).
    { intros Hin. destruct (Ht j Hin) as (o0 & Hj0 & Hds).
      destruct (Forall2_lookup_l _ _ _ _ _ Hh Hj0) as (o1 & Hj1 & Hev1).
      assert (o1 = o) as -> by congruence.
      rewrite (ev_type _ _ Hev), (ev_type _ _ Hev1) in Hdrop.
      destruct (type o0); discriminate. }
    rewrite (Ao j Hne Hnt) in Hj'.
    destruct (Htidy j o' Hj' Hdrop Hina) as (Hlt & Hc & Hnk).
    split; [lia | split; [auto|]].
    destruct Hkept as [-> | ->]; [exact Hnk|].
    intros [Hin | [-> | []]]%in_app_or; [contradiction | congruence].
Qed.

Lemma loop_fold (heap0 : list (GameObject num)) (targets : list nat)
  (m k : nat) (fr : Frame num) :
  loop_inv inp heap0 k fr ->
  let fr' := fold_left (stepObject P inp targets) (seq k m) fr in
  loop_inv inp heap0 (k + m) fr' /\
  (targets_typed heap0 targets -> loop_tidy k fr -> loop_tidy (k + m) fr').
Proof.
  revert k fr. induction m as [|m IH]; intros k fr Hinv; simpl.
  - rewrite Nat.add_0_r. now split.
  - replace (k + S m) with (S k + m) by lia.
    destruct (IH (S k) (stepObject P inp targets fr k)
                (stepObject_inv heap0 targets k fr Hinv)) as (Hi & Ht).
    split; [exact Hi|].
    intros Htyped Htidy. apply Ht; [exact Htyped|].
    now apply stepObject_tidy with heap0.
Qed.

Lemma updateObjects_inv (l : list (GameObject num)) st rnd uid :
  let fr :=
    updateObjects P inp
      (mkFrame l [] [] st [] false rnd uid (hitListener inp)) in
  loop_inv inp l (length l) fr /\
  (Forall tidy l -> loop_tidy (length l) fr).
Proof.
  cbv zeta. unfold updateObjects. simpl.
  destruct (loop_fold l (indices_where isTarget l) (length l) 0
              (mkFrame l [] [] st [] false rnd uid (hitListener inp)))
    as (Hi & Ht).
  - constructor; simpl; auto.
    apply Forall_Forall2_diag, Forall_forall. intros; apply evolves_refl.
  - split; [exact Hi|]. intros Htidy. apply Ht.
    + apply targets_are_typed.
    + intros j o Hj Hdrop Hina. simpl in Hj.
      rewrite Forall_lookup in Htidy.
      specialize (Htidy j o Hj Hdrop). congruence.
Qed.


(** *** The frame as a whole *)

Lemma useFrame_playing (m : Manager num) st rnd uid :
  status (props inp) = PLAYING ->
  let fr :=
    updateObjects P inp
      (mkFrame (objects m) [] [] (updateTime (safeDelta inp) st) [] false
         rnd uid (hitListener inp)) in
  let d :=
    spawnDirector P inp (keptAfterLoop fr) (nadd (distanceTraveled m) (dist inp))
      (mkDirector [] (hasChanges fr) (nextLetterDistance m) (randoms fr)
         (uuids fr)) in
  objects (manager (useFrame P inp m st rnd uid))
    = if d_hasChanges d then keptAfterLoop fr ++ pushed d else heap fr.
Proof. intros E. unfold useFrame. rewrite E. reflexivity. Qed.

Lemma useFrame_not_playing (m : Manager num) st rnd uid :
  status (props inp) <> PLAYING ->
  useFrame P inp m st rnd uid = mkOutcome m st [] rnd uid (hitListener inp).
Proof. intros E. unfold useFrame. now destruct (status (props inp)). Qed.

Lemma status_playing_dec (s : GameStatus) : {s = PLAYING} + {s <> PLAYING}.
Proof. destruct s; (now left) || (now right). Qed.

(** What the spawning logic has pushed when it started from nothing. *)
Lemma director_pushed (kept : list (GameObject num)) (traveled : num)
  (c : bool) (nld : num) (r u : nat) :
  let d := spawnDirector P inp kept traveled (mkDirector [] c nld r u) in
  (exists z, Forall (spawned_at inp z) (pushed d)) /\
  (c = true -> d_hasChanges d = true).
Proof.
  cbv zeta.
  destruct (spawnDirector_spec kept traveled (mkDirector [] c nld r u))
    as [(_ & _ & [(extra & -> & Hex) Hc]) | ->]; simpl in *.
  - split; [eexists; exact Hex | exact Hc].
  - split; [exists (ofZ 0); constructor | auto].
Qed.

(** Every object of the store a frame leaves is an object of the store it
    started from, evolved, or an object that the AI or the spawning logic
    has created in this frame. *)
Lemma useFrame_provenance (m : Manager num) st rnd uid
  (o' : GameObject num) :
  In o' (objects (manager (useFrame P inp m st rnd uid))) ->
  (exists j o, objects m !! j = Some o /\ evolves o o') \/
  fresh inp o' \/
  (exists z, spawned_at inp z o').
Proof.
  destruct (status_playing_dec (status (props inp))) as [E|E].
  - rewrite (useFrame_playing m st rnd uid E).
    destruct (updateObjects_inv (objects m) (updateTime (safeDelta inp) st)
                rnd uid) as ([Hh _ Hs] & _).
    set (fr := updateObjects P inp _) in *.
    destruct (director_pushed (keptAfterLoop fr)
                (nadd (distanceTraveled m) (dist inp)) (hasChanges fr)
                (nextLetterDistance m) (randoms fr) (uuids fr))
      as ((z & Hz) & _).
    assert (Hheap : forall j, heap fr !! j = Some o' ->
              exists j o, objects m !! j = Some o /\ evolves o o').
    { intros j Hj. destruct (Forall2_lookup_r _ _ _ _ _ Hh Hj) as (o & ? & ?).
      now exists j, o. }
    destruct (d_hasChanges _).
    + unfold keptAfterLoop.
      intros [[Hin | Hin]%in_app_or | Hin]%in_app_or.
      * apply list_elem_of_In, list_elem_of_omap in Hin.
        destruct Hin as (j & _ & Hj). left. eauto.
      * right; left. rewrite Forall_forall in Hs.
        now apply Hs, list_elem_of_In.
      * right; right. exists z. rewrite Forall_forall in Hz.
        now apply Hz, list_elem_of_In.
    + intros Hin. apply list_elem_of_In, list_elem_of_lookup in Hin.
      destruct Hin as (j & Hj). left. eauto.
  - rewrite (useFrame_not_playing m st rnd uid E). simpl.
    intros Hin. apply list_elem_of_In, list_elem_of_lookup in Hin.
    destruct Hin as (j & Hj). left. exists j, o'. split; [exact Hj|].
    apply evolves_refl.
Qed.

Lemma ai_idle_on_gem (obj : GameObject num) (fr : Frame num) :
  type obj = GEM ->
  dodgerAI P inp obj fr = (obj, fr) /\ shooterAI P inp obj fr = (obj, fr) /\
  flyerAI P inp obj fr = (obj, fr).
Proof.
  intros Ht. unfold dodgerAI, shooterAI, flyerAI. now rewrite Ht.
Qed.

Lemma stepObject_magnet (targets : list nat) (i : nat) (fr : Frame num)
  (o : GameObject num) :
  heap fr !! i = Some o -> type o = GEM -> active o = true ->
  nltb (distanceToSquared (playerPos inp) (position (moveObject inp o)))
       (ofZ 25) = true ->
  let fr' := stepObject P inp targets fr i in
  keptObjects fr' = keptObjects fr /\ hasChanges fr' = true /\
  exists o', heap fr' !! i = Some o' /\ active o' = false.
Proof.
  intros Hi Ht Ha Hnear. cbv zeta. unfold stepObject. rewrite Hi.
  destruct (moveObject_core o) as [Ht1 Ha1 _ _].
  rewrite Ht in Ht1. rewrite Ha in Ha1.
  set (obj := moveObject inp o) in *. clearbody obj.
  destruct (ai_idle_on_gem obj fr Ht1) as (-> & -> & ->).
  rewrite Ha1. unfold resolve. rewrite Ht1, Hnear.
  cbn [ObjectType_eqb andb negb].
  assert (Hlook : exists o', alter (set_active false) i (<[i:=obj]> (heap fr)) !! i
                             = Some o' /\ active o' = false).
  { rewrite list_lookup_alter_eq, list_lookup_insert_eq
      by (now apply lookup_lt_Some in Hi).
    simpl. eexists. split; reflexivity. }
  destruct (nltb REMOVE_DISTANCE (posZ obj)); simpl; auto.
Qed.

(** The other writer of the store, the shoot listener, adds an active
    bullet. *)
Lemma handlePlayerShoot_tidy (status : GameStatus) (at_ : Vec3 num)
  (angle : num) (uid : nat) (m : Manager num) :
  Forall tidy (objects m) ->
  Forall tidy (objects (handlePlayerShoot P status at_ angle uid m)).
Proof.
  intros Htidy. unfold handlePlayerShoot.
  destruct status; try assumption.
  destruct at_ as [[x y] z]. simpl. apply Forall_app. split; [assumption|].
  repeat constructor.
Qed.

(** C1 (as amended). No bullet and no shop portal with [active = false]
    survives into the store the next frame uses, when none is in the store
    the frame starts from: the paths that deactivate them drop them in the
    same frame; and a gem that the magnet collects is deactivated, left out
    of the kept objects and marks the store as changed in the same
    iteration. *)
Theorem inactive_bullets_and_portals_leave (m : Manager num) st rnd uid :
  (Forall tidy (objects m) ->
   Forall tidy (objects (manager (useFrame P inp m st rnd uid))))
  /\
  (forall targets i fr o,
     heap fr !! i = Some o -> type o = GEM -> active o = true ->
     nltb (distanceToSquared (playerPos inp) (position (moveObject inp o)))
          (ofZ 25) = true ->
     let fr' := stepObject P inp targets fr i in
     keptObjects fr' = keptObjects fr /\ hasChanges fr' = true /\
     exists o', heap fr' !! i = Some o' /\ active o' = false).
Proof.
  split; [|intros targets i fr o; apply stepObject_magnet].
  intros Htidy.
  destruct (status_playing_dec (status (props inp))) as [E|E];
    [|now rewrite (useFrame_not_playing m st rnd uid E)].
  rewrite (useFrame_playing m st rnd uid E).
  destruct (updateObjects_inv (objects m) (updateTime (safeDelta inp) st)
              rnd uid) as ([Hh _ Hs] & Ht).
  specialize (Ht Htidy).
  set (fr := updateObjects P inp _) in *.
  destruct (director_pushed (keptAfterLoop fr)
              (nadd (distanceTraveled m) (dist inp)) (hasChanges fr)
              (nextLetterDistance m) (randoms fr) (uuids fr))
    as ((z & Hz) & Hc).
  destruct (d_hasChanges _) eqn:Ed.
  - apply Forall_app. split; [apply Forall_app; split|].
    + apply Forall_forall. intros o' Hin.
      apply list_elem_of_omap in Hin. destruct Hin as (j & Hjk & Hj).
      intros Hdrop. destruct (active o') eqn:Ea; [reflexivity|].
      destruct (Ht j o' Hj Hdrop Ea) as (_ & _ & Hn).
      now apply list_elem_of_In in Hjk.
    + eapply Forall_impl; [exact Hs|]. now intros o' (Ha & _) _.
    + eapply Forall_impl; [exact Hz|]. now intros o' (Ha & _) _.
  - apply Forall_lookup. intros j o' Hj Hdrop.
    destruct (active o') eqn:Ea; [reflexivity|].
    destruct (Ht j o' Hj Hdrop Ea) as (_ & Hch & _).
    specialize (Hc Hch). congruence.
Qed.

(** C2. The damage logic never leaves a target with health at or below zero
    active: it clears [active] in the step that takes the health away; and
    no frame leaves in the store an active object whose health has run out,
    when it found none. *)
Theorem spent_health_means_inactive (m : Manager num) st rnd uid :
  (forall j fr t, heap (hitTarget inp j fr) !! j = Some t ->
                  spent_inactive t)
  /\
  ((1 <= level (props inp))%Z ->
   Forall spent_inactive (objects m) ->
   Forall spent_inactive (objects (manager (useFrame P inp m st rnd uid)))).
Proof.
  split.
  - intros j fr t. rewrite hitTarget_heap, list_lookup_alter_eq.
    destruct (heap fr !! j); simpl; [|discriminate].
    intros [= <-]. apply damage_spent_inactive.
  - intros Hlvl Hall. apply Forall_forall. intros o' Hin.
    apply list_elem_of_In, useFrame_provenance in Hin.
    destruct Hin as [(j & o & Hj & Hev) | [Hf | (z & Hz)]].
    + apply (ev_health _ _ Hev). rewrite Forall_lookup in Hall. eauto.
    + destruct Hf as (_ & [(_ & Hh) | (_ & Hh)]); intros h; rewrite Hh;
        [discriminate|]. intros [= <-]. lia.
    + destruct Hz as (_ & _ & _ & _ & Hh). intros h Eh. rewrite Eh in Hh.
      simpl in Hh. lia.
Qed.


(** *** Enemy fire *)


End FrameProperties.

(** * Properties in exact arithmetic *)

Section ExactArithmetic.
Local Open Scope R_scope.
Variable P : Platform R.
Variable inp : FrameInput R.

Lemma sum_squares_zero (a b c : R) :
  a * a + b * b + c * c = 0 -> a = 0 /\ b = 0 /\ c = 0.
Proof.
  intros Hs.
  assert (0 <= a * a) by nra. assert (0 <= b * b) by nra.
  assert (0 <= c * c) by nra.
  repeat split; nra.
Qed.

(** In exact arithmetic, with a speed that is not negative, [spawnZ] always
    lies strictly behind a [furthestZ] that is within the horizon. *)
Lemma spawnZ_behind_furthest_exact (furthest : R) :
  0 <= speed (props inp) -> - 120 < furthest ->
  spawnZ inp furthest < furthest.
Proof.
  intros Hs Hf. unfold spawnZ, minGap, SPAWN_DISTANCE. cbn.
  change (IZR (10 ^ Z.of_nat 1)) with 10.
  apply Rmax_lub_lt; nra.
Qed.

End ExactArithmetic.

(** * The theorems at work on the scenarios *)

Section Witnesses.
Import Scenario.

(** C1, counterexample: all four objects are active when the frame starts;
    the bullet destroys hazard A and the player picks the letter up; both
    are deactivated in this frame and both are still in the store the next
    frame will use. *)
Lemma deactivated_objects_stay_in_store :
  List.map active (objects crowded) = [true; true; true; true] /\
  List.map (fun o => (id o, active o))
    (objects (manager (useFrame (platform 0) input crowded playing 0 0)))
  = [("A", false); ("B", true); ("letter", false)]%string.
Proof. split; vm_compute; reflexivity. Qed.

Lemma inactive_bullets_and_portals_leave_witness :
  Forall tidy (objects crowded) /\
  Forall tidy
    (objects (manager (useFrame (platform 0) input crowded playing 0 0))).
Proof.
  assert (Hstart : Forall tidy (objects crowded)).
  { repeat constructor; intros _; reflexivity. }
  split; [exact Hstart|].
  exact (proj1 (inactive_bullets_and_portals_leave (platform 0) input crowded
                  playing 0 0) Hstart).
Defined.

Lemma spent_health_means_inactive_witness :
  Forall spent_inactive
    (objects (manager (useFrame (platform 0) input crowded playing 0 0))).
Proof.
  apply (proj2 (spent_health_means_inactive (platform 0) input crowded
                  playing 0 0)).
  - vm_compute. discriminate.
  - repeat constructor; intros h [= <-]; vm_compute; intros E; now elim E.
Defined.

Lemma bullet_hits_first_match_only_witness :
  first_match input 0 [1; 2] frame (snd (bulletScan input 0 [1; 2] frame)).
Proof.
  apply (proj1 (proj2 (bullet_hits_first_match_only input 0 [1; 2] frame
                         (object "bullet" BULLET (0, 1, -5)%float)))).
  vm_compute. reflexivity.
Defined.

Lemma destruction_counts_as_gem_witness :
  gemsCollected (store (hitTarget input 1 frame)) = 1%Z /\
  score (store (hitTarget input 1 frame)) = 50%Z.
Proof.
  destruct (destruction_counts_as_gem input 1 frame
              (hazard "A" 1 (0, 0.6, -5.5)%float) eq_refl) as [Hdead _].
  destruct Hdead as (_ & Hscore & Hgems); [vm_compute; discriminate|].
  split; [exact Hgems | exact Hscore].
Defined.

Lemma spawn_never_ahead_of_furthest_witness :
  let kept := keptAfterLoop (updateObjects (platform 0.5) input frame) in
  let d := spawnDirector (platform 0.5) input kept 0%float
             (mkDirector [] true 150%float 0 0) in
  List.map type (pushed d) = [BARREL] /\
  Forall (fun o => posZ o = spawnZ input (furthestZ kept) /\
                   nltb (spawnZ input (furthestZ kept)) (furthestZ kept) = true)
    (pushed d).
Proof.
  cbv zeta. split; [vm_compute; reflexivity|].
  apply Forall_forall. intros o Hin. apply list_elem_of_In in Hin.
  destruct (proj1 (spawn_never_ahead_of_furthest (platform 0.5) input
                     (keptAfterLoop (updateObjects (platform 0.5) input frame))
                     0%float (mkDirector [] true 150%float 0 0)) o Hin)
    as [[] | Hz].
  exact Hz.
Defined.

Lemma collectLetter_idempotent_witness :
  collectLetter 2 five_letters = five_letters.
Proof.
  apply (collectLetter_idempotent 2 five_letters). simpl. auto.
Defined.

Lemma collectLetter_completion_witness :
  level (collectLetter 5 five_letters) = 2%Z /\
  collectedLetters (collectLetter 5 five_letters) = [] /\
  status (collectLetter 5 five_letters) = PLAYING /\
  score (collectLetter 5 five_letters) = 0%Z.
Proof.
  apply (proj1 (collectLetter_completion 5 five_letters));
    [reflexivity | reflexivity | unfold MAX_LEVEL; simpl; lia].
Defined.

Lemma buyItem_all_or_nothing_witness :
  fst (buyItem HEAVY_AMMO 6000 rich) = true /\
  score (snd (buyItem HEAVY_AMMO 6000 rich)) = 1000%Z /\
  buyItem MAX_LIFE 12000 rich = (false, rich).
Proof.
  destruct (buyItem_all_or_nothing HEAVY_AMMO 6000 rich) as [Hbuy _].
  destruct (buyItem_all_or_nothing MAX_LIFE 12000 rich) as [_ Hnot].
  destruct Hbuy as (Htrue & Hscore & _); [simpl; lia|].
  split; [exact Htrue | split; [exact Hscore | apply Hnot; simpl; lia]].
Defined.

Lemma takeDamage_cases_witness :
  (0 <= lives (Nat.iter 5 takeDamage playing))%Z /\
  lives (takeDamage playing) = 2%Z.
Proof.
  destruct (takeDamage_cases playing) as (_ & Hone & _ & Hall).
  split.
  - apply Hall. simpl. lia.
  - destruct Hone as (_ & Hl & _); [reflexivity | simpl; lia | exact Hl].
Defined.

End Witnesses.

(** * Properties of the store as its callers drive it *)

Section SessionProperties.
Import Session.
Context {num : Type} `{Number num}.
Local Open Scope Z_scope.

Lemma initial_sound : sound (@initial num _).
Proof.
  constructor; simpl; try lia; auto. constructor.
Qed.

Lemma perform_sound (a : Action num) (s : GameState num) :
  sound s -> sound (perform a s).
Proof.
  intros Hs. pose proof (initial_sound) as Hi.
  destruct Hs as [Hl Hm Hv Hd Hn Hh Ha Hnd].
  destruct a; simpl.
  - constructor; simpl; try lia; auto. constructor.
  - constructor; simpl; try lia; auto. constructor.
  - unfold takeDamage. rewrite Ha.
    destruct (1 <? lives s) eqn:E; [apply Z.ltb_lt in E|];
      constructor; simpl; auto; lia.
  - constructor; simpl; auto.
  - constructor; simpl; auto.
  - pose proof (collectLetter_NoDup index s Hnd) as Hnd'.
    revert Hnd'. unfold collectLetter.
    destruct (includes (collectedLetters s) index); simpl;
      [intros _; now constructor|].
    destruct (_ =? _)%nat; [destruct (level s <? MAX_LEVEL)|]; simpl;
      intros Hnd'; constructor; simpl; auto; try lia.
    simpl in Hn. destruct Hn as [<- | [<- | [<- | [<- | []]]]]; simpl; auto.
  - constructor; simpl; auto.
  - constructor; simpl; auto.
  - constructor; simpl; auto.
  - unfold buyItem. destruct (cost <=? score s); simpl; [|now constructor].
    destruct item; constructor; simpl; auto; lia.
  - constructor; simpl; auto; try lia.
    + simpl in Hn. destruct Hn as [<- | [<- | [<- | [<- | []]]]]; simpl; auto.
    + constructor.
  - constructor; simpl; auto.
  - constructor; simpl; auto.
  - unfold activateImmortality. rewrite Hh. simpl. now constructor.
  - constructor; simpl; auto.
  - unfold triggerSlowMotion. destruct (negb _); constructor; simpl; auto.
  - constructor; simpl; auto.
Qed.

Lemma run_sound (actions : list (Action num)) (s : GameState num) :
  sound s -> sound (run actions s).
Proof.
  revert s. induction actions as [|a actions IH]; intros s Hs; simpl; auto.
  apply IH, perform_sound, Hs.
Qed.

(** X2.  In every state the store can reach from its initial state, by any
    sequence of its actions and timers, the lives are between 0 and
    [maxLives], and [maxLives] is at least 3: [takeDamage] stops at 0, the
    repair kit stops at [maxLives], and the hull upgrade raises both. *)
Theorem lives_within_max_lives (actions : list (Action num)) :
  let s := run actions initial in
  0 <= lives s <= maxLives s /\ 3 <= maxLives s.
Proof.
  destruct (run_sound actions _ initial_sound) as [Hl Hm _ _ _ _ _ _].
  split; assumption.
Qed.

(** X3.  In every reachable state the number of lanes is 3, 5, 7 or 9: it
    starts at 3, [advanceLevel] adds two lanes up to the cap of 9, and
    nothing else but a new game writes it.  The count stays odd, so the
    lanes [-floor(n/2) .. floor(n/2)] are exactly [n] lanes around the
    centre. *)
Theorem lane_count_is_odd_up_to_nine (actions : list (Action num)) :
  let n := laneCount (run actions initial) in
  In n [3; 5; 7; 9] /\ 2 * (n / 2) + 1 = n.
Proof.
  destruct (run_sound actions _ initial_sound) as [_ _ _ _ Hn _ _ _].
  split; [assumption|].
  simpl in Hn. destruct Hn as [<- | [<- | [<- | [<- | []]]]]; reflexivity.
Qed.

(** X4.  No action of the store ever sets [hasImmortality]: in every
    reachable state it is false and so is [isImmortalityActive], hence
    [activateImmortality] does nothing and [takeDamage] is never blocked:
    it always takes one life, down to 0. *)
Theorem immortality_is_never_active (actions : list (Action num)) :
  let s := run actions initial in
  hasImmortality s = false
  /\ isImmortalityActive s = false
  /\ activateImmortality s = s
  /\ lives (takeDamage s) = Z.max 0 (lives s - 1).
Proof.
  destruct (run_sound actions _ initial_sound) as [Hl _ _ _ _ Hh Ha _].
  split; [assumption|]. split; [assumption|]. split.
  - unfold activateImmortality. now rewrite Hh.
  - unfold takeDamage. rewrite Ha.
    destruct (1 <? lives _) eqn:E; simpl.
    + apply Z.ltb_lt in E. lia.
    + apply Z.ltb_ge in E. lia.
Qed.

Lemma perform_level (a : Action num) (s : GameState num) :
  called_by_components a = true ->
  1 <= level s <= MAX_LEVEL -> 1 <= level (perform a s) <= MAX_LEVEL.
Proof.
  intros Ha Hs. unfold MAX_LEVEL in *.
  destruct a; try discriminate Ha; simpl; try lia.
  - unfold takeDamage. repeat case_match; simpl; lia.
  - unfold collectLetter.
    destruct (includes _ _); simpl; [lia|].
    destruct (_ =? _)%nat; simpl; [|lia].
    unfold MAX_LEVEL. destruct (level s <? 50) eqn:E; simpl; [|lia].
    apply Z.ltb_lt in E. lia.
  - unfold buyItem. destruct (cost <=? score s); simpl; [|lia].
    destruct item; simpl; lia.
  - unfold activateImmortality. case_match; simpl; lia.
  - unfold triggerSlowMotion. case_match; simpl; lia.
Qed.

(** X5.  As the components drive the store ([advanceLevel] being called by
    [collectLetter] only), the level stays between 1 and [MAX_LEVEL] = 50:
    a completed word advances the level only below 50. *)
Theorem level_never_exceeds_max_level (actions : list (Action num)) :
  forallb called_by_components actions = true ->
  1 <= level (run actions initial) <= MAX_LEVEL.
Proof.
  intros Hall.
  assert (Hgen : forall s, 1 <= level s <= MAX_LEVEL ->
            1 <= level (run actions s) <= MAX_LEVEL).
  { induction actions as [|a actions IH]; intros s Hs; simpl; [exact Hs|].
    simpl in Hall. apply andb_prop in Hall as [Ha Hall].
    apply IH; [exact Hall|]. now apply perform_level. }
  apply Hgen. unfold MAX_LEVEL. simpl. lia.
Qed.

Lemma perform_letters (a : Action num) (s : GameState num) :
  letter_of_the_word a = true ->
  List.NoDup (collectedLetters s) /\ incl (collectedLetters s) slots ->
  List.NoDup (collectedLetters (perform a s))
  /\ incl (collectedLetters (perform a s)) slots.
Proof.
  intros Ha [Hnd Hin].
  assert (Hnil : List.NoDup (@nil Z) /\ incl (@nil Z) slots).
  { split; [constructor | intros x []]. }
  destruct a; simpl; try (split; assumption); try exact Hnil.
  - unfold takeDamage. repeat case_match; simpl; split; assumption.
  - split; [now apply collectLetter_NoDup|].
    cbn [letter_of_the_word] in Ha. apply includes_In in Ha.
    unfold collectLetter.
    destruct (includes (collectedLetters s) index); simpl; [assumption|].
    assert (Hnew : incl (collectedLetters s ++ [index]) slots).
    { intros x Hx. apply in_app_or in Hx as [Hx | [<- | []]]; auto. }
    destruct (_ =? _)%nat; [|exact Hnew].
    destruct (level s <? MAX_LEVEL); simpl; [intros x [] | exact Hnew].
  - unfold buyItem. destruct (cost <=? score s); simpl; [|split; assumption].
    destruct item; simpl; split; assumption.
  - unfold activateImmortality. case_match; simpl; split; assumption.
  - unfold triggerSlowMotion. case_match; simpl; split; assumption.
Qed.

(** X6.  As long as the letters registered are letters of the word (indices
    0 to 5), the store never holds an index twice nor an index outside the
    word, so it holds at most six; and once it holds six (the word
    completed at the last level), registering any letter of the word
    leaves the whole state as it is: the victory bonus cannot be paid
    again. *)
Theorem letters_fill_the_word_once (actions : list (Action num)) :
  forallb letter_of_the_word actions = true ->
  let s := run actions initial in
  List.NoDup (collectedLetters s)
  /\ incl (collectedLetters s) slots
  /\ (length (collectedLetters s) <= length GEMINI_TARGET)%nat
  /\ (length (collectedLetters s) = length GEMINI_TARGET ->
      forall index, In index slots -> collectLetter index s = s).
Proof.
  intros Hall.
  assert (Hgen : forall s,
            List.NoDup (collectedLetters s) /\ incl (collectedLetters s) slots ->
            List.NoDup (collectedLetters (run actions s))
            /\ incl (collectedLetters (run actions s)) slots).
  { induction actions as [|a actions IH]; intros s Hs; simpl; [exact Hs|].
    simpl in Hall. apply andb_prop in Hall as [Ha Hall].
    apply IH; [exact Hall|]. now apply perform_letters. }
  destruct (Hgen initial) as [Hnd Hin].
  { split; [constructor | intros x []]. }
  cbv zeta. split; [exact Hnd|]. split; [exact Hin|].
  assert (Hlen : length slots = length GEMINI_TARGET) by reflexivity.
  split.
  - rewrite <- Hlen. now apply NoDup_incl_length.
  - intros Hsix index Hidx. apply collectLetter_registered.
    assert (Hall' : incl slots (collectedLetters (run actions initial))).
    { apply NoDup_length_incl; [exact Hnd | rewrite Hsix, Hlen; lia | exact Hin]. }
    apply Hall', Hidx.
Qed.

End SessionProperties.

(** * Properties of the timers of the store *)

Section TimerProperties.
Import Timers.
Context {num : Type} `{Number num}.
Local Open Scope Z_scope.

Lemma ring_slow (t : Timer) (s : GameState num) :
  isSlowMotion (ring t s)
  = match t with SlowMotionEnds => false | _ => isSlowMotion s end.
Proof. now destruct t. Qed.

Lemma elapse_slow (now : Z) (timers : list (Z * Timer)) (s : GameState num) :
  isSlowMotion (current (elapse now timers s)) = true ->
  (exists due, In (due, SlowMotionEnds) (pending (elapse now timers s)))
  \/ (isSlowMotion s = true
      /\ forall due, ~ In (due, SlowMotionEnds) timers).
Proof.
  revert s. induction timers as [|[due t] rest IH]; intros s; simpl.
  - intros Hs. right. split; [exact Hs | intros due []].
  - destruct (due <=? now).
    + intros Hs. destruct (IH _ Hs) as [Hin | [Hr Hno]]; [now left|].
      rewrite ring_slow in Hr. destruct t; [discriminate|].
      right. split; [exact Hr|]. intros d [E | Hin]; [discriminate E|].
      now apply (Hno d).
    + simpl. intros Hs. destruct (IH _ Hs) as [(d & Hin) | [Hr Hno]].
      * left. exists d. now right.
      * destruct t; [left; exists due; now left|].
        right. split; [exact Hr|]. intros d [E | Hin]; [discriminate E|].
        now apply (Hno d).
Qed.

Lemma elapse_due (t now : Z) (timers : list (Z * Timer)) (s : GameState num) :
  t <= now ->
  Forall (fun dt => fst dt <= t + 5000) timers ->
  Forall (fun dt => now < fst dt <= now + 5000)
    (pending (elapse now timers s)).
Proof.
  intros Ht. revert s.
  induction timers as [|[due tm] rest IH]; intros s Hall; simpl; [constructor|].
  inversion Hall; subst. simpl in *.
  destruct (due <=? now) eqn:E; [now apply IH|].
  apply Z.leb_gt in E. simpl. constructor; [simpl; lia | now apply IH].
Qed.

Lemma elapse_ticking (t now : Z) (w : Clocked num) :
  t <= now -> ticking t w ->
  ticking now (elapse now (pending w) (current w)).
Proof.
  intros Ht [Hslow Hdue]. constructor.
  - intros Hs. destruct (elapse_slow _ _ _ Hs) as [Hin | [Hr Hno]]; [exact Hin|].
    destruct (Hslow Hr) as (d & Hd). now destruct (Hno d).
  - apply (elapse_due t); [exact Ht|].
    eapply Forall_impl; [exact Hdue|]. simpl. intros; lia.
Qed.

Lemma perform_slow (a : Session.Action num) (s : GameState num) :
  isSlowMotion (Session.perform a s) = true ->
  isSlowMotion s = true \/ arms a s = Some SlowMotionEnds.
Proof.
  destruct a; simpl; auto; try discriminate.
  - unfold takeDamage. repeat case_match; simpl; auto.
  - unfold collectLetter. repeat case_match; simpl; auto.
  - unfold buyItem. repeat case_match; simpl; auto.
  - unfold activateImmortality. repeat case_match; simpl; auto.
  - unfold triggerSlowMotion. destruct (isSlowMotion s); simpl; auto.
Qed.

Lemma call_ticking (t now : Z) (a : Session.Action num) (w : Clocked num) :
  t <= now -> ticking t w -> ticking now (call now a w).
Proof.
  intros Ht Hw. destruct (elapse_ticking t now w Ht Hw) as [Hslow Hdue].
  unfold call. set (w1 := elapse now _ _) in *. constructor; simpl.
  - intros Hs. destruct (perform_slow _ _ Hs) as [Hold | Harm].
    + destruct (Hslow Hold) as (d & Hd). exists d. apply in_or_app. now left.
    + rewrite Harm. exists (now + 5000). apply in_or_app. right. now left.
  - apply Forall_app. split; [exact Hdue|].
    destruct (arms a _); repeat constructor; simpl; lia.
Qed.

Lemma calls_ticking (l : list (Z * Session.Action num)) (since : Z)
  (w : Clocked num) :
  in_time since l = true -> ticking since w ->
  ticking (last_call since l) (calls l w).
Proof.
  revert since w. induction l as [|[now a] rest IH]; intros since w Hin Hw.
  - exact Hw.
  - simpl in Hin. apply andb_prop in Hin as [Hle Hrest]. apply Z.leb_le in Hle.
    simpl. apply IH; [exact Hrest|]. now apply call_ticking with since.
Qed.

Lemma elapse_all (now : Z) (timers : list (Z * Timer)) (s : GameState num) :
  Forall (fun dt => fst dt <= now) timers ->
  pending (elapse now timers s) = []
  /\ (isSlowMotion s = false \/ (exists due, In (due, SlowMotionEnds) timers) ->
      isSlowMotion (current (elapse now timers s)) = false).
Proof.
  revert s. induction timers as [|[due t] rest IH]; intros s Hall; simpl.
  - split; [reflexivity|]. intros [Hs | (d & [])]. exact Hs.
  - inversion Hall; subst. simpl in *.
    replace (due <=? now) with true by (symmetry; now apply Z.leb_le).
    destruct (IH (ring t s) ltac:(assumption)) as (Hp & Hs).
    split; [exact Hp|]. intros Hc. apply Hs. rewrite ring_slow.
    destruct t; [now left|].
    destruct Hc as [Hc | (d & [E | Hin])];
      [now left | discriminate E | right; now exists d].
Qed.

(** X22.  Slow motion cannot get stuck.  Whatever actions are called on the
    store, in the order of their times, a timer that ends slow motion is
    pending whenever slow motion is on, and every pending timer is due
    within five seconds of the last call: five seconds after the last call
    slow motion is off and no timer is left. *)
Theorem slow_motion_ends_within_five_seconds
  (l : list (Z * Session.Action num)) (since : Z) :
  in_time since l = true ->
  let w := calls l created in
  let now := last_call since l in
  (isSlowMotion (current w) = true ->
   exists due, In (due, SlowMotionEnds) (pending w) /\ now < due <= now + 5000)
  /\ isSlowMotion (current (elapse (now + 5000) (pending w) (current w)))
     = false
  /\ pending (elapse (now + 5000) (pending w) (current w)) = [].
Proof.
  intros Hin. cbv zeta.
  assert (H0 : ticking since (@created num _)).
  { constructor; simpl; [discriminate | constructor]. }
  destruct (calls_ticking l since created Hin H0) as [Hslow Hdue].
  set (w := calls l created) in *. set (now := last_call since l) in *.
  split.
  - intros Hs. destruct (Hslow Hs) as (d & Hd). exists d. split; [exact Hd|].
    rewrite Forall_forall in Hdue. apply (Hdue (d, SlowMotionEnds)).
    now apply list_elem_of_In.
  - destruct (elapse_all (now + 5000) (pending w) (current w)) as (Hp & Hs).
    { eapply Forall_impl; [exact Hdue|]. simpl. intros; lia. }
    split; [|exact Hp]. apply Hs.
    destruct (isSlowMotion (current w)) eqn:E; [right | now left].
    now apply Hslow.
Qed.

(** X23.  Nothing cancels a timer: a new game clears the slow-motion flag
    and leaves the timer pending.  Slow motion triggered at [t0], a new game
    at [t1] and slow motion triggered again at [t2], all within five
    seconds, leave slow motion on at [t2]; the timer armed at [t0] turns it
    off at [t0 + 5000], before its own five seconds are over, and the timer
    armed at [t2] is still pending then. *)
Theorem stale_timer_cuts_slow_motion_short (w : Clocked num) (t0 t1 t2 : Z) :
  pending w = [] ->
  isSlowMotion (current w) = false ->
  t0 <= t1 <= t2 ->
  t0 < t2 < t0 + 5000 ->
  let w2 :=
    calls [(t0, Session.TriggerSlowMotion); (t1, Session.RestartGame);
           (t2, Session.TriggerSlowMotion)] w in
  let w3 := elapse (t0 + 5000) (pending w2) (current w2) in
  isSlowMotion (current w2) = true
  /\ pending w2 = [(t0 + 5000, SlowMotionEnds); (t2 + 5000, SlowMotionEnds)]
  /\ isSlowMotion (current w3) = false
  /\ pending w3 = [(t2 + 5000, SlowMotionEnds)].
Proof.
  intros Hp Hs H01 H02. cbv zeta. unfold calls, call. simpl.
  rewrite Hp. simpl. unfold triggerSlowMotion. rewrite Hs. simpl.
  replace (t0 + 5000 <=? t1) with false by (symmetry; apply Z.leb_gt; lia).
  simpl.
  replace (t0 + 5000 <=? t2) with false by (symmetry; apply Z.leb_gt; lia).
  simpl.
  replace (t0 + 5000 <=? t0 + 5000) with true by (symmetry; apply Z.leb_le; lia).
  replace (t2 + 5000 <=? t0 + 5000) with false by (symmetry; apply Z.leb_gt; lia).
  simpl. repeat split.
Qed.

End TimerProperties.

(** * Properties of the shop screen *)

Section ShopProperties.
Import HUD.
Context {num : Type} `{Number num}.
Local Open Scope Z_scope.

Lemma SHOP_ITEMS_NoDup : List.NoDup SHOP_ITEMS.
Proof.
  unfold SHOP_ITEMS.
  repeat (constructor; [simpl; intuition discriminate|]). constructor.
Qed.

Lemma SHOP_ITEMS_cost (item : ShopItem) :
  In item SHOP_ITEMS -> 0 < cost item.
Proof.
  unfold SHOP_ITEMS. simpl.
  intros [<- | [<- | [<- | [<- | []]]]]; simpl; lia.
Qed.

Lemma pool_spec (owned : bool) :
  List.NoDup (pool owned)
  /\ incl (pool owned) SHOP_ITEMS
  /\ (3 <= length (pool owned))%nat
  /\ (owned = true ->
      Forall (fun item => is_spread_shot item = false) (pool owned)).
Proof.
  split; [apply List.NoDup_filter, SHOP_ITEMS_NoDup|].
  split; [apply incl_filter|].
  destruct owned; simpl.
  - split; [lia|]. intros _. repeat constructor.
  - split; [lia|]. discriminate.
Qed.

Lemma offers_spec (shuffle : list ShopItem -> list ShopItem)
  (s : GameState num) :
  Permutation (pool (hasSpreadShot s)) (shuffle (pool (hasSpreadShot s))) ->
  length (offers shuffle s) = 3%nat
  /\ List.NoDup (offers shuffle s)
  /\ incl (offers shuffle s) SHOP_ITEMS
  /\ (hasSpreadShot s = true ->
      Forall (fun item => is_spread_shot item = false) (offers shuffle s)).
Proof.
  intros Hperm. unfold offers.
  destruct (pool_spec (hasSpreadShot s)) as (Hnd & Hin & Hlen & Hown).
  set (l := shuffle _) in *.
  assert (Hsub : incl (take 3 l) l).
  { intros x Hx. apply list_elem_of_In. apply list_elem_of_In in Hx.
    apply elem_of_take in Hx as (i & Hi & _).
    eapply list_elem_of_lookup_2, Hi. }
  split; [|split; [|split]].
  - rewrite length_take_le; [reflexivity|].
    rewrite <- (Permutation_length Hperm). exact Hlen.
  - apply NoDup_ListNoDup. eapply sublist_NoDup; [|apply sublist_take].
    apply NoDup_ListNoDup. eapply Permutation_NoDup; eassumption.
  - intros x Hx. apply Hin.
    eapply Permutation_in; [symmetry; exact Hperm|]. apply Hsub, Hx.
  - intros Ho. apply Forall_take.
    eapply Permutation_Forall; [exact Hperm|]. apply Hown, Ho.
Qed.

(** X7.  Whenever the shuffle returns the pool reordered, the shop offers
    exactly three different items of the catalogue, and never the triple
    cannon once it is owned. *)
Theorem shop_offers_three_distinct_items
  (shuffle : list ShopItem -> list ShopItem) (s : GameState num) :
  Permutation (pool (hasSpreadShot s)) (shuffle (pool (hasSpreadShot s))) ->
  let items := offers shuffle s in
  length items = 3%nat
  /\ List.NoDup items
  /\ incl items SHOP_ITEMS
  /\ (hasSpreadShot s = true ->
      Forall (fun item => is_spread_shot item = false) items).
Proof.
  intros Hperm. cbv zeta. now apply offers_spec.
Qed.

(** X8.  The purchase button checks the price only.  A repair kit bought at
    full lives, and a triple cannon bought when one is owned (the offers are
    drawn when the screen mounts, so it can be bought twice in one visit),
    take the price off the score and change nothing else. *)
Theorem purchase_can_buy_nothing (item : ShopItem) (s : GameState num) :
  In item SHOP_ITEMS ->
  canAfford s item = true ->
  (item_id item = HEAL /\ lives s = maxLives s)
  \/ (item_id item = SPREAD_SHOT /\ hasSpreadShot s = true) ->
  clickBuy item s = set_score (score s - cost item) s
  /\ score (clickBuy item s) < score s.
Proof.
  intros Hin Hafford Hcase. unfold clickBuy. rewrite Hafford.
  unfold canAfford in Hafford. unfold buyItem. rewrite Hafford.
  pose proof (SHOP_ITEMS_cost item Hin) as Hcost.
  destruct Hcase as [[-> Hfull] | [-> Hown]]; simpl.
  - rewrite Hfull, Z.min_r by lia. split; [|lia].
    unfold set_lives, set_score. simpl. now rewrite <- Hfull.
  - split; [|lia].
    unfold set_hasSpreadShot, set_score. simpl. now rewrite Hown.
Qed.

Lemma upgraded_refl (s : GameState num) :
  0 <= score s -> lives s <= maxLives s -> upgraded s s.
Proof. intros Hs Hl. constructor; auto; lia. Qed.

Lemma upgraded_trans (s1 s2 s3 : GameState num) :
  upgraded s1 s2 -> upgraded s2 s3 -> upgraded s1 s3.
Proof.
  intros [] []. constructor; auto; try lia; congruence.
Qed.

Lemma clickBuy_upgraded (item : ShopItem) (s : GameState num) :
  In item SHOP_ITEMS -> 0 <= score s -> lives s <= maxLives s ->
  upgraded s (clickBuy item s).
Proof.
  intros Hin Hs Hl. pose proof (SHOP_ITEMS_cost item Hin) as Hcost.
  unfold clickBuy, canAfford.
  destruct (cost item <=? score s) eqn:E; [|now apply upgraded_refl].
  unfold buyItem. rewrite E. apply Z.leb_le in E.
  destruct (item_id item); constructor; simpl; auto; lia.
Qed.

(** X9.  A visit to the shop, whatever is clicked and however often, spends
    score without ever making it negative, never lowers the lives, the
    maximum of lives or the damage per shot, keeps the lives within their
    maximum, never takes the triple cannon away, leaves level, letters,
    lanes and speed alone, and ends in [PLAYING]. *)
Theorem shop_visit_only_upgrades
  (shuffle : list ShopItem -> list ShopItem) (clicks : list nat)
  (s : GameState num) :
  Permutation (pool (hasSpreadShot s)) (shuffle (pool (hasSpreadShot s))) ->
  0 <= score s ->
  lives s <= maxLives s ->
  upgraded s (visit shuffle clicks s)
  /\ status (visit shuffle clicks s) = PLAYING.
Proof.
  intros Hperm Hs Hl. unfold visit.
  destruct (offers_spec shuffle s Hperm) as (_ & _ & Hin & _).
  set (items := offers shuffle s) in *. clearbody items.
  assert (Hgen : forall s0, upgraded s s0 ->
            upgraded s
              (fold_left
                 (fun s n => match items !! n with
                             | Some item => clickBuy item s
                             | None => s
                             end) clicks s0)).
  { induction clicks as [|n clicks IH]; intros s0 Hu; simpl; [auto|].
    apply IH.
    destruct (items !! n) as [item|] eqn:E; [|exact Hu].
    eapply upgraded_trans; [exact Hu|].
    destruct Hu.
    apply clickBuy_upgraded; [|lia|lia].
    apply Hin, list_elem_of_In. eapply list_elem_of_lookup_2, E. }
  split; [|reflexivity].
  destruct (Hgen s (upgraded_refl s Hs Hl)). constructor; auto.
Qed.

End ShopProperties.

(** * Properties of the player *)

Section PlayerProperties.
Context {num : Type} `{Number num}.
Local Open Scope Z_scope.

Lemma steer_on_track (n : Z) (p : Player.PlayerState num) :
  0 <= n -> Player.on_track n p ->
  Player.on_track n (Player.steerLeft n p)
  /\ Player.on_track n (Player.steerRight n p).
Proof.
  unfold Player.on_track, Player.steerLeft, Player.steerRight, Player.maxLane.
  simpl. intros Hn Hp. split; lia.
Qed.

Lemma takeDamage_laneCount (s : GameState num) :
  laneCount (takeDamage s) = laneCount s.
Proof. unfold takeDamage. repeat case_match; reflexivity. Qed.

Lemma triggerSlowMotion_laneCount (s : GameState num) :
  laneCount (triggerSlowMotion s) = laneCount s.
Proof. unfold triggerSlowMotion. case_match; reflexivity. Qed.

Lemma useFrame_lane (t dt : num) (now : Z) (p : Player.PlayerState num)
  (s : GameState num) :
  Player.lane (fst (Player.useFrame t dt now p s)) = Player.lane p.
Proof.
  unfold Player.useFrame.
  destruct (status s); simpl; try reflexivity;
    repeat (case_match; simpl; try reflexivity).
Qed.

Lemma handle_on_track (e : Player.Event num) (p : Player.PlayerState num)
  (s : GameState num) :
  0 <= laneCount s -> Player.on_track (laneCount s) p ->
  Player.on_track (laneCount s) (fst (fst (Player.handle e (p, s))))
  /\ laneCount (snd (fst (Player.handle e (p, s)))) = laneCount s.
Proof.
  intros Hn Hp. destruct (steer_on_track _ p Hn Hp) as [Hl Hr].
  destruct e as [key|key|button| |x y|x y|now|t dt now]; simpl.
  - unfold Player.handleKeyDown.
    destruct (status s); simpl; auto.
    repeat (case_match; simpl; auto using triggerSlowMotion_laneCount).
  - unfold Player.handleKeyUp. case_match; simpl; auto.
  - unfold Player.handleMouseDown. repeat case_match; simpl; auto.
  - auto.
  - auto.
  - unfold Player.handleTouchEnd.
    destruct (status s); simpl; auto.
    repeat (case_match; simpl; auto using triggerSlowMotion_laneCount).
  - unfold Player.checkHit. case_match; simpl; auto using takeDamage_laneCount.
  - pose proof (useFrame_lane t dt now p s) as Hlane.
    destruct (Player.useFrame t dt now p s) as [p' out]. simpl in *.
    unfold Player.on_track in *. rewrite Hlane. auto.
Qed.

Lemma play_on_track (events : list (Player.Event num))
  (p : Player.PlayerState num) (s : GameState num) :
  0 <= laneCount s -> Player.on_track (laneCount s) p ->
  Player.on_track (laneCount s) (fst (fst (Player.play events (p, s))))
  /\ laneCount (snd (fst (Player.play events (p, s)))) = laneCount s.
Proof.
  revert p s.
  induction events as [|e events IH]; intros p s Hn Hp; [simpl; auto|].
  cbn [Player.play].
  destruct (handle_on_track e p s Hn Hp) as [Hp1 Hn1].
  destruct (Player.handle e (p, s)) as [[p1 s1] out1]. cbn [fst snd] in *.
  specialize (IH p1 s1). rewrite Hn1 in IH. specialize (IH Hn Hp1).
  destruct (Player.play events (p1, s1)) as [[p2 s2] out2].
  cbn [fst snd] in *. exact IH.
Qed.

(** X10.  Steering never leaves the track: whatever keys, clicks, touches,
    hits and frames reach the player, the lane stays within
    [-floor(laneCount/2) .. floor(laneCount/2)] (three steps to the left on
    three lanes end in lane -1), and none of them changes the number of
    lanes.  When the number of lanes drops (a new game after 9 lanes), the
    clamp effect brings any lane back onto the track and leaves a lane that
    is on it alone. *)
Theorem lane_stays_on_the_track (events : list (Player.Event num))
  (p : Player.PlayerState num) (s : GameState num) :
  0 <= laneCount s ->
  (Player.on_track (laneCount s) p ->
   Player.on_track (laneCount s) (fst (fst (Player.play events (p, s))))
   /\ laneCount (snd (fst (Player.play events (p, s)))) = laneCount s)
  /\ Player.on_track (laneCount s) (Player.clampLane (laneCount s) p)
  /\ (Player.on_track (laneCount s) p ->
      Player.clampLane (laneCount s) p = p).
Proof.
  intros Hn. split; [now apply play_on_track|].
  unfold Player.on_track, Player.clampLane, Player.maxLane.
  assert (Hm : 0 <= laneCount s / 2) by (apply Z.div_pos; lia).
  split.
  - destruct (_ <? _) eqn:E; simpl.
    + apply Z.ltb_lt in E. lia.
    + apply Z.ltb_ge in E. exact E.
  - intros Hp. apply Z.ltb_ge in Hp. now rewrite Hp.
Qed.

Lemma handle_invincible (e : Player.Event num) (p : Player.PlayerState num)
  (s : GameState num) :
  Player.isInvincible p = true ->
  Player.in_window (Player.lastDamageTime p) e = true ->
  Player.isInvincible (fst (fst (Player.handle e (p, s)))) = true
  /\ Player.lastDamageTime (fst (fst (Player.handle e (p, s))))
     = Player.lastDamageTime p
  /\ lives (snd (fst (Player.handle e (p, s)))) = lives s.
Proof.
  intros Hinv Hwin.
  destruct e as [key|key|button| |x y|x y|now|t dt now]; simpl.
  - unfold Player.handleKeyDown, triggerSlowMotion.
    destruct (status s); simpl; auto.
    repeat (case_match; simpl; auto).
  - unfold Player.handleKeyUp. case_match; simpl; auto.
  - unfold Player.handleMouseDown. repeat case_match; simpl; auto.
  - auto.
  - auto.
  - unfold Player.handleTouchEnd, triggerSlowMotion.
    destruct (status s); simpl; auto.
    repeat (case_match; simpl; auto).
  - unfold Player.checkHit. rewrite Hinv. simpl. auto.
  - unfold Player.in_window in Hwin. simpl in Hwin.
    apply Z.leb_le in Hwin.
    assert (Hlate : (1500 <? now - Player.lastDamageTime p) = false)
      by (apply Z.ltb_ge; lia).
    unfold Player.useFrame.
    destruct (Player.groupPosition _) as [[x y] z] eqn:Eg.
    destruct (status s); simpl; auto;
      repeat (case_match; simpl in *; subst; auto; try congruence).
Qed.

Lemma play_invincible (events : list (Player.Event num))
  (p : Player.PlayerState num) (s : GameState num) :
  Player.isInvincible p = true ->
  forallb (Player.in_window (Player.lastDamageTime p)) events = true ->
  Player.isInvincible (fst (fst (Player.play events (p, s)))) = true
  /\ Player.lastDamageTime (fst (fst (Player.play events (p, s))))
     = Player.lastDamageTime p
  /\ lives (snd (fst (Player.play events (p, s)))) = lives s.
Proof.
  revert p s.
  induction events as [|e events IH]; intros p s Hinv Hall; [simpl; auto|].
  cbn [forallb] in Hall. apply andb_prop in Hall as [He Hall].
  cbn [Player.play].
  destruct (handle_invincible e p s Hinv He) as (Hi1 & Ht1 & Hl1).
  destruct (Player.handle e (p, s)) as [[p1 s1] out1]. cbn [fst snd] in *.
  specialize (IH p1 s1 Hi1). rewrite Ht1 in IH. specialize (IH Hall).
  destruct (Player.play events (p1, s1)) as [[p2 s2] out2].
  cbn [fst snd] in *. destruct IH as (? & ? & ?). repeat split; congruence.
Qed.

(** X11.  A hit that is taken costs one life (none below zero) and opens an
    invincibility window: whatever reaches the player within 1500 ms of
    it (more hits, frames, keys or touches), the lives stay as that one hit
    left them, so several hazards hitting in the same frame cost a single
    life.  The window is closed by the first frame later than 1500 ms
    that runs while the game is playing or in the shop. *)
Theorem one_life_per_invincibility_window
  (events : list (Player.Event num)) (now : Z)
  (p : Player.PlayerState num) (s : GameState num) :
  Player.isInvincible p = false ->
  isImmortalityActive s = false ->
  forallb (Player.in_window now) events = true ->
  let w1 := fst (Player.checkHit now p s) in
  let w2 := fst (Player.play events w1) in
  lives (snd w1) = Z.max 0 (lives s - 1)
  /\ lives (snd w2) = lives (snd w1)
  /\ Player.isInvincible (fst w2) = true
  /\ forall (t dt : num) (later : Z),
       1500 < later - now ->
       status (snd w2) = PLAYING \/ status (snd w2) = SHOP ->
       Player.isInvincible
         (fst (Player.useFrame t dt later (fst w2) (snd w2))) = false.
Proof.
  intros Hinv Himm Hall. cbv zeta.
  unfold Player.checkHit. rewrite Hinv, Himm. cbn [orb fst snd].
  set (p1 := Player.set_lastDamageTime now _).
  destruct (play_invincible events p1 (takeDamage s) eq_refl Hall)
    as (Hi & Ht & Hl).
  destruct (Player.play events (p1, takeDamage s)) as [[p2 s2] out2].
  cbn [fst snd] in *.
  split; [|split; [exact Hl | split; [exact Hi|]]].
  - unfold takeDamage. rewrite Himm.
    destruct (1 <? lives s) eqn:E; simpl.
    + apply Z.ltb_lt in E. lia.
    + apply Z.ltb_ge in E. lia.
  - intros t dt later Hlate Hst.
    assert (Hl8 : (1500 <? later - Player.lastDamageTime p2) = true).
    { apply Z.ltb_lt. rewrite Ht. simpl. lia. }
    unfold Player.useFrame.
    destruct (Player.groupPosition _) as [[x y] z] eqn:Eg.
    destruct Hst as [-> | ->]; simpl;
      repeat (case_match; simpl in *; subst; auto; try congruence);
      rewrite Hi in *; discriminate.
Qed.

(** X12.  A frame in which the held trigger is due (more than [FIRE_RATE]
    after the last shot) plays the shot sound and restarts the fire-rate
    clock; while the game is playing the level manager's listener turns it
    into one new bullet, or three with the triple cannon, each active and
    placed one unit ahead of the player and 1.2 above the group; in the
    shop the player's frame still runs and the shot still sounds, but no
    bullet is added. *)
Theorem held_trigger_fires_one_or_three_bullets
  (P : Platform num) (t dt : num) (now : Z) (uid : nat)
  (p : Player.PlayerState num) (s : GameState num) (m : Manager num) :
  Player.isFiring p = true ->
  (t >? Player.lastFireTime p + Player.FIRE_RATE)%num = true ->
  status s = PLAYING \/ status s = SHOP ->
  let frame := Player.useFrame t dt now p s in
  let heard := Player.deliver P (status s) (snd frame) uid m in
  let '(x, y, z) := Player.groupPosition p in
  In Player.PlayShootSound (snd frame)
  /\ Player.lastFireTime (fst frame) = t
  /\ (status s = SHOP -> heard = (m, uid))
  /\ (status s = PLAYING ->
      exists bullets,
        objects (fst heard) = objects m ++ bullets
        /\ length bullets = (if hasSpreadShot s then 3 else 1)%nat
        /\ snd heard = (uid + length bullets)%nat
        /\ Forall (fun b => type b = BULLET /\ active b = true
                            /\ position b
                               = (x, (y + dec 12 1)%num, (z - ofZ 1)%num))
             bullets).
Proof.
  intros Hfire Hdue Hst. cbv zeta.
  destruct (Player.groupPosition p) as [[x y] z] eqn:Eg.
  unfold Player.useFrame, Player.triggerShoot.
  rewrite Hfire, Hdue, Eg. cbn [andb Player.set_lastFireTime Player.groupPosition
    Player.lane Player.isInvincible Player.lastDamageTime].
  rewrite Eg.
  destruct Hst as [Hs | Hs]; rewrite Hs.
  - split; [|split; [|split]].
    + repeat case_match; simpl; auto.
    + repeat case_match; simpl; auto.
    + discriminate.
    + intros _.
      assert (Hsnd : forall A B (a : A) (b : B) (c : bool) (f g : A),
                snd ((if c then f else g), b) = b) by reflexivity.
      repeat case_match; cbn [snd fst Player.deliver handlePlayerShoot objects];
        eexists; (split; [rewrite <- ?app_assoc; reflexivity|]);
        (split; [reflexivity|]); (split; [simpl; lia|]);
        repeat constructor.
  - split; [|split; [|split]].
    + repeat case_match; simpl; auto.
    + repeat case_match; simpl; auto.
    + intros _. repeat case_match; reflexivity.
    + discriminate.
Qed.

End PlayerProperties.

(** * The player's slide in exact arithmetic *)

Section PlayerExact.
Local Open Scope R_scope.

Lemma useFrame_groupPosition {num : Type} `{Number num} (t dt : num)
  (now : Z) (p : Player.PlayerState num) (s : GameState num) :
  status s = PLAYING \/ status s = SHOP ->
  Player.groupPosition (fst (Player.useFrame t dt now p s))
  = (Player.lerp (fst (fst (Player.groupPosition p)))
       (nmul (ofZ (Player.lane p)) LANE_WIDTH) (nmul dt (ofZ 15)),
     snd (fst (Player.groupPosition p)), snd (Player.groupPosition p)).
Proof.
  intros Hst. unfold Player.useFrame.
  destruct (Player.groupPosition p) as [[x y] z] eqn:Eg.
  destruct Hst as [-> | ->]; simpl;
    repeat (case_match; simpl in *; subst; auto; try congruence).
Qed.

(** X13.  In exact arithmetic a frame multiplies the player's distance to
    the centre of the lane by [1 - 15 * delta], the frame's own delta, which
    is not capped: up to 1/15 s the player moves towards the lane without
    passing it, up to 2/15 s the distance does not grow, and a frame longer
    than 2/15 s throws the player further from the lane than before, on the
    other side. *)
Theorem slide_towards_lane (t dt : R) (now : Z)
  (p : Player.PlayerState R) (s : GameState R) :
  status s = PLAYING \/ status s = SHOP ->
  let target := IZR (Player.lane p) * (22 / 10) in
  let x := fst (fst (Player.groupPosition p)) in
  let x' :=
    fst (fst (Player.groupPosition (fst (Player.useFrame t dt now p s)))) in
  x' - target = (1 - 15 * dt) * (x - target)
  /\ (0 <= dt <= 1 / 15 ->
      0 <= (x' - target) * (x - target)
      /\ Rabs (x' - target) <= Rabs (x - target))
  /\ (0 <= dt <= 2 / 15 -> Rabs (x' - target) <= Rabs (x - target))
  /\ (2 / 15 < dt -> x <> target ->
      Rabs (x - target) < Rabs (x' - target)
      /\ (x' - target) * (x - target) < 0).
Proof.
  intros Hst. cbv zeta.
  rewrite (useFrame_groupPosition t dt now p s Hst). cbn [fst snd].
  set (x := fst (fst (Player.groupPosition p))).
  set (T := IZR (Player.lane p) * (22 / 10)).
  assert (E : Player.lerp x (nmul (ofZ (Player.lane p)) LANE_WIDTH)
                (nmul dt (ofZ 15)) - T = (1 - 15 * dt) * (x - T)).
  { unfold Player.lerp, LANE_WIDTH, dec, T. cbn.
    change (IZR (10 ^ Z.of_nat 1)) with 10. ring. }
  rewrite E. clear E. clearbody x T. split; [reflexivity|].
  set (d := x - T). set (k := 1 - 15 * dt).
  assert (Hsq : 0 <= d * d) by apply Rle_0_sqr.
  assert (Habs : 0 <= Rabs d) by apply Rabs_pos.
  split; [|split].
  - intros Hdt. assert (Hk : 0 <= k <= 1) by (unfold k; lra). split.
    + rewrite Rmult_assoc. apply Rmult_le_pos; lra.
    + rewrite Rabs_mult, (Rabs_right k) by lra.
      rewrite <- (Rmult_1_l (Rabs d)) at 2.
      apply Rmult_le_compat_r; lra.
  - intros Hdt. rewrite Rabs_mult.
    assert (Hk : Rabs k <= 1) by (apply Rabs_le; unfold k; lra).
    rewrite <- (Rmult_1_l (Rabs d)) at 2.
    apply Rmult_le_compat_r; lra.
  - intros Hdt Hne. assert (Hk : k < -1) by (unfold k; lra).
    assert (Hpos : 0 < Rabs d) by (apply Rabs_pos_lt; unfold d; lra).
    split.
    + rewrite Rabs_mult, (Rabs_left k) by lra.
      rewrite <- (Rmult_1_l (Rabs d)) at 1.
      apply Rmult_lt_compat_r; lra.
    + assert (Hd : 0 < d * d) by (apply Rsqr_pos_lt; unfold d; lra).
      rewrite Rmult_assoc.
      replace (k * (d * d)) with (- ((- k) * (d * d))) by ring.
      apply Ropp_lt_gt_0_contravar. apply Rmult_gt_0_compat; lra.
Qed.

End PlayerExact.

(** * Properties of the transitions and of the particle system *)

Section TransitionProperties.
Context {num : Type} `{Number num}.
Variable P : Platform num.

Lemma shopPortal_tidy (i : string) : tidy (Transitions.shopPortal i).
Proof. intros _. reflexivity. Qed.

Lemma filter_sublist {A : Type} (f : A -> bool) (l : list A) :
  sublist (List.filter f l) l.
Proof.
  induction l as [|x l IH]; simpl; [constructor|].
  destruct (f x); now constructor.
Qed.

(** X14.  When the level goes up during play, the transition keeps, in
    their order, exactly the objects of the store that are nearer than 80
    units ahead, and appends one new object: an active shop portal at
    (0, 0, -100).  The distance travelled and the state of the store are
    left alone, the next letter is due one letter interval of the new level
    after the point 120 units behind the distance travelled, and no
    inactive bullet or portal is brought into the store. *)
Theorem level_up_keeps_near_objects_and_adds_a_portal
  (level : Z) (refs : Transitions.Refs) (m : Manager num)
  (st : GameState num) (uid : nat) :
  Transitions.prevStatus refs <> GAME_OVER ->
  Transitions.prevStatus refs <> VICTORY ->
  level <> Transitions.prevLevel refs ->
  (1 < level)%Z ->
  let r := Transitions.onTransition P PLAYING level refs m st uid in
  let m' := snd (fst (fst r)) in
  exists kept portal,
    objects m' = kept ++ [portal]
    /\ sublist kept (objects m)
    /\ (forall o, In o kept <->
          In o (objects m) /\ (posZ o >? ofZ (-80))%num = true)
    /\ (type portal = SHOP_PORTAL /\ active portal = true
        /\ position portal = (ofZ 0, ofZ 0, ofZ (-100))
        /\ id portal = uuidv4 P uid)
    /\ (Forall tidy (objects m) -> Forall tidy (objects m'))
    /\ distanceTraveled m' = distanceTraveled m
    /\ nextLetterDistance m'
       = (distanceTraveled m - SPAWN_DISTANCE + getLetterInterval P level)%num
    /\ snd (fst r) = st
    /\ snd r = S uid
    /\ fst (fst (fst r)) = Transitions.mkRefs PLAYING level.
Proof.
  intros Hgo Hv Hlvl Hone. cbv zeta. unfold Transitions.onTransition.
  assert (E1 : Transitions.GameStatus_eqb (Transitions.prevStatus refs) GAME_OVER = false)
    by (destruct (Transitions.prevStatus refs); auto; congruence).
  assert (E2 : Transitions.GameStatus_eqb (Transitions.prevStatus refs) VICTORY = false)
    by (destruct (Transitions.prevStatus refs); auto; congruence).
  apply Z.eqb_neq in Hlvl. apply Z.ltb_lt in Hone.
  rewrite E1, E2, Hlvl, Hone. cbn [Transitions.GameStatus_eqb andb orb negb fst snd].
  eexists _, _. split; [reflexivity|].
  split; [apply filter_sublist|].
  split; [intros o; apply filter_In|].
  split; [repeat split|].
  split.
  - intros Ht. cbn [objects]. apply Forall_app. split.
    + apply Forall_forall. intros o Ho. apply list_elem_of_In, filter_In in Ho.
      rewrite Forall_forall in Ht. apply Ht, list_elem_of_In, Ho.
    + constructor; [apply shopPortal_tidy | constructor].
  - repeat split.
Qed.

End TransitionProperties.

Section ParticleProperties.
Import ParticleSystem.
Context {num : Type} `{Number num}.
Variable P : Platform num.
Variable T : Trig num.

Lemma burstLoop_spec (position : Vec3 num) (color : string)
  (ps : list (Particle num)) (spawned rnd : nat) :
  spawned < burstAmount ->
  let r := burstLoop P T position color ps spawned rnd in
  length (fst r) = length ps
  /\ snd r
     = rnd + 10 * Nat.min (burstAmount - spawned) (length (List.filter dead ps))
  /\ forall i p, ps !! i = Some p ->
       fst r !! i
       = Some (if dead p && (spawned + deadBefore i ps <? burstAmount)
               then revive P T position color (rnd + 10 * deadBefore i ps)
               else p).
Proof.
  revert spawned rnd.
  induction ps as [|p ps IH]; intros spawned rnd Hlt; cbv zeta.
  - simpl. split; [reflexivity|]. split; [lia|]. intros i p Hi. discriminate.
  - cbn [burstLoop List.filter]. fold (dead p).
    destruct (dead p) eqn:Ed.
    + destruct (burstAmount <=? S spawned) eqn:Efull.
      * apply Nat.leb_le in Efull. cbn [fst snd length].
        split; [reflexivity|]. split; [lia|].
        intros i q Hi. destruct i as [|i]; simpl in Hi.
        -- inversion Hi; subst q. simpl. rewrite Ed. simpl.
           unfold deadBefore. simpl.
           rewrite ?Nat.mul_0_r, ?Nat.add_0_r.
           replace (spawned <? burstAmount) with true
             by (symmetry; apply Nat.ltb_lt; lia).
           reflexivity.
        -- simpl. rewrite Hi. f_equal.
           unfold deadBefore. cbn [take List.filter]. fold (dead p).
           rewrite Ed. cbn [length].
           replace (spawned + S _ <? burstAmount) with false
             by (symmetry; apply Nat.ltb_ge; lia).
           now rewrite andb_false_r.
      * apply Nat.leb_gt in Efull.
        specialize (IH (S spawned) (rnd + 10) Efull). cbv zeta in IH.
        destruct (burstLoop P T position color ps (S spawned) (rnd + 10))
          as [rest rnd'].
        cbn [fst snd length] in *. destruct IH as (Hlen & Hrnd & Hslots).
        split; [now rewrite Hlen|]. split; [lia|].
        intros i q Hi. destruct i as [|i]; simpl in Hi.
        -- inversion Hi; subst q. simpl. rewrite Ed. simpl.
           unfold deadBefore. simpl.
           rewrite ?Nat.mul_0_r, ?Nat.add_0_r.
           replace (spawned <? burstAmount) with true
             by (symmetry; apply Nat.ltb_lt; lia).
           reflexivity.
        -- simpl. rewrite (Hslots i q Hi).
           unfold deadBefore. cbn [take List.filter]. fold (dead p).
           rewrite Ed. cbn [length].
           replace (S spawned + length (List.filter dead (take i ps)))
             with (spawned + S (length (List.filter dead (take i ps)))) by lia.
           replace (rnd + 10 + 10 * length (List.filter dead (take i ps)))
             with (rnd + 10 * S (length (List.filter dead (take i ps)))) by lia.
           reflexivity.
    + specialize (IH spawned rnd Hlt). cbv zeta in IH.
      destruct (burstLoop P T position color ps spawned rnd) as [rest rnd'].
      cbn [fst snd length] in *. destruct IH as (Hlen & Hrnd & Hslots).
      split; [now rewrite Hlen|]. split; [exact Hrnd|].
      intros i q Hi. destruct i as [|i]; simpl in Hi.
      * inversion Hi; subst q. simpl. now rewrite Ed.
      * simpl. rewrite (Hslots i q Hi).
        unfold deadBefore. cbn [take List.filter]. fold (dead p).
        now rewrite Ed.
Qed.

(** X16.  A burst of particles takes the free slots of the pool in index
    order, the first forty at most: a slot is rewritten exactly when it is
    free and fewer than forty free slots come before it, and then it holds
    a particle at the burst's position, in its color, drawn from the next
    ten random values.  Live particles are never touched, the pool keeps its
    size, and a burst that finds no free slot changes nothing. *)
Theorem burst_takes_the_first_forty_free_slots (position : Vec3 num)
  (color : string) (ps : list (Particle num)) (rnd : nat) :
  let r := handleExplosion P T position color ps rnd in
  length (fst r) = length ps
  /\ snd r = rnd + 10 * Nat.min burstAmount (length (List.filter dead ps))
  /\ (forall i p, ps !! i = Some p ->
        fst r !! i
        = Some (if dead p && (deadBefore i ps <? burstAmount)
                then revive P T position color (rnd + 10 * deadBefore i ps)
                else p))
  /\ (forall i p, ps !! i = Some p -> dead p = false -> fst r !! i = Some p)
  /\ (Forall (fun p => dead p = false) ps -> r = (ps, rnd)).
Proof.
  cbv zeta. unfold handleExplosion.
  assert (Hlt : 0 < burstAmount) by (unfold burstAmount; lia).
  destruct (burstLoop_spec position color ps 0 rnd Hlt) as (Hlen & Hrnd & Hslots).
  rewrite Nat.sub_0_r in Hrnd.
  split; [exact Hlen|]. split; [exact Hrnd|]. split; [exact Hslots|]. split.
  - intros i p Hi Hp. rewrite (Hslots i p Hi), Hp. reflexivity.
  - intros Hall.
    destruct (burstLoop P T position color ps 0 rnd) as [ps' rnd'].
    cbn [fst snd] in *. f_equal.
    + apply list_eq. intros i.
      destruct (ps !! i) as [p|] eqn:Ei.
      * rewrite (Hslots i p Ei).
        rewrite Forall_forall in Hall.
        rewrite (Hall p); [reflexivity|]. eapply list_elem_of_lookup_2, Ei.
      * apply lookup_ge_None. rewrite Hlen. now apply lookup_ge_None.
    + rewrite Hrnd.
      replace (List.filter dead ps) with (@nil (Particle num)); [simpl; lia|].
      symmetry. clear -Hall. induction Hall as [|p ps Hp _ IH]; simpl; auto.
      now rewrite Hp.
Qed.

End ParticleProperties.

(** * The transition in exact arithmetic *)

Section TransitionExact.
Local Open Scope R_scope.
Variable P : Platform R.

Lemma fold_Rmin_above (b : R) (zs : list R) (z : R) :
  b < z -> Forall (fun x => b < x) zs -> b < fold_left Rmin zs z.
Proof.
  revert z. induction zs as [|x zs IH]; intros z Hz Hall; simpl; [exact Hz|].
  inversion Hall; subst. apply IH; [|assumption].
  unfold Rmin. destruct (Rle_dec z x); assumption.
Qed.

Lemma furthestZ_behind (kept : list (GameObject R)) (portal : GameObject R) :
  Forall (fun o => -80 < posZ o) kept ->
  isStatic portal = true -> posZ portal = -100 ->
  furthestZ (kept ++ [portal]) = -100.
Proof.
  intros Hnear Hs Hz. unfold furthestZ.
  rewrite List.filter_app, List.map_app. cbn [List.filter]. rewrite Hs.
  cbn [List.map].
  rewrite Hz.
  assert (Hzs : Forall (fun x => -80 < x) (List.map posZ (List.filter isStatic kept))).
  { apply Forall_forall. intros x Hx. apply list_elem_of_In, in_map_iff in Hx.
    destruct Hx as (o & <- & Ho). apply filter_In in Ho as [Ho _].
    rewrite Forall_forall in Hnear. apply Hnear, list_elem_of_In, Ho. }
  destruct (List.map posZ (List.filter isStatic kept)) as [|z zs]; [reflexivity|].
  inversion Hzs; subst. cbn [app]. rewrite fold_left_app. cbn [fold_left].
  pose proof (fold_Rmin_above (-80) zs z ltac:(assumption) ltac:(assumption)).
  change (Rmin (fold_left Rmin zs z) (-100) = -100). apply Rmin_right. lra.
Qed.

(** X15.  In exact arithmetic, the store a level-up leaves has its shop
    portal as the furthest object that is not a projectile: [furthestZ],
    from which the spawning logic places the next objects, is -100, behind
    every object the transition kept. *)
Theorem portal_is_the_furthest_object
  (level : Z) (refs : Transitions.Refs) (m : Manager R)
  (st : GameState R) (uid : nat) :
  Transitions.prevStatus refs <> GAME_OVER ->
  Transitions.prevStatus refs <> VICTORY ->
  level <> Transitions.prevLevel refs ->
  (1 < level)%Z ->
  let m' :=
    snd (fst (fst (Transitions.onTransition P PLAYING level refs m st uid))) in
  furthestZ (objects m') = -100
  /\ Forall (fun o => -100 <= posZ o) (objects m').
Proof.
  intros Hgo Hv Hlvl Hone. cbv zeta. unfold Transitions.onTransition.
  assert (E1 : Transitions.GameStatus_eqb (Transitions.prevStatus refs) GAME_OVER = false)
    by (destruct (Transitions.prevStatus refs); auto; congruence).
  assert (E2 : Transitions.GameStatus_eqb (Transitions.prevStatus refs) VICTORY = false)
    by (destruct (Transitions.prevStatus refs); auto; congruence).
  apply Z.eqb_neq in Hlvl. apply Z.ltb_lt in Hone.
  rewrite E1, E2, Hlvl, Hone.
  cbn [Transitions.GameStatus_eqb andb orb negb fst snd objects].
  assert (Hnear : Forall (fun o : GameObject R => -80 < posZ o)
            (List.filter (fun obj => (posZ obj >? ofZ (-80))%num) (objects m))).
  { apply Forall_forall. intros o Ho. apply list_elem_of_In, filter_In in Ho.
    destruct Ho as [_ Ho]. cbn in Ho. unfold Exact.ltb in Ho.
    destruct (Rlt_dec _ _); [assumption | discriminate]. }
  split.
  - apply furthestZ_behind; [exact Hnear | reflexivity | reflexivity].
  - apply Forall_app. split.
    + eapply Forall_impl; [exact Hnear|]. simpl. intros; lra.
    + constructor; [|constructor]. cbn. lra.
Qed.

End TransitionExact.

(** * Further properties of the frame *)

Section ConductProperties.
Context {num : Type} `{Number num}.
Variable P : Platform num.
Variable inp : FrameInput num.

Lemma persists_refl (o : GameObject num) : persists inp o o.
Proof. constructor; auto. intros _ h Hh. exists h. split; [assumption | lia]. Qed.

Lemma persists_trans (o1 o2 o3 : GameObject num) :
  persists inp o1 o2 -> persists inp o2 o3 -> persists inp o1 o3.
Proof.
  intros [] []. constructor; try congruence; auto.
  intros Hd h Hh.
  destruct (ps_health0 Hd h Hh) as (h2 & Hh2 & Hle2).
  destruct (ps_health1 Hd h2 Hh2) as (h3 & Hh3 & Hle3).
  exists h3. split; [assumption | lia].
Qed.

Lemma stays_refl (o : GameObject num) : stays inp o o.
Proof. constructor; auto using persists_refl. Qed.

Lemma stays_trans (o1 o2 o3 : GameObject num) :
  stays inp o1 o2 -> stays inp o2 o3 -> stays inp o1 o3.
Proof.
  intros [] []. constructor; try congruence.
  eapply persists_trans; eassumption.
Qed.

Lemma stays_deactivate (o : GameObject num) :
  stays inp o (set_active false o).
Proof.
  constructor; auto. constructor; simpl; auto.
  intros _ h Hh. exists h. split; [assumption | lia].
Qed.

Lemma stays_hurt (o : GameObject num) :
  stays inp o (set_health (Some (healthAfterHit inp o)) o).
Proof.
  constructor; auto. constructor; simpl; auto.
  intros Hd h Hh. eexists. split; [reflexivity|].
  unfold healthAfterHit. rewrite Hh. lia.
Qed.

Lemma settles_trans (fr1 fr2 fr3 : Frame num) :
  settles P inp fr1 fr2 -> settles P inp fr2 fr3 -> settles P inp fr1 fr3.
Proof.
  intros H12 H23. induction H23; [exact H12 | | | | | | | |];
    constructor; assumption.
Qed.

Lemma settles_collectGem (fr fr' : Frame num) v :
  settles P inp fr fr' ->
  settles P inp fr (set_store (collectGem v (store fr')) fr').
Proof. apply (settles_store P inp fr fr' (collectGem v)). constructor. Qed.

Lemma settles_collectLetter (fr fr' : Frame num) index :
  settles P inp fr fr' ->
  settles P inp fr (set_store (collectLetter index (store fr')) fr').
Proof. apply (settles_store P inp fr fr' (collectLetter index)). constructor. Qed.

Lemma settles_openShop (fr fr' : Frame num) :
  settles P inp fr fr' ->
  settles P inp fr (set_store (openShop (store fr')) fr').
Proof. apply (settles_store P inp fr fr' openShop). constructor. Qed.

Ltac settle :=
  repeat first
    [ assumption | apply settles_refl | apply settles_emit
    | apply settles_changed | apply settles_collectGem
    | apply settles_collectLetter | apply settles_openShop
    | apply settles_random | apply settles_deactivate
    | apply settles_dispatch ].

Lemma hitTarget_settles (j : nat) (fr fr' : Frame num) :
  settles P inp fr fr' -> settles P inp fr (hitTarget inp j fr').
Proof.
  intros Hs. unfold hitTarget.
  destruct (heap fr' !! j) as [target|] eqn:Ej; [|exact Hs].
  cbv zeta.
  assert (Hh : settles P inp fr
            (set_heap
               (alter (set_health (Some (healthAfterHit inp target))) j
                  (heap fr')) fr'))
    by (now apply settles_hurt).
  destruct (_ <=? _)%Z; settle.
Qed.

Lemma bulletScan_settles (i : nat) (targets : list nat) (fr fr' : Frame num) :
  settles P inp fr fr' ->
  settles P inp fr (snd (bulletScan inp i targets fr')).
Proof.
  intros Hs. induction targets as [|j rest IH]; simpl; [exact Hs|].
  repeat case_match; simpl; try exact IH.
  apply hitTarget_settles. settle.
Qed.

Lemma bulletScan_hit (i : nat) (targets : list nat) (fr : Frame num) :
  let r := bulletScan inp i targets fr in
  (fst r = true -> hasChanges (snd r) = true) /\
  (fst r = false -> snd r = fr).
Proof.
  cbv zeta. induction targets as [|j rest IH]; simpl; [split; [discriminate | reflexivity]|].
  repeat case_match; simpl; try exact IH.
  split; [|discriminate]. intros _.
  destruct (hitTarget_rest inp j (changed (deactivate i fr))) as (_ & _ & Hc).
  exact Hc.
Qed.

Lemma playerCollision_conduct (i : nat) (obj : GameObject num)
  (fr fr0 : Frame num) :
  settles P inp fr0 fr ->
  let r := playerCollision inp i obj fr in
  settles P inp fr0 (snd r) /\
  (fst r = false -> hasChanges (snd r) = true).
Proof.
  intros Hs. cbv zeta. unfold playerCollision.
  destruct (playerPos inp) as [[px py] pz].
  repeat case_match; simpl; (split; [settle | congruence]).
Qed.

Lemma resolve_conduct (targets : list nat) (i : nat) (obj : GameObject num)
  (fr fr0 : Frame num) :
  settles P inp fr0 fr ->
  let r := resolve inp targets i obj fr in
  settles P inp fr0 (snd r) /\
  (fst r = true -> type obj = BULLET ->
   nltb (posZ obj) (ofZ (-30)) = false) /\
  (fst r = false ->
   hasChanges (snd r) = true \/
   (type obj = BULLET /\ nltb (posZ obj) (ofZ (-30)) = true)).
Proof.
  intros Hs. cbv zeta. unfold resolve.
  destruct (ObjectType_eqb (type obj) GEM) eqn:Eg.
  - apply ObjectType_eqb_eq in Eg. rewrite Eg. simpl.
    destruct (nltb _ _); simpl.
    + split; [settle | split; [discriminate | now left]].
    + destruct (playerCollision_conduct i obj fr fr0 Hs) as (Hp & Hk).
      split; [exact Hp | split; [intros _ E; discriminate E|]].
      intros Hf. left. apply Hk, Hf.
  - destruct (ObjectType_eqb (type obj) BULLET) eqn:Eb; simpl.
    + pose proof (bulletScan_settles i targets fr0 fr Hs) as Hb.
      destruct (bulletScan_hit i targets fr) as (Hhit & _).
      destruct (bulletScan inp i targets fr) as [hit fr']. simpl in *.
      apply ObjectType_eqb_eq in Eb.
      destruct (nltb (posZ obj) (ofZ (-30))) eqn:Ez; simpl.
      * split; [exact Hb | split; [discriminate | intros _; now right]].
      * split; [exact Hb | split; [reflexivity|]].
        intros Hn. left. apply Hhit. now destruct hit.
    + destruct (playerCollision_conduct i obj fr fr0 Hs) as (Hp & Hk).
      split; [exact Hp | split; [|intros Hf; left; apply Hk, Hf]].
      intros _ Et. rewrite Et in Eb. discriminate.
Qed.

Lemma moveObject_persists (o : GameObject num) :
  persists inp o (moveObject inp o) /\
  active (moveObject inp o) = active o.
Proof.
  unfold moveObject. destruct (position o) as [[x y] z].
  repeat case_match; simpl; (split; [|reflexivity]);
    (constructor; simpl; auto; intros _ h Hh; exists h; split; [assumption | lia]).
Qed.

(** What an AI step does to the object and to the frame. *)
Lemma dodgerAI_conduct (obj : GameObject num) (fr fr0 : Frame num) :
  settles P inp fr0 fr ->
  let r := dodgerAI P inp obj fr in
  settles P inp fr0 (snd r) /\ persists inp obj (fst r) /\
  active (fst r) = active obj /\ posZ (fst r) = posZ obj.
Proof.
  intros Hs. cbv zeta. unfold dodgerAI, nextRandom.
  repeat (case_match; simplify_eq); simpl;
    (split; [settle | split; [|split; reflexivity]]);
    (constructor; simpl; auto; intros _ h Hh; exists h; split; [assumption | lia]).
Qed.

Lemma shooterAI_conduct (obj : GameObject num) (fr fr0 : Frame num) :
  settles P inp fr0 fr ->
  let r := shooterAI P inp obj fr in
  settles P inp fr0 (snd r) /\ persists inp obj (fst r) /\
  active (fst r) = active obj /\ posZ (fst r) = posZ obj.
Proof.
  intros Hs. cbv zeta. unfold shooterAI, nextRandom.
  repeat (case_match; simplify_eq); simpl;
    (split; [settle; try (apply settles_spawn; [intros u; split; [reflexivity | left; split; reflexivity] | reflexivity | settle])
            | split; [|split; reflexivity]]);
    (constructor; simpl; auto; intros _ h Hh; exists h; split; [assumption | lia]).
Qed.

Lemma flyerAI_conduct (obj : GameObject num) (fr fr0 : Frame num) :
  settles P inp fr0 fr ->
  let r := flyerAI P inp obj fr in
  settles P inp fr0 (snd r) /\ persists inp obj (fst r) /\
  active (fst r) = active obj /\ posZ (fst r) = posZ obj.
Proof.
  intros Hs. cbv zeta. unfold flyerAI.
  repeat (case_match; simplify_eq); simpl;
    (split; [settle; try (apply settles_spawn; [intros u; split; [reflexivity | right; split; reflexivity] | reflexivity | settle])
            | split; [|split; reflexivity]]);
    (constructor; simpl; auto; intros _ h Hh; exists h; split; [assumption | lia]).
Qed.

(** A flyer launches one missile in its lifetime: the launch sets
    [hasFired], and on an object that has fired the flyer AI does nothing
    (no missile, no burst, no change), whatever the frame. *)
Lemma flyerAI_idle_once_fired (obj : GameObject num) (fr : Frame num) :
  hasFired obj = Some true -> flyerAI P inp obj fr = (obj, fr).
Proof.
  intros Hf. unfold flyerAI. rewrite Hf. simpl. now rewrite andb_false_r.
Qed.

Lemma settles_flags (fr fr' : Frame num) :
  settles P inp fr fr' ->
  keptObjects fr' = keptObjects fr /\
  (hasChanges fr = true -> hasChanges fr' = true) /\
  length (heap fr') = length (heap fr).
Proof.
  induction 1 as [|fr' e _ IH|fr' _ IH|fr' f _ _ IH|fr' _ IH|fr' mk _ _ _ IH
                 |fr' j _ IH|fr' j target _ _ IH|fr' _ IH];
    try destruct (dispatchPlayerHit_rest inp fr') as (Hh & -> & _ & -> & _);
    try rewrite Hh; simpl; auto;
    destruct IH as (Hk & Hc & Hl); repeat split; auto;
    now rewrite length_alter.
Qed.

Lemma settles_objects (fr fr' : Frame num) :
  settles P inp fr fr' -> Forall2 (stays inp) (heap fr) (heap fr').
Proof.
  induction 1 as [|fr' e _ IH|fr' _ IH|fr' f _ _ IH|fr' _ IH|fr' mk _ _ _ IH
                 |fr' j _ IH|fr' j target Hj _ IH|fr' _ IH]; simpl; auto.
  - apply Forall_Forall2_diag, Forall_forall. intros; apply stays_refl.
  - apply Forall2_alter_r; [assumption|].
    intros x y _ _ Hxy. eapply stays_trans; [exact Hxy | apply stays_deactivate].
  - apply Forall2_alter_r; [assumption|].
    intros x y _ Hy Hxy. eapply stays_trans; [exact Hxy|].
    assert (y = target) by congruence. subst y. apply stays_hurt.
  - destruct (dispatchPlayerHit_rest inp fr') as (-> & _). exact IH.
Qed.

Lemma store_action_leaves (f : GameState num -> GameState num)
  (s : GameState num) :
  store_action f -> frame_leaves s (f s) /\ lives (f s) = lives s.
Proof.
  intros [v|index|].
  - split; [constructor; simpl; auto; lia | reflexivity].
  - unfold collectLetter, advanceLevel.
    repeat case_match; (split; [constructor; simpl; auto; lia | reflexivity]).
  - split; [constructor; simpl; auto; lia | reflexivity].
Qed.

Lemma frame_leaves_refl (s : GameState num) : frame_leaves s s.
Proof. constructor; auto; lia. Qed.

Lemma frame_leaves_trans (s1 s2 s3 : GameState num) :
  frame_leaves s1 s2 -> frame_leaves s2 s3 -> frame_leaves s1 s3.
Proof. intros [] []. constructor; try congruence; lia. Qed.

Lemma takeDamage_leaves (s : GameState num) : frame_leaves s (takeDamage s).
Proof.
  unfold takeDamage. repeat case_match; constructor; simpl; auto; lia.
Qed.

(** The lives [takeDamage()] leaves depend on the lives and on the
    immortality flag alone. *)
Lemma takeDamage_lives (s s' : GameState num) :
  lives s' = lives s -> isImmortalityActive s' = isImmortalityActive s ->
  lives (takeDamage s') = lives (takeDamage s).
Proof.
  intros Hl Hi. unfold takeDamage. rewrite Hi, Hl.
  repeat case_match; simpl; congruence.
Qed.

Lemma struck_deaf (h : HitListener) : listening (struck inp h) = false.
Proof. reflexivity. Qed.

Lemma takes_one_hit_refl (h : HitListener) (s : GameState num) :
  takes_one_hit inp h s h s.
Proof. left. now split. Qed.

Lemma takes_one_hit_trans (h1 h2 h3 : HitListener)
  (s1 s2 s3 : GameState num) :
  frame_leaves s1 s2 ->
  takes_one_hit inp h1 s1 h2 s2 -> takes_one_hit inp h2 s2 h3 s3 ->
  takes_one_hit inp h1 s1 h3 s3.
Proof.
  intros Hl [(E12 & L12) | (O12 & E12 & L12)]
    [(E23 & L23) | (O23 & E23 & L23)]; subst h2 h3.
  - left. split; [reflexivity | congruence].
  - right. split; [exact O23 | split; [reflexivity|]].
    rewrite L23. apply takeDamage_lives; [exact L12 | apply Hl].
  - right. split; [exact O12 | split; [reflexivity | congruence]].
  - rewrite struck_deaf in O23. discriminate O23.
Qed.

(** What the listener makes of a hit event. *)
Lemma dispatchPlayerHit_takes (fr : Frame num) :
  frame_leaves (store fr) (store (dispatchPlayerHit inp fr)) /\
  takes_one_hit inp (listener fr) (store fr)
    (listener (dispatchPlayerHit inp fr)) (store (dispatchPlayerHit inp fr)).
Proof.
  unfold dispatchPlayerHit, checkHit, takes_one_hit, listening.
  cbn [listener store emit].
  destruct (_ || _); cbn [listener store set_listener set_store emit negb].
  - split; [apply frame_leaves_refl | left; now split].
  - split; [apply takeDamage_leaves | right; now repeat split].
Qed.

Lemma settles_leaves (fr fr' : Frame num) :
  settles P inp fr fr' ->
  frame_leaves (store fr) (store fr') /\
  takes_one_hit inp (listener fr) (store fr) (listener fr') (store fr').
Proof.
  induction 1 as [|fr' e _ IH|fr' _ IH|fr' f Hf _ IH|fr' _ IH|fr' mk _ _ _ IH
                 |fr' j _ IH|fr' j target _ _ IH|fr' _ IH]; simpl; auto.
  - split; [apply frame_leaves_refl | apply takes_one_hit_refl].
  - destruct IH as (Hl & Ht).
    destruct (store_action_leaves f (store fr') Hf) as (Hl' & Hlives).
    split; [eapply frame_leaves_trans; eassumption|].
    eapply takes_one_hit_trans; [exact Hl | exact Ht|].
    left. now split.
  - destruct IH as (Hl & Ht).
    destruct (dispatchPlayerHit_takes fr') as (Hl' & Ht').
    split; [eapply frame_leaves_trans; eassumption|].
    eapply takes_one_hit_trans; eassumption.
Qed.

(** One iteration of the loop, taken apart: movement and AI give the new
    value [obj] of the object and leave [fr1]; [obj] is written to the
    store; the collision logic leaves [fr2]; the object is kept or not. *)
Lemma stepObject_conduct (targets : list nat) (i : nat) (fr : Frame num)
  (o : GameObject num) :
  heap fr !! i = Some o ->
  exists obj fr1 fr2 (keep : bool),
    settles P inp fr fr1 /\
    persists inp o obj /\
    settles P inp (set_heap (<[i := obj]> (heap fr1)) fr1) fr2 /\
    stepObject P inp targets fr i = (if keep then keep_object i fr2 else fr2) /\
    (keep = true -> in_bounds obj) /\
    (keep = false ->
     hasChanges fr2 = true \/
     (type obj = BULLET /\ active obj = true /\
      nltb (posZ obj) (ofZ (-30)) = true)).
Proof.
  intros Hi. unfold stepObject. rewrite Hi.
  destruct (moveObject_persists o) as (P1 & A1).
  destruct (dodgerAI_conduct (moveObject inp o) fr fr (settles_refl P inp fr))
    as (S2 & P2 & A2 & Z2).
  destruct (dodgerAI P inp (moveObject inp o) fr) as [obj2 fr2].
  cbn [fst snd] in *.
  destruct (shooterAI_conduct obj2 fr2 fr S2) as (S3 & P3 & A3 & Z3).
  destruct (shooterAI P inp obj2 fr2) as [obj3 fr3]. cbn [fst snd] in *.
  destruct (flyerAI_conduct obj3 fr3 fr S3) as (S4 & P4 & A4 & Z4).
  destruct (flyerAI P inp obj3 fr3) as [obj4 fr4]. cbn [fst snd] in *.
  assert (Hp : persists inp o obj4).
  { eapply persists_trans; [exact P1|]. eapply persists_trans; [exact P2|].
    eapply persists_trans; [exact P3 | exact P4]. }
  set (fr5 := set_heap (<[i := obj4]> (heap fr4)) fr4).
  assert (Hr : exists (keep : bool) (fr6 : Frame num),
             (if active obj4 then resolve inp targets i obj4 fr5
              else (true, fr5)) = (keep, fr6) /\
             settles P inp fr5 fr6 /\
             (keep = true -> type obj4 = BULLET -> active obj4 = true ->
              nltb (posZ obj4) (ofZ (-30)) = false) /\
             (keep = false ->
              hasChanges fr6 = true \/
              (type obj4 = BULLET /\ active obj4 = true /\
               nltb (posZ obj4) (ofZ (-30)) = true))).
  { destruct (active obj4) eqn:Ea.
    - destruct (resolve_conduct targets i obj4 fr5 fr5 (settles_refl P inp fr5))
        as (S6 & Hin & Hout).
      destruct (resolve inp targets i obj4 fr5) as [keep fr6].
      cbn [fst snd] in *. exists keep, fr6.
      split; [reflexivity | split; [exact S6 | split]].
      + intros Hk Ht _. now apply Hin.
      + intros Hk. destruct (Hout Hk) as [Hc | [Ht Hz]]; [now left|].
        right. now repeat split.
    - exists true, fr5. split; [reflexivity | split; [apply settles_refl|]].
      split; [intros _ _ E; discriminate E | discriminate]. }
  destruct Hr as (keep & fr6 & -> & S6 & Hin & Hout).
  destruct (ObjectType_eqb (type obj4) BULLET) eqn:Eb; cbn [negb andb].
  - apply ObjectType_eqb_eq in Eb.
    exists obj4, fr4, fr6, keep.
    split; [exact S4 | split; [exact Hp | split; [exact S6|]]].
    split; [reflexivity|]. split; [|exact Hout].
    intros Hk. unfold in_bounds. rewrite Eb. simpl. now apply Hin.
  - destruct (nltb REMOVE_DISTANCE (posZ obj4)) eqn:Ez.
    + exists obj4, fr4, (changed fr6), false.
      split; [exact S4 | split; [exact Hp|]].
      split; [now apply settles_changed|].
      split; [reflexivity|]. split; [discriminate | now left].
    + exists obj4, fr4, fr6, keep.
      split; [exact S4 | split; [exact Hp | split; [exact S6|]]].
      split; [reflexivity|]. split; [|exact Hout].
      intros _. unfold in_bounds. now rewrite Eb.
Qed.

Lemma stays_in_bounds (o o' : GameObject num) :
  stays inp o o' -> in_bounds o -> in_bounds o'.
Proof.
  intros [[] Hpos _]. unfold in_bounds, posZ. rewrite Hpos, ps_type0.
  destruct (ObjectType_eqb (type o) BULLET); [|auto].
  intros Hb Ha. apply Hb. destruct (active o); [reflexivity|].
  rewrite ps_active0 in Ha by reflexivity. discriminate.
Qed.

Lemma stays_persists (l l' : list (GameObject num)) :
  Forall2 (stays inp) l l' -> Forall2 (persists inp) l l'.
Proof. intros Hf. eapply Forall2_impl; [exact Hf|]. now intros x y []. Qed.

Lemma persists_Forall2_trans (l1 l2 l3 : list (GameObject num)) :
  Forall2 (persists inp) l1 l2 -> Forall2 (persists inp) l2 l3 ->
  Forall2 (persists inp) l1 l3.
Proof. apply Forall2_trans. intros x y z. apply persists_trans. Qed.

Lemma stepObject_conducted (heap0 : list (GameObject num))
  (targets : list nat) (k : nat) (fr : Frame num) :
  conducted inp heap0 k fr ->
  conducted inp heap0 (S k) (stepObject P inp targets fr k) /\
  frame_leaves (store fr) (store (stepObject P inp targets fr k)) /\
  (hasChanges fr = true ->
   hasChanges (stepObject P inp targets fr k) = true).
Proof.
  intros [Hh Hk Hd].
  destruct (heap fr !! k) as [o|] eqn:Ek.
  - destruct (stepObject_conduct targets k fr o Ek)
      as (obj & fr1 & fr2 & keep & S1 & Pobj & S2 & -> & Hin & Hout).
    set (frw := set_heap (<[k := obj]> (heap fr1)) fr1) in *.
    pose proof (settles_objects fr fr1 S1) as O1.
    pose proof (settles_objects frw fr2 S2) as O2.
    destruct (settles_flags fr fr1 S1) as (K1 & C1 & L1).
    destruct (settles_flags frw fr2 S2) as (K2 & C2 & L2).
    assert (Hw : Forall2 (persists inp) (heap fr) (heap frw)).
    { unfold frw. simpl. rewrite <- (list_insert_id (heap fr) k o Ek) at 1.
      apply Forall2_insert; [now apply stays_persists | exact Pobj]. }
    assert (Hheap : Forall2 (persists inp) heap0 (heap fr2)).
    { eapply persists_Forall2_trans; [exact Hh|].
      eapply persists_Forall2_trans; [exact Hw | now apply stays_persists]. }
    assert (Hkept : keptObjects fr2 = keptObjects fr).
    { rewrite K2. unfold frw. simpl. exact K1. }
    assert (Hlen : k < length (heap fr1)).
    { rewrite L1. eapply lookup_lt_Some, Ek. }
    assert (Hold : forall j oj, j <> k -> heap fr !! j = Some oj ->
              exists o2, heap fr2 !! j = Some o2 /\ stays inp oj o2).
    { intros j oj Hne Hj.
      destruct (Forall2_lookup_l _ _ _ _ _ O1 Hj) as (o1 & Hj1 & St1).
      assert (Hjw : heap frw !! j = Some o1).
      { unfold frw. simpl. rewrite list_lookup_insert_ne by auto. exact Hj1. }
      destruct (Forall2_lookup_l _ _ _ _ _ O2 Hjw) as (o2 & Hj2 & St2).
      exists o2. split; [exact Hj2 | eapply stays_trans; eassumption]. }
    assert (Hnew : exists o2, heap fr2 !! k = Some o2 /\ stays inp obj o2).
    { assert (Hkw : heap frw !! k = Some obj).
      { unfold frw. simpl. now apply list_lookup_insert_eq. }
      destruct (Forall2_lookup_l _ _ _ _ _ O2 Hkw) as (o2 & Hk2 & St2).
      now exists o2. }
    assert (Hch : hasChanges fr = true -> hasChanges fr2 = true).
    { intros Hc. apply C2. unfold frw. simpl. now apply C1. }
    assert (Hst : frame_leaves (store fr) (store fr2)).
    { eapply frame_leaves_trans; [apply (settles_leaves fr fr1 S1)|].
      apply (settles_leaves frw fr2 S2). }
    assert (Hkeepold : forall j, In j (keptObjects fr) ->
              j < S k /\ exists o', heap fr2 !! j = Some o' /\ in_bounds o').
    { intros j Hj. destruct (Hk j Hj) as (Hlt & oj & Hoj & Hb).
      split; [lia|].
      destruct (Hold j oj ltac:(lia) Hoj) as (o2 & Ho2 & St2).
      exists o2. split; [exact Ho2 | eapply stays_in_bounds; eassumption]. }
    assert (Hdropold : forall j o', j < k -> heap fr2 !! j = Some o' ->
              ~ In j (keptObjects fr) -> type o' <> BULLET ->
              hasChanges fr2 = true).
    { intros j o' Hlt Hj Hnk Ht.
      destruct (lookup_lt_is_Some_2 (heap fr) j) as (oj & Hoj).
      { rewrite <- L1. replace (length (heap fr1)) with (length (heap frw))
          by (unfold frw; simpl; apply length_insert).
        rewrite <- L2. eapply lookup_lt_Some, Hj. }
      destruct (Hold j oj ltac:(lia) Hoj) as (o2 & Ho2 & [[] _ _]).
      assert (o2 = o') by congruence. subst o2.
      apply Hch, (Hd j oj Hlt Hoj Hnk). congruence. }
    destruct keep.
    + split; [|split; [exact Hst | exact Hch]].
      constructor; simpl.
      * exact Hheap.
      * rewrite Hkept. intros j [Hj | [<- | []]]%in_app_or.
        -- now apply Hkeepold.
        -- split; [lia|]. destruct Hnew as (o2 & Ho2 & St2).
           exists o2. split; [exact Ho2|].
           eapply stays_in_bounds; [exact St2 | now apply Hin].
      * rewrite Hkept. intros j o' Hlt Hj Hnk Ht.
        assert (j <> k) by (intros ->; apply Hnk, in_or_app; right; now left).
        apply (Hdropold j o'); [lia | exact Hj | | exact Ht].
        intros Hin'. apply Hnk, in_or_app. now left.
    + split; [|split; [exact Hst | exact Hch]].
      constructor.
      * exact Hheap.
      * rewrite Hkept. exact Hkeepold.
      * rewrite Hkept. intros j o' Hlt Hj Hnk Ht.
        destruct (Nat.eq_dec j k) as [-> | Hne];
          [|apply (Hdropold j o'); [lia | exact Hj | exact Hnk | exact Ht]].
        destruct Hnew as (o2 & Ho2 & [[] _ _]).
        assert (o2 = o') by congruence. subst o2.
        destruct (Hout eq_refl) as [Hc | (Hb & _)]; [exact Hc|]. congruence.
  - unfold stepObject. rewrite Ek.
    split; [|split; [apply frame_leaves_refl | auto]].
    constructor; [exact Hh | |].
    + intros j Hj. destruct (Hk j Hj) as (Hlt & Ho). split; [lia | exact Ho].
    + intros j o' Hlt Hj Hnk Ht.
      assert (j <> k) by (intros ->; congruence).
      apply (Hd j o'); [lia | exact Hj | exact Hnk | exact Ht].
Qed.

Lemma loop_conducted (heap0 : list (GameObject num)) (targets : list nat)
  (n k : nat) (fr : Frame num) :
  conducted inp heap0 k fr ->
  let fr' := fold_left (stepObject P inp targets) (seq k n) fr in
  conducted inp heap0 (k + n) fr' /\
  frame_leaves (store fr) (store fr') /\
  (hasChanges fr = true -> hasChanges fr' = true).
Proof.
  revert k fr. induction n as [|n IH]; intros k fr Hinv; simpl.
  - rewrite Nat.add_0_r. split; [exact Hinv|].
    split; [apply frame_leaves_refl | auto].
  - replace (k + S n) with (S k + n) by lia.
    destruct (stepObject_conducted heap0 targets k fr Hinv) as (Hi & Hs & Hc).
    destruct (IH (S k) _ Hi) as (Hi' & Hs' & Hc').
    split; [exact Hi'|]. split; [eapply frame_leaves_trans; eassumption | auto].
Qed.

Lemma updateObjects_conducted (l : list (GameObject num)) st rnd uid :
  let fr := updateObjects P inp (mkFrame l [] [] st [] false rnd uid (hitListener inp)) in
  conducted inp l (length l) fr /\ frame_leaves st (store fr).
Proof.
  cbv zeta. unfold updateObjects. simpl.
  destruct (loop_conducted l (indices_where isTarget l) (length l) 0
              (mkFrame l [] [] st [] false rnd uid (hitListener inp))) as (Hi & Hs & _).
  - constructor; simpl.
    + apply Forall_Forall2_diag, Forall_forall. intros; apply persists_refl.
    + intros j [].
    + intros j o' Hlt. lia.
  - split; [exact Hi | exact Hs].
Qed.

(** One iteration of the loop sends the listener at most one hit that it
    lets through. *)
Lemma stepObject_takes (targets : list nat) (i : nat) (fr : Frame num) :
  frame_leaves (store fr) (store (stepObject P inp targets fr i)) /\
  takes_one_hit inp (listener fr) (store fr)
    (listener (stepObject P inp targets fr i))
    (store (stepObject P inp targets fr i)).
Proof.
  destruct (heap fr !! i) as [o|] eqn:Ei.
  - destruct (stepObject_conduct targets i fr o Ei)
      as (obj & fr1 & fr2 & keep & S1 & _ & S2 & -> & _ & _).
    destruct (settles_leaves fr fr1 S1) as (L1 & T1).
    destruct (settles_leaves _ fr2 S2) as (L2 & T2).
    cbn [store listener set_heap] in L2, T2.
    assert (H12 : frame_leaves (store fr) (store fr2) /\
                  takes_one_hit inp (listener fr) (store fr) (listener fr2)
                    (store fr2)).
    { split; [eapply frame_leaves_trans; eassumption|].
      eapply takes_one_hit_trans; eassumption. }
    destruct keep; exact H12.
  - unfold stepObject. rewrite Ei.
    split; [apply frame_leaves_refl | apply takes_one_hit_refl].
Qed.

Lemma loop_takes (targets : list nat) (n k : nat) (fr : Frame num) :
  let fr' := fold_left (stepObject P inp targets) (seq k n) fr in
  frame_leaves (store fr) (store fr') /\
  takes_one_hit inp (listener fr) (store fr) (listener fr') (store fr').
Proof.
  revert k fr. induction n as [|n IH]; intros k fr; simpl.
  - split; [apply frame_leaves_refl | apply takes_one_hit_refl].
  - destruct (stepObject_takes targets k fr) as (L1 & T1).
    destruct (IH (S k) (stepObject P inp targets fr k)) as (L2 & T2).
    split; [eapply frame_leaves_trans; eassumption|].
    eapply takes_one_hit_trans; eassumption.
Qed.

(** The listener of the frame is [checkHit] of Player.tsx, run on the
    player's refs and on the state of the store. *)
Lemma checkHit_is_the_players (p : Player.PlayerState num) (fr : Frame num) :
  listener fr
  = mkHitListener (Player.isInvincible p) (Player.lastDamageTime p)
      (isImmortalityActive (store fr)) ->
  let r := Player.checkHit (now inp) p (store fr) in
  store (checkHit inp fr) = snd (fst r) /\
  listener (checkHit inp fr)
  = mkHitListener (Player.isInvincible (fst (fst r)))
      (Player.lastDamageTime (fst (fst r)))
      (isImmortalityActive (store fr)).
Proof.
  intros Hl. cbv zeta. unfold checkHit, Player.checkHit. rewrite Hl.
  cbn [hl_isInvincible hl_isImmortalityActive].
  destruct (_ || _); cbn; [split; [reflexivity | exact Hl] | now split].
Qed.

(** X19.  A frame takes one life at most, and none from a player who is
    invincible or immortal.  The hit events it dispatches run the listener
    of Player.tsx at once; the first one the listener lets through calls
    [takeDamage()] and opens the invincibility window, which closes the
    listener for the rest of the frame.  So either the listener and the
    lives are as before, or the listener was open, is now closed with
    [Date.now()] as the time of the damage, and the lives are those
    [takeDamage()] leaves.  The frame touches no upgrade: maximal lives,
    damage per shot, the triple cannon, the two ability flags and the
    recorded distance are as before; the game time advances by the frame's
    capped delta while playing; the gems collected and the level never go
    down. *)
Theorem frame_takes_one_life_at_most (m : Manager num) st rnd uid :
  let out := useFrame P inp m st rnd uid in
  frame_leaves
    (match status (props inp) with
     | PLAYING => updateTime (safeDelta inp) st
     | _ => st
     end)
    (state out)
  /\ takes_one_hit inp (hitListener inp) st (heard out) (state out)
  /\ (listening (hitListener inp) = false ->
      heard out = hitListener inp /\ lives (state out) = lives st)
  /\ (forall (p : Player.PlayerState num) (fr : Frame num),
        listener fr
        = mkHitListener (Player.isInvincible p) (Player.lastDamageTime p)
            (isImmortalityActive (store fr)) ->
        let r := Player.checkHit (now inp) p (store fr) in
        store (checkHit inp fr) = snd (fst r) /\
        listener (checkHit inp fr)
        = mkHitListener (Player.isInvincible (fst (fst r)))
            (Player.lastDamageTime (fst (fst r)))
            (isImmortalityActive (store fr))).
Proof.
  cbv zeta.
  assert (Hmain :
    frame_leaves
      (match status (props inp) with
       | PLAYING => updateTime (safeDelta inp) st
       | _ => st
       end)
      (state (useFrame P inp m st rnd uid)) /\
    takes_one_hit inp (hitListener inp) st
      (heard (useFrame P inp m st rnd uid))
      (state (useFrame P inp m st rnd uid))).
  { destruct (status_playing_dec (status (props inp))) as [E | E].
    - unfold useFrame. rewrite E. cbn [state heard]. unfold updateObjects.
      cbn [heap].
      destruct (loop_takes (indices_where isTarget (objects m))
                  (length (objects m)) 0
                  (mkFrame (objects m) [] [] (updateTime (safeDelta inp) st) []
                     false rnd uid (hitListener inp))) as (Hl & Ht).
      cbn [store listener] in Hl, Ht. split; [exact Hl|].
      destruct Ht as [(Eh & El) | (Ho & Eh & El)].
      + left. split; [exact Eh | exact El].
      + right. split; [exact Ho | split; [exact Eh|]].
        rewrite El. now apply takeDamage_lives.
    - rewrite (useFrame_not_playing P inp m st rnd uid E). cbn [state heard].
      split; [|apply takes_one_hit_refl].
      destruct (status (props inp)); try apply frame_leaves_refl. congruence. }
  destruct Hmain as (Hl & Ht).
  split; [exact Hl|]. split; [exact Ht|]. split.
  - intros Hdeaf. destruct Ht as [(Eh & El) | (Ho & _)]; [now split|].
    rewrite Ho in Hdeaf. discriminate Hdeaf.
  - apply checkHit_is_the_players.
Qed.

Lemma ai_idle_on_inactive (obj : GameObject num) (fr : Frame num) :
  active obj = false ->
  dodgerAI P inp obj fr = (obj, fr) /\ shooterAI P inp obj fr = (obj, fr) /\
  flyerAI P inp obj fr = (obj, fr).
Proof.
  intros Ha. unfold dodgerAI, shooterAI, flyerAI. rewrite Ha.
  rewrite !andb_false_r. simpl. auto.
Qed.

(** X20.  An inactive object is inert.  Its iteration of the loop moves it
    and nothing else: no AI runs, nothing is emitted, spawned or drawn at
    random, the state of the store is untouched, and the object stays
    inactive; it is kept until, not being a bullet, it passes
    [REMOVE_DISTANCE], which drops it and marks the frame changed. *)
Theorem inactive_objects_are_inert (targets : list nat) (i : nat)
  (fr : Frame num) (o : GameObject num) :
  heap fr !! i = Some o ->
  active o = false ->
  let fr' := stepObject P inp targets fr i in
  let moved := moveObject inp o in
  heap fr' = <[i := moved]> (heap fr)
  /\ active moved = false
  /\ store fr' = store fr
  /\ effects fr' = effects fr
  /\ newSpawns fr' = newSpawns fr
  /\ randoms fr' = randoms fr
  /\ uuids fr' = uuids fr
  /\ if negb (ObjectType_eqb (type o) BULLET)
        && nltb REMOVE_DISTANCE (posZ moved)
     then keptObjects fr' = keptObjects fr /\ hasChanges fr' = true
     else keptObjects fr' = keptObjects fr ++ [i]
          /\ hasChanges fr' = hasChanges fr.
Proof.
  intros Hi Ha. cbv zeta. unfold stepObject. rewrite Hi.
  destruct (moveObject_persists o) as ([] & Hact).
  rewrite Ha in Hact.
  destruct (ai_idle_on_inactive (moveObject inp o) fr Hact) as (-> & -> & ->).
  rewrite Hact, ps_type0.
  destruct (negb _ && _); simpl; repeat split; auto.
Qed.

End ConductProperties.

(** * Where the spawning logic puts what it creates *)

Section PlacementProperties.
Context {num : Type} `{Number num}.
Variable P : Platform num.
Variable inp : FrameInput num.
Hypothesis Hrandom : random_index P.
Hypothesis Hshuffle : fair_shuffle P.
Hypothesis Hlanes : (0 <= laneCount (props inp))%Z.

Lemma pushes_refl Q (d : Director num) : pushes Q d d.
Proof. exists []. split; [now rewrite app_nil_r | constructor]. Qed.

Lemma pushes_trans Q (a b c : Director num) :
  pushes Q a b -> pushes Q b c -> pushes Q a c.
Proof.
  intros (e1 & H1 & F1) (e2 & H2 & F2).
  exists (e1 ++ e2). rewrite H2, H1, app_assoc. split; [reflexivity|].
  apply Forall_app. now split.
Qed.

Lemma pushes_same Q (d d' d'' : Director num) :
  pushed d'' = pushed d' -> pushes Q d d' -> pushes Q d d''.
Proof. intros Hp (e & He & Hf). exists e. now rewrite Hp. Qed.

Lemma pushes_push Q (mk : string -> GameObject num) (d d' : Director num) :
  (forall i, Q (mk i)) -> pushes Q d d' -> pushes Q d (push P mk d').
Proof.
  intros Hmk Hd. eapply pushes_trans; [exact Hd|].
  eexists [_]. split; [reflexivity|]. constructor; [apply Hmk | constructor].
Qed.

Lemma getRandomLane_on_track (n : nat) :
  (Z.abs (getRandomLane (random P n) (laneCount (props inp)))
   <= laneCount (props inp) / 2)%Z.
Proof using Hrandom Hlanes.
  unfold getRandomLane.
  assert (Hm : (0 <= laneCount (props inp) / 2)%Z) by (apply Z.div_pos; lia).
  pose proof (Hrandom n (laneCount (props inp) / 2 * 2 + 1)%Z ltac:(lia)).
  lia.
Qed.

Lemma shuffled_on_track (d : Director num) (k : nat) :
  (Z.abs (nth k (fst (shuffledLanes P inp d)) 0)
   <= laneCount (props inp) / 2)%Z.
Proof using Hshuffle Hlanes.
  assert (Hm : (0 <= laneCount (props inp) / 2)%Z) by (apply Z.div_pos; lia).
  unfold shuffledLanes.
  pose proof (Hshuffle (d_randoms d)
                (seqZ (- (laneCount (props inp) / 2))
                   (2 * (laneCount (props inp) / 2) + 1))) as Hperm.
  destruct (sortRandom P _ _) as [lanes calls]. cbn [fst] in *.
  destruct (nth_in_or_default k lanes 0%Z) as [Hin | ->]; [|lia].
  apply (Permutation_in _ (Permutation_sym Hperm)) in Hin.
  apply list_elem_of_In, elem_of_seqZ in Hin. lia.
Qed.

Lemma on_lane_at (lane : Z) (i : string) (t : ObjectType) (y z : num)
  (f : GameObject num -> GameObject num) :
  (Z.abs lane <= laneCount (props inp) / 2)%Z ->
  posX (f (object i t (laneX lane, y, z))) = laneX lane ->
  on_lane inp (f (object i t (laneX lane, y, z))).
Proof. intros Hl Hx. now exists lane. Qed.

Lemma pushes_inert Q (d d' : Director num) :
  pushed d' = pushed d -> pushes Q d d'.
Proof. intros Hp. exists []. split; [now rewrite app_nil_r | constructor]. Qed.

Ltac place :=
  repeat first
    [ apply pushes_refl
    | assumption
    | (apply pushes_inert; reflexivity)
    | apply (pushes_same _ _ _ (d_changed _)); [reflexivity|]
    | apply (pushes_same _ _ _ (d_letterSpawned _ _ _)); [reflexivity|]
    | apply (pushes_same _ _ _ (d_skip _ _)); [reflexivity|]
    | apply (pushes_same _ _ _ (snd (d_random _ _))); [reflexivity|] ].

Lemma available_index (collected : list Z) (index : Z) :
  In index
    (List.filter (fun i => negb (includes collected i))
       (seqZ 0 (Z.of_nat (length GEMINI_TARGET)))) ->
  (0 <= index < Z.of_nat (length GEMINI_TARGET))%Z /\
  includes collected index = false.
Proof.
  intros [Hin Hnot]%filter_In.
  apply list_elem_of_In, elem_of_seqZ in Hin.
  split; [lia | now apply negb_true_iff in Hnot].
Qed.

Lemma spawnLetter_places (z : num) (d : Director num) :
  pushes (well_placed inp) d (spawnLetter P inp z d).
Proof using Hrandom Hlanes.
  unfold spawnLetter. cbv beta iota zeta delta [d_random].
  pose proof (getRandomLane_on_track (d_randoms d)) as Hlane.
  set (lane := getRandomLane _ _) in *.
  match goal with |- context [List.filter ?f ?l] =>
    set (avail := List.filter f l) end.
  destruct avail as [|a rest] eqn:Ea.
  - place. apply pushes_push; [|place].
    intros i. split; [now exists lane | intros E; discriminate E].
  - place. apply pushes_push; [|place].
    intros i. split; [now exists lane|]. intros _.
    rewrite <- Ea.
    set (k := nfloorZ _).
    assert (Hk : (0 <= k < Z.of_nat (length avail))%Z).
    { apply Hrandom. rewrite Ea. simpl. lia. }
    assert (Hin : In (nth (Z.to_nat k) avail 0%Z) avail).
    { apply nth_In. lia. }
    destruct (available_index _ _ Hin) as [Hr Hnot].
    eexists. split; [reflexivity|]. split; [exact Hr|].
    split; [exact Hnot|]. split; reflexivity.
Qed.

Lemma spawnAliens_places (lanes : list Z) (z : num) (n k : nat)
  (d0 d : Director num) :
  (forall k, (Z.abs (nth k lanes 0) <= laneCount (props inp) / 2)%Z) ->
  pushes (well_placed inp) d0 d ->
  pushes (well_placed inp) d0 (spawnAliens P inp lanes z n k d).
Proof.
  intros Hl. revert k d. induction n as [|n IH]; intros k d Hd; [assumption|].
  cbn [spawnAliens]. apply IH. apply pushes_push; [|exact Hd].
  intros i. split; [now exists (nth k lanes 0%Z) | intros E; discriminate E].
Qed.

Lemma spawnHazards_places (lanes : list Z) (z : num) (n k : nat)
  (d0 d : Director num) :
  (forall k, (Z.abs (nth k lanes 0) <= laneCount (props inp) / 2)%Z) ->
  pushes (well_placed inp) d0 d ->
  pushes (well_placed inp) d0 (spawnHazards P inp lanes z n k d).
Proof.
  intros Hl. revert k d. induction n as [|n IH]; intros k d Hd; [assumption|].
  cbn [spawnHazards]. cbv beta iota zeta delta [d_random].
  destruct (_ && _); [|destruct (_ && _)]; cbv beta iota zeta.
  all: apply IH; destruct (nltb _ _); place.
  all: repeat (apply pushes_push;
    [intros i; split; [now exists (nth k lanes 0%Z) | intros E; discriminate E]|]);
    place; exact Hd.
Qed.

Lemma spawnObstacleOrGem_places (z : num) (d : Director num) :
  pushes (well_placed inp) d (spawnObstacleOrGem P inp z d).
Proof using Hrandom Hshuffle Hlanes.
  unfold spawnObstacleOrGem. cbv beta iota zeta delta [d_random].
  destruct (nltb _ _).
  - destruct (2 <=? _)%Z; cbv beta iota zeta delta [d_random];
      [destruct (nltb _ _)|].
    all: match goal with |- context [shuffledLanes P inp ?d'] =>
           pose proof (shuffled_on_track d') as Hl;
           destruct (shuffledLanes P inp d') as [lanes d''] eqn:Es;
           assert (Hp : pushed d'' = pushed d)
             by (unfold shuffledLanes in Es;
                 destruct (sortRandom P _ _); inversion Es; reflexivity)
         end; cbn [fst] in Hl; cbv beta iota zeta delta [d_random].
    + apply spawnAliens_places; [exact Hl|]. place.
      apply (pushes_same _ _ d); [exact Hp | apply pushes_refl].
    + apply spawnHazards_places; [exact Hl|]. place.
      apply (pushes_same _ _ d); [exact Hp | apply pushes_refl].
    + apply spawnHazards_places; [exact Hl|]. place.
      apply (pushes_same _ _ d); [exact Hp | apply pushes_refl].
  - apply pushes_push; [|place].
    intros i. split; [|intros E; discriminate E].
    eexists. split; [|reflexivity]. apply getRandomLane_on_track.
Qed.

Lemma spawnDirector_places (kept : list (GameObject num)) (traveled : num)
  (d : Director num) :
  pushes (well_placed inp) d (spawnDirector P inp kept traveled d).
Proof using Hrandom Hshuffle Hlanes.
  unfold spawnDirector.
  destruct (nltb (nopp SPAWN_DISTANCE) (furthestZ kept)); [|apply pushes_refl].
  destruct (nltb (spawnZ inp (furthestZ kept)) (furthestZ kept));
    [|apply pushes_refl].
  destruct (nleb _ _); [apply spawnLetter_places|].
  cbv beta iota zeta delta [d_random]. destruct (nltb _ _); place.
  eapply pushes_trans; [|apply spawnObstacleOrGem_places]. place.
Qed.




(** X21.  Provided [Math.floor(Math.random() * k)] is an index below [k]
    and the shuffle returns the lanes reordered, everything the spawning
    logic creates stands on a lane of the track (its x is [lane * LANE_WIDTH]
    for a lane within [-floor(laneCount/2) .. floor(laneCount/2)]), and every
    letter it creates is a letter of the word the store does not hold yet,
    with the glyph and the color of its index. *)
Theorem spawned_objects_are_well_placed (kept : list (GameObject num))
  (traveled : num) (d : Director num) :
  forall o, In o (pushed (spawnDirector P inp kept traveled d)) ->
    In o (pushed d) \/ well_placed inp o.
Proof using Hrandom Hshuffle Hlanes.
  intros o Hin.
  destruct (spawnDirector_places kept traveled d) as (extra & He & Hf).
  rewrite He in Hin. apply in_app_or in Hin as [Hin | Hin]; [now left|].
  right. rewrite Forall_forall in Hf. apply Hf, list_elem_of_In, Hin.
Qed.

Lemma take_drop_cons (lanes : list Z) (n k : nat) :
  k < length lanes ->
  take (S n) (drop k lanes) = nth k lanes 0%Z :: take n (drop (S k) lanes).
Proof.
  revert k. induction lanes as [|x lanes IH]; intros k Hk; simpl in Hk; [lia|].
  destruct k as [|k]; simpl; [now rewrite drop_0|].
  apply IH. lia.
Qed.

Lemma spawnAliens_lanes (lanes : list Z) (z : num) (n k : nat)
  (d : Director num) :
  k + n <= length lanes ->
  exists extra,
    pushed (spawnAliens P inp lanes z n k d) = pushed d ++ extra /\
    List.map posX (List.filter (fun o => isDamageSource (type o)) extra)
    = List.map laneX (take n (drop k lanes)).
Proof.
  revert k d. induction n as [|n IH]; intros k d Hk.
  - exists []. simpl. now rewrite app_nil_r.
  - cbn [spawnAliens].
    destruct (IH (S k) (push P
      (fun i =>
         set_maxHealth (Some (level (props inp) * 2)%Z)
           (set_health (Some (level (props inp) * 2)%Z)
              (set_hasFired (Some false)
                 (set_color (Some "#00ff00"%string)
                    (object i ALIEN (laneX (nth k lanes 0%Z), dec 15 1, z))))))
      d) ltac:(lia)) as (extra & He & Hm).
    eexists (_ :: extra). split.
    + rewrite He. simpl. rewrite <- app_assoc. reflexivity.
    + rewrite take_drop_cons by lia. simpl. now rewrite Hm.
Qed.

(** One round of the loop over the hazards: a hazard on the [k]-th lane,
    and maybe a gem above it. *)
Lemma spawnHazards_round (lanes : list Z) (z : num) (n k : nat)
  (d : Director num) :
  exists d' hazard gems,
    spawnHazards P inp lanes z (S n) k d = spawnHazards P inp lanes z n (S k) d'
    /\ pushed d' = (pushed d ++ [hazard]) ++ gems
    /\ isDamageSource (type hazard) = true
    /\ posX hazard = laneX (nth k lanes 0%Z)
    /\ List.filter (fun o => isDamageSource (type o)) gems = [].
Proof.
  cbn [spawnHazards]. cbv beta iota zeta delta [d_random].
  (destruct (_ && _); [|destruct (_ && _)]); cbv beta iota zeta;
    destruct (nltb _ _).
  all: eexists _, _, _; split; [reflexivity|].
  all: first
    [ split; [cbn [pushed push]; reflexivity | repeat split; reflexivity]
    | split; [cbn [pushed push]; symmetry; apply app_nil_r
             | repeat split; reflexivity] ].
Qed.

Lemma spawnHazards_lanes (lanes : list Z) (z : num) (n k : nat)
  (d : Director num) :
  k + n <= length lanes ->
  exists extra,
    pushed (spawnHazards P inp lanes z n k d) = pushed d ++ extra /\
    List.map posX (List.filter (fun o => isDamageSource (type o)) extra)
    = List.map laneX (take n (drop k lanes)).
Proof.
  revert k d. induction n as [|n IH]; intros k d Hk.
  - exists []. simpl. now rewrite app_nil_r.
  - destruct (spawnHazards_round lanes z n k d)
      as (d' & hazard & gems & -> & Hp & Hh & Hx & Hg).
    destruct (IH (S k) d' ltac:(lia)) as (extra & He & Hm).
    exists (hazard :: gems ++ extra). split.
    + rewrite He, Hp, <- !app_assoc. reflexivity.
    + rewrite take_drop_cons by lia.
      cbn [List.filter]. rewrite Hh. cbn [List.map].
      rewrite List.filter_app, Hg, Hx. cbn [app]. now rewrite Hm.
Qed.

Lemma shuffled_lanes (d : Director num) :
  List.NoDup (fst (shuffledLanes P inp d))
  /\ 1 <= length (fst (shuffledLanes P inp d))
  /\ pushed (snd (shuffledLanes P inp d)) = pushed d.
Proof using Hshuffle Hlanes.
  assert (Hm : (0 <= laneCount (props inp) / 2)%Z) by (apply Z.div_pos; lia).
  unfold shuffledLanes.
  pose proof (Hshuffle (d_randoms d)
                (seqZ (- (laneCount (props inp) / 2))
                   (2 * (laneCount (props inp) / 2) + 1))) as Hperm.
  destruct (sortRandom P _ _) as [lanes calls]. cbn [fst snd] in *.
  split; [|split; [|reflexivity]].
  - eapply Permutation_NoDup; [exact Hperm|].
    apply NoDup_ListNoDup, NoDup_seqZ.
  - rewrite <- (Permutation_length Hperm), length_seqZ. lia.
Qed.

Lemma spawnObstacleOrGem_lanes (z : num) (d : Director num) :
  exists extra lanes,
    pushed (spawnObstacleOrGem P inp z d) = pushed d ++ extra /\
    List.NoDup lanes /\
    List.map posX (List.filter (fun o => isDamageSource (type o)) extra)
    = List.map laneX lanes.
Proof using Hshuffle Hlanes.
  unfold spawnObstacleOrGem. cbv beta iota zeta delta [d_random].
  destruct (nltb _ _).
  - assert (Hsub : forall (lanes : list Z) n, List.NoDup lanes ->
              List.NoDup (take n (drop 0 lanes))).
    { intros lanes n Hnd. rewrite drop_0. apply NoDup_ListNoDup.
      eapply sublist_NoDup; [|apply sublist_take]. now apply NoDup_ListNoDup. }
    destruct (2 <=? _)%Z; cbv beta iota zeta delta [d_random];
      [destruct (nltb _ _)|].
    all: match goal with |- context [shuffledLanes P inp ?d'] =>
           destruct (shuffled_lanes d') as (Hnd & Hlen & Hp);
           destruct (shuffledLanes P inp d') as [lanes d'']
         end; cbn [fst snd] in *; cbv beta iota zeta delta [d_random].
    + match goal with |- context [spawnAliens P inp ?ls z ?n 0 ?d'] =>
        destruct (spawnAliens_lanes ls z n 0 d') as (extra & He & Hm);
          [destruct (nltb _ _); lia|];
        exists extra, (take n (drop 0 ls))
      end.
      split; [rewrite He; simpl; now rewrite Hp | split; [now apply Hsub | exact Hm]].
    + match goal with |- context [spawnHazards P inp ?ls z ?n 0 ?d'] =>
        destruct (spawnHazards_lanes ls z n 0 d') as (extra & He & Hm);
          [repeat destruct (nltb _ _); lia|];
        exists extra, (take n (drop 0 ls))
      end.
      split; [rewrite He; simpl; now rewrite Hp | split; [now apply Hsub | exact Hm]].
    + match goal with |- context [spawnHazards P inp ?ls z ?n 0 ?d'] =>
        destruct (spawnHazards_lanes ls z n 0 d') as (extra & He & Hm);
          [repeat destruct (nltb _ _); lia|];
        exists extra, (take n (drop 0 ls))
      end.
      split; [rewrite He; simpl; now rewrite Hp | split; [now apply Hsub | exact Hm]].
  - eexists [_], []. split; [reflexivity|]. split; [constructor | reflexivity].
Qed.

(** X24.  Provided the shuffle returns the lanes reordered, the hazards and
    aliens the spawning logic creates in one frame stand on lanes that are
    all different: no two of them share a lane (a bonus gem shares the lane
    of the hazard it floats above). *)
Theorem hazards_of_one_spawn_take_different_lanes
  (kept : list (GameObject num)) (traveled : num) (d : Director num) :
  exists extra lanes,
    pushed (spawnDirector P inp kept traveled d) = pushed d ++ extra /\
    List.NoDup lanes /\
    List.map posX (List.filter (fun o => isDamageSource (type o)) extra)
    = List.map laneX lanes.
Proof using Hshuffle Hlanes.
  assert (Hnone : exists extra lanes,
            pushed d = pushed d ++ extra /\ List.NoDup lanes /\
            List.map posX (List.filter (fun o => isDamageSource (type o)) extra)
            = List.map (@laneX num _) lanes).
  { exists [], []. rewrite app_nil_r. repeat split. constructor. }
  unfold spawnDirector.
  destruct (nltb (nopp SPAWN_DISTANCE) (furthestZ kept)); [|exact Hnone].
  destruct (nltb (spawnZ inp (furthestZ kept)) (furthestZ kept));
    [|exact Hnone].
  destruct (nleb _ _).
  - unfold spawnLetter. cbv beta iota zeta delta [d_random].
    match goal with |- context [List.filter ?f ?l] =>
      destruct (List.filter f l) end; simpl;
      (eexists [_], []; split; [reflexivity|]; split; [constructor | reflexivity]).
  - cbv beta iota zeta delta [d_random]. destruct (nltb _ _); [|exact Hnone].
    match goal with |- context [spawnObstacleOrGem P inp ?z ?d'] =>
      destruct (spawnObstacleOrGem_lanes z d') as (extra & lanes & He & Hnd & Hm)
    end.
    exists extra, lanes. split; [|split; assumption].
    simpl. rewrite He. reflexivity.
Qed.

End PlacementProperties.

(** * The ids of the objects *)

Section IdentityProperties.
Context {num : Type} `{Number num}.
Variable P : Platform num.
Variable inp : FrameInput num.

Lemma numbered_nil (uid : nat) : numbered P uid [].
Proof. reflexivity. Qed.

Lemma numbered_app (uid : nat) (l l' : list (GameObject num)) :
  numbered P uid l -> numbered P (uid + length l) l' ->
  numbered P uid (l ++ l').
Proof.
  unfold numbered. intros Hl Hl'.
  rewrite List.map_app, length_app, seq_app, List.map_app. congruence.
Qed.

Lemma numbered_one (uid : nat) (o : GameObject num) :
  id o = uuidv4 P uid -> numbered P uid [o].
Proof. unfold numbered. simpl. now intros ->. Qed.

Lemma frame_issues_refl (fr : Frame num) : frame_issues P fr fr.
Proof.
  exists []. rewrite app_nil_r. simpl. split; [reflexivity|].
  split; [apply numbered_nil | lia].
Qed.

Lemma frame_issues_trans (a b c : Frame num) :
  frame_issues P a b -> frame_issues P b c -> frame_issues P a c.
Proof.
  intros (e1 & H1 & N1 & U1) (e2 & H2 & N2 & U2).
  exists (e1 ++ e2). split; [rewrite H2, H1; now rewrite app_assoc|].
  split.
  - apply numbered_app; [exact N1|]. now rewrite <- U1.
  - rewrite U2, U1, length_app. lia.
Qed.

Lemma frame_issues_same (a b c : Frame num) :
  newSpawns c = newSpawns b -> uuids c = uuids b ->
  frame_issues P a b -> frame_issues P a c.
Proof. intros Hn Hu (e & He & N & U). exists e. now rewrite Hn, Hu. Qed.

Lemma settles_issues (fr fr' : Frame num) :
  settles P inp fr fr' -> frame_issues P fr fr'.
Proof.
  induction 1 as [|fr' e _ IH|fr' _ IH|fr' f _ _ IH|fr' _ IH|fr' mk _ Hid _ IH
                 |fr' j _ IH|fr' j target _ _ IH|fr' _ IH];
    try (apply (frame_issues_same fr fr'); [reflexivity | reflexivity | exact IH]).
  - apply frame_issues_refl.
  - eapply frame_issues_trans; [exact IH|].
    eexists [_]. split; [reflexivity|]. split; [|simpl; lia].
    apply numbered_one, Hid.
  - destruct (dispatchPlayerHit_rest inp fr') as (_ & _ & Hs & _ & _ & Hu).
    apply (frame_issues_same fr fr'); [exact Hs | exact Hu | exact IH].
Qed.

Lemma stepObject_issues (targets : list nat) (i : nat) (fr : Frame num) :
  frame_issues P fr (stepObject P inp targets fr i).
Proof.
  destruct (heap fr !! i) as [o|] eqn:Ei.
  - destruct (stepObject_conduct P inp targets i fr o Ei)
      as (obj & fr1 & fr2 & keep & S1 & _ & S2 & -> & _ & _).
    apply settles_issues in S1. apply settles_issues in S2.
    assert (H12 : frame_issues P fr fr2).
    { eapply frame_issues_trans; [exact S1|].
      destruct S2 as (e & He & N & U). exists e. simpl in *. now split. }
    destruct keep; [|exact H12].
    apply (frame_issues_same fr fr2); [reflexivity | reflexivity | exact H12].
  - unfold stepObject. rewrite Ei. apply frame_issues_refl.
Qed.

Lemma stepObject_kept (targets : list nat) (i : nat) (fr : Frame num) :
  keptObjects (stepObject P inp targets fr i) = keptObjects fr
  \/ keptObjects (stepObject P inp targets fr i) = keptObjects fr ++ [i].
Proof.
  destruct (heap fr !! i) as [o|] eqn:Ei.
  - destruct (stepObject_conduct P inp targets i fr o Ei)
      as (obj & fr1 & fr2 & keep & S1 & _ & S2 & -> & _ & _).
    destruct (settles_flags P inp fr fr1 S1) as (K1 & _ & _).
    destruct (settles_flags P inp _ fr2 S2) as (K2 & _ & _).
    simpl in K2. destruct keep; simpl; rewrite K2, K1; auto.
  - unfold stepObject. rewrite Ei. now left.
Qed.

Lemma loop_issues (targets : list nat) (n k : nat) (fr : Frame num) :
  Forall (fun j => j < k) (keptObjects fr) -> List.NoDup (keptObjects fr) ->
  let fr' := fold_left (stepObject P inp targets) (seq k n) fr in
  frame_issues P fr fr' /\
  Forall (fun j => j < k + n) (keptObjects fr') /\
  List.NoDup (keptObjects fr').
Proof.
  revert k fr. induction n as [|n IH]; intros k fr Hlt Hnd; simpl.
  - rewrite Nat.add_0_r. split; [apply frame_issues_refl | now split].
  - replace (k + S n) with (S k + n) by lia.
    destruct (IH (S k) (stepObject P inp targets fr k)) as (Hi & Hk & Hn).
    + destruct (stepObject_kept targets k fr) as [-> | ->].
      * eapply Forall_impl; [exact Hlt|]. simpl. lia.
      * apply Forall_app. split; [|repeat constructor].
        eapply Forall_impl; [exact Hlt|]. simpl. lia.
    + destruct (stepObject_kept targets k fr) as [-> | ->]; [exact Hnd|].
      apply NoDup_ListNoDup, NoDup_app. split; [now apply NoDup_ListNoDup|].
      split; [|apply NoDup_singleton].
      intros j Hj Hj'. apply list_elem_of_In in Hj'. destruct Hj' as [<- | []].
      rewrite Forall_forall in Hlt. specialize (Hlt _ Hj). lia.
    + split; [|now split].
      eapply frame_issues_trans; [apply stepObject_issues | exact Hi].
Qed.

Lemma updateObjects_issues (l : list (GameObject num)) st rnd uid :
  let fr := updateObjects P inp (mkFrame l [] [] st [] false rnd uid (hitListener inp)) in
  numbered P uid (newSpawns fr) /\ uuids fr = uid + length (newSpawns fr) /\
  List.NoDup (keptObjects fr).
Proof.
  cbv zeta. unfold updateObjects. cbn [heap].
  destruct (loop_issues (indices_where isTarget l) (length l) 0
              (mkFrame l [] [] st [] false rnd uid (hitListener inp)))
    as ((e & He & N & U) & _ & Hn); [constructor | constructor |].
  cbn [newSpawns uuids app] in He, N, U. rewrite He. now split.
Qed.

(** *** The spawning logic *)

Lemma director_issues_refl (d : Director num) : director_issues P d d.
Proof.
  exists []. rewrite app_nil_r. simpl. split; [reflexivity|].
  split; [apply numbered_nil | lia].
Qed.

Lemma director_issues_same (d d' d'' : Director num) :
  pushed d'' = pushed d' -> d_uuids d'' = d_uuids d' ->
  director_issues P d d' -> director_issues P d d''.
Proof. intros Hp Hu (e & He & N & U). exists e. now rewrite Hp, Hu. Qed.

Lemma director_issues_push (mk : string -> GameObject num)
  (d d' : Director num) :
  (forall u, id (mk u) = u) ->
  director_issues P d d' -> director_issues P d (push P mk d').
Proof.
  intros Hid (e & He & N & U). exists (e ++ [mk (uuidv4 P (d_uuids d'))]).
  cbn [push pushed d_uuids]. split; [now rewrite He, app_assoc|]. split.
  - apply numbered_app; [exact N|]. apply numbered_one. now rewrite Hid, U.
  - rewrite U, length_app. simpl. lia.
Qed.

Lemma director_issues_inert (d d' : Director num) :
  pushed d' = pushed d -> d_uuids d' = d_uuids d -> director_issues P d d'.
Proof.
  intros Hp Hu. apply (director_issues_same d d d' Hp Hu), director_issues_refl.
Qed.

Ltac number :=
  repeat first
    [ apply director_issues_refl
    | assumption
    | (apply director_issues_inert; reflexivity)
    | apply (director_issues_same _ (d_changed _)); [reflexivity|reflexivity|]
    | apply (director_issues_same _ (d_letterSpawned _ _ _));
        [reflexivity|reflexivity|]
    | apply (director_issues_same _ (d_skip _ _)); [reflexivity|reflexivity|]
    | apply (director_issues_same _ (snd (d_random _ _)));
        [reflexivity|reflexivity|]
    | apply director_issues_push; [intros; reflexivity|] ].

Lemma spawnLetter_issues (z : num) (d : Director num) :
  director_issues P d (spawnLetter P inp z d).
Proof.
  unfold spawnLetter. cbv beta iota zeta delta [d_random].
  match goal with |- context [List.filter ?f ?l] =>
    destruct (List.filter f l) end; number.
Qed.

Lemma spawnAliens_issues (lanes : list Z) (z : num) (n k : nat)
  (d0 d : Director num) :
  director_issues P d0 d ->
  director_issues P d0 (spawnAliens P inp lanes z n k d).
Proof.
  revert k d. induction n as [|n IH]; intros k d Hd; [assumption|].
  cbn [spawnAliens]. apply IH. number.
Qed.

Lemma spawnHazards_issues (lanes : list Z) (z : num) (n k : nat)
  (d0 d : Director num) :
  director_issues P d0 d ->
  director_issues P d0 (spawnHazards P inp lanes z n k d).
Proof.
  revert k d. induction n as [|n IH]; intros k d Hd; [assumption|].
  cbn [spawnHazards]. cbv beta iota zeta delta [d_random].
  destruct (_ && _); [|destruct (_ && _)]; cbv beta iota zeta.
  all: apply IH; destruct (nltb _ _); number.
Qed.

Lemma spawnObstacleOrGem_issues (z : num) (d : Director num) :
  director_issues P d (spawnObstacleOrGem P inp z d).
Proof.
  unfold spawnObstacleOrGem. cbv beta iota zeta delta [d_random].
  destruct (nltb _ _); [|number].
  unfold shuffledLanes.
  destruct (2 <=? _)%Z; cbv beta iota zeta delta [d_random];
    [destruct (nltb _ _)|].
  all: destruct (sortRandom P _ _) as [lanes calls];
    cbv beta iota zeta delta [d_random].
  - apply spawnAliens_issues. number.
  - apply spawnHazards_issues. number.
  - apply spawnHazards_issues. number.
Qed.

Lemma spawnDirector_issues (kept : list (GameObject num)) (traveled : num)
  (d : Director num) :
  director_issues P d (spawnDirector P inp kept traveled d).
Proof.
  unfold spawnDirector.
  destruct (nltb (nopp SPAWN_DISTANCE) (furthestZ kept));
    [|apply director_issues_refl].
  destruct (nltb (spawnZ inp (furthestZ kept)) (furthestZ kept));
    [|apply director_issues_refl].
  destruct (nleb _ _); [apply spawnLetter_issues|].
  cbv beta iota zeta delta [d_random]. destruct (nltb _ _); number.
  destruct (spawnObstacleOrGem_issues (spawnZ inp (furthestZ kept))
    {| pushed := pushed d; d_hasChanges := d_hasChanges d;
       d_nextLetterDistance := d_nextLetterDistance d;
       d_randoms := S (d_randoms d); d_uuids := d_uuids d |})
    as (e & He & N & U).
  exists e. now split.
Qed.

(** *** The store *)

Lemma issued_later (uid uid' : nat) (l : list (GameObject num)) :
  uid <= uid' -> issued_before P uid l -> issued_before P uid' l.
Proof.
  intros Hle (ks & Hm & Hn & Hf). exists ks. split; [exact Hm|].
  split; [exact Hn|]. eapply Forall_impl; [exact Hf|]. simpl. lia.
Qed.

Lemma issued_numbered (uid : nat) (l extra : list (GameObject num)) :
  issued_before P uid l -> numbered P uid extra ->
  issued_before P (uid + length extra) (l ++ extra).
Proof.
  intros (ks & Hm & Hn & Hf) Hx. exists (ks ++ seq uid (length extra)).
  rewrite !List.map_app, Hm, Hx. split; [reflexivity|]. split.
  - apply NoDup_ListNoDup, NoDup_app. split; [now apply NoDup_ListNoDup|].
    split; [|apply NoDup_ListNoDup, List.seq_NoDup].
    intros j Hj Hj'. apply list_elem_of_In in Hj'. apply in_seq in Hj'.
    rewrite Forall_forall in Hf. specialize (Hf _ Hj). lia.
  - apply Forall_app. split.
    + eapply Forall_impl; [exact Hf|]. simpl. lia.
    + apply Forall_forall. intros j Hj%list_elem_of_In%in_seq. lia.
Qed.

Lemma issued_one (uid : nat) (l : list (GameObject num))
  (o : GameObject num) :
  issued_before P uid l -> id o = uuidv4 P uid ->
  issued_before P (S uid) (l ++ [o]).
Proof.
  intros Hi Ho. replace (S uid) with (uid + length [o]) by (simpl; lia).
  apply issued_numbered; [exact Hi | now apply numbered_one].
Qed.

Lemma issued_filter_in (f : GameObject num -> bool)
  (l : list (GameObject num)) (ks : list nat) :
  List.map id l = List.map (uuidv4 P) ks -> List.NoDup ks ->
  exists ks',
    List.map id (List.filter f l) = List.map (uuidv4 P) ks' /\
    List.NoDup ks' /\ incl ks' ks.
Proof.
  revert ks. induction l as [|o l IH]; intros ks Hm Hn.
  - exists []. repeat split; [constructor | intros k []].
  - destruct ks as [|k ks]; [discriminate Hm|].
    simpl in Hm. injection Hm as Ho Hm.
    inversion Hn as [|? ? Hnotin Hn']; subst.
    destruct (IH ks Hm Hn') as (ks' & Hm' & Hn'' & Hsub).
    simpl. destruct (f o).
    + exists (k :: ks'). simpl. rewrite Ho, Hm'. split; [reflexivity|]. split.
      * constructor; [|exact Hn'']. intros Hin. apply Hnotin, Hsub, Hin.
      * intros j [<- | Hj]; [now left | right; apply Hsub, Hj].
    + exists ks'. split; [exact Hm'|]. split; [exact Hn''|].
      intros j Hj. right. apply Hsub, Hj.
Qed.

Lemma issued_filter (f : GameObject num -> bool) (uid : nat)
  (l : list (GameObject num)) :
  issued_before P uid l -> issued_before P uid (List.filter f l).
Proof.
  intros (ks & Hm & Hn & Hf).
  destruct (issued_filter_in f l ks Hm Hn) as (ks' & Hm' & Hn' & Hsub).
  exists ks'. split; [exact Hm'|]. split; [exact Hn'|].
  rewrite !Forall_forall in *. intros j Hj%list_elem_of_In.
  apply Hf, list_elem_of_In, Hsub, Hj.
Qed.

Lemma ids_lookup (l : list (GameObject num)) (ks : list nat) :
  List.map id l = List.map (uuidv4 P) ks ->
  forall j o, l !! j = Some o ->
    exists k, ks !! j = Some k /\ id o = uuidv4 P k.
Proof.
  revert ks. induction l as [|a l IH]; intros ks Hm j o Hj; [discriminate Hj|].
  destruct ks as [|k ks]; [discriminate Hm|].
  simpl in Hm. injection Hm as Ha Hm.
  destruct j as [|j]; simpl in Hj.
  - injection Hj as <-. now exists k.
  - apply (IH ks Hm j o Hj).
Qed.

Lemma persists_ids (l l' : list (GameObject num)) :
  Forall2 (persists inp) l l' -> List.map id l' = List.map id l.
Proof.
  induction 1 as [|o o' l l' Hp _ IH]; [reflexivity|].
  simpl. now rewrite IH, (ps_id _ _ _ Hp).
Qed.

Lemma carried_issued (heap1 : list (GameObject num)) (ks kept : list nat) :
  List.map id heap1 = List.map (uuidv4 P) ks -> List.NoDup ks ->
  List.NoDup kept ->
  exists ks',
    List.map id (omap (fun i => heap1 !! i) kept) = List.map (uuidv4 P) ks' /\
    List.NoDup ks' /\
    forall k, In k ks' -> exists j, In j kept /\ ks !! j = Some k.
Proof.
  intros Hm Hn. induction kept as [|j kept IH]; intros Hk.
  - exists []. repeat split; [constructor | intros k []].
  - inversion Hk as [|? ? Hnotin Hk']; subst.
    destruct (IH Hk') as (ks' & Hm' & Hn' & Hfrom).
    cbn [omap list_omap]. destruct (heap1 !! j) as [o|] eqn:Ej.
    + destruct (ids_lookup heap1 ks Hm j o Ej) as (k & Hkj & Hid).
      exists (k :: ks'). simpl. rewrite Hid. split; [now f_equal|]. split.
      * constructor; [|exact Hn']. intros Hin.
        destruct (Hfrom k Hin) as (j' & Hj' & Hkj').
        assert (j = j').
        { eapply NoDup_lookup; [apply NoDup_ListNoDup, Hn | exact Hkj
                               | exact Hkj']. }
        subst j'. now apply Hnotin.
      * intros k' [<- | Hin]; [exists j; split; [now left | exact Hkj]|].
        destruct (Hfrom k' Hin) as (j' & Hj' & Hkj').
        exists j'. split; [now right | exact Hkj'].
    + exists ks'. split; [exact Hm'|]. split; [exact Hn'|].
      intros k' Hin. destruct (Hfrom k' Hin) as (j' & Hj' & Hkj').
      exists j'. split; [now right | exact Hkj'].
Qed.

Lemma useFrame_issued (m : Manager num) st rnd uid :
  issued_before P uid (objects m) ->
  let out := useFrame P inp m st rnd uid in
  uid <= uuidsUsed out /\
  issued_before P (uuidsUsed out) (objects (manager out)).
Proof.
  intros Hi. cbv zeta. unfold useFrame.
  destruct (status (props inp)) eqn:E;
    try (cbn [uuidsUsed manager]; split; [lia | exact Hi]).
  destruct (updateObjects_conducted P inp (objects m)
              (updateTime (safeDelta inp) st) rnd uid) as ([Hh _ _] & _).
  destruct (updateObjects_issues (objects m) (updateTime (safeDelta inp) st)
              rnd uid) as (N & U & Hn).
  set (fr := updateObjects P inp _) in *.
  destruct (spawnDirector_issues (keptAfterLoop fr)
              (nadd (distanceTraveled m) (dist inp))
              (mkDirector [] (hasChanges fr) (nextLetterDistance m)
                 (randoms fr) (uuids fr))) as (e & He & Ne & Ue).
  cbn [pushed d_uuids app] in He, Ne, Ue.
  set (d := spawnDirector P inp _ _ _) in *.
  cbn [uuidsUsed manager objects]. split; [lia|].
  apply persists_ids in Hh.
  destruct Hi as (ks & Hm & Hnd & Hf).
  destruct (d_hasChanges d).
  - rewrite He, Ue. unfold keptAfterLoop.
    apply issued_numbered; [|exact Ne]. rewrite U.
    apply issued_numbered; [|exact N].
    destruct (carried_issued (heap fr) ks (keptObjects fr)
                ltac:(congruence) Hnd Hn) as (ks' & Hm' & Hn' & Hfrom).
    exists ks'. split; [exact Hm'|]. split; [exact Hn'|].
    rewrite !Forall_forall in *. intros k Hk%list_elem_of_In.
    destruct (Hfrom k Hk) as (j & _ & Hj).
    apply Hf. eapply list_elem_of_lookup_2, Hj.
  - apply (issued_later uid); [lia|]. exists ks. split; [congruence|].
    now split.
Qed.

Lemma handlePlayerShoot_issued (status : GameStatus) (at_ : Vec3 num)
  (angle : num) (uid : nat) (m : Manager num) :
  issued_before P uid (objects m) ->
  issued_before P (match status with PLAYING => S uid | _ => uid end)
    (objects (handlePlayerShoot P status at_ angle uid m)).
Proof.
  intros Hi. destruct status; try exact Hi.
  destruct at_ as [[x y] z]. cbn [handlePlayerShoot objects].
  now apply issued_one.
Qed.

Lemma deliver_issued (status : GameStatus)
  (signals : list (Player.Signal num)) (uid : nat) (m : Manager num) :
  issued_before P uid (objects m) ->
  uid <= snd (Player.deliver P status signals uid m) /\
  issued_before P (snd (Player.deliver P status signals uid m))
    (objects (fst (Player.deliver P status signals uid m))).
Proof.
  revert uid m. induction signals as [|sg signals IH]; intros uid m Hi.
  - simpl. split; [lia | exact Hi].
  - destruct sg as [| |at_ angle]; cbn [Player.deliver]; try (apply IH, Hi).
    destruct (IH _ _ (handlePlayerShoot_issued status at_ angle uid m Hi))
      as (Hle & Hi').
    split; [|exact Hi']. destruct status; lia.
Qed.

Lemma onTransition_issued (status : GameStatus) (level : Z)
  (refs : Transitions.Refs) (m : Manager num) (st : GameState num)
  (uid : nat) :
  issued_before P uid (objects m) ->
  let r := Transitions.onTransition P status level refs m st uid in
  uid <= snd r /\ issued_before P (snd r) (objects (snd (fst (fst r)))).
Proof.
  intros Hi. cbv zeta. unfold Transitions.onTransition.
  destruct (_ || _ || _); cbn [fst snd objects].
  - split; [lia|]. exists []. repeat split; constructor.
  - destruct (_ && _); [|destruct (_ || _)]; cbn [fst snd objects];
      try (split; [lia | exact Hi]).
    split; [lia|].
    apply issued_one; [now apply issued_filter | reflexivity].
Qed.

Lemma issued_distinct (uid : nat) (l : list (GameObject num)) :
  (forall a b, uuidv4 P a = uuidv4 P b -> a = b) ->
  issued_before P uid l -> List.NoDup (List.map id l).
Proof.
  intros Hinj (ks & -> & Hn & _). apply NoDup_ListNoDup.
  assert (Inj : Inj eq eq (uuidv4 P)) by (intros a b; apply Hinj).
  apply (NoDup_fmap_2 (uuidv4 P)). now apply NoDup_ListNoDup.
Qed.

(** X25.  Every object gets its id from a call to [uuidv4()] of its own.
    If the ids of the objects in the store are results of distinct calls to
    [uuidv4()] made so far, they still are after a frame, after the shoot
    events of the player have been delivered and after the transition
    effect has run, the calls these make included; none of them takes a call
    back.  So as long as [uuidv4()] does not return the same id twice, no two
    objects of the store share an id. *)
Theorem ids_are_issued_once (m : Manager num) (st : GameState num)
  (rnd uid : nat) :
  issued_before P uid (objects m) ->
  (let out := useFrame P inp m st rnd uid in
   uid <= uuidsUsed out /\
   issued_before P (uuidsUsed out) (objects (manager out))) /\
  (forall status signals,
     let r := Player.deliver P status signals uid m in
     uid <= snd r /\ issued_before P (snd r) (objects (fst r))) /\
  (forall status level refs,
     let r := Transitions.onTransition P status level refs m st uid in
     uid <= snd r /\ issued_before P (snd r) (objects (snd (fst (fst r))))) /\
  ((forall a b, uuidv4 P a = uuidv4 P b -> a = b) ->
   List.NoDup (List.map id (objects m))).
Proof.
  intros Hi. split; [apply useFrame_issued, Hi|].
  split; [intros status signals; apply deliver_issued, Hi|].
  split; [intros status level refs; apply onTransition_issued, Hi|].
  intros Hinj. apply (issued_distinct uid _ Hinj Hi).
Qed.

End IdentityProperties.

(** * What a frame carries over *)

Section CarriedProperties.
Context {num : Type} `{Number num}.
Variable P : Platform num.
Variable inp : FrameInput num.

Lemma carries_impl (R R' : GameObject num -> GameObject num -> Prop)
  (Q Q' : GameObject num -> Prop) (l l' : list (GameObject num)) (n : nat) :
  (forall o o', R o o' -> R' o o') -> (forall o, Q o -> Q' o) ->
  carries R Q l l' n -> carries R' Q' l l' n.
Proof.
  intros HR HQ (js & carried & created & Hl & Hn & Hs & Hc & Hq).
  exists js, carried, created.
  split; [exact Hl | split; [exact Hn | split; [exact Hs|]]]. split.
  - eapply Forall2_impl; [exact Hc|].
    intros j o' (o & Ho & Hr). exists o. split; [exact Ho | now apply HR].
  - eapply Forall_impl; [exact Hq | exact HQ].
Qed.

(** The loop keeps the objects in the order of the store. *)
Lemma loop_kept_ordered (targets : list nat) (n k : nat) (fr : Frame num) :
  sublist (keptObjects fr) (seq 0 k) ->
  sublist (keptObjects (fold_left (stepObject P inp targets) (seq k n) fr))
    (seq 0 (k + n)).
Proof.
  revert k fr. induction n as [|n IH]; intros k fr Hs; simpl.
  - now rewrite Nat.add_0_r.
  - replace (k + S n) with (S k + n) by lia. apply IH.
    rewrite seq_S. simpl.
    destruct (stepObject_kept P inp targets k fr) as [-> | ->].
    + now apply sublist_inserts_r.
    + now apply sublist_app.
Qed.

Lemma kept_carried (l heap1 : list (GameObject num)) (kept : list nat) :
  Forall2 (persists inp) l heap1 ->
  (forall j, In j kept -> exists o', heap1 !! j = Some o' /\ in_bounds o') ->
  Forall2 (fun j o' => exists o, l !! j = Some o /\
                         persists inp o o' /\ in_bounds o')
    kept (omap (fun j => heap1 !! j) kept).
Proof.
  intros Hh. induction kept as [|j kept IH]; intros Hk; [constructor|].
  destruct (Hk j (or_introl eq_refl)) as (o' & Ho' & Hb).
  cbn [omap list_omap]. rewrite Ho'. constructor.
  - destruct (Forall2_lookup_r _ _ _ _ _ Hh Ho') as (o & Ho & Hp).
    exists o. split; [exact Ho | split; [exact Hp | exact Hb]].
  - apply IH. intros j' Hj'. apply Hk. now right.
Qed.

(** What a frame makes of the store: it leaves it in place, or replaces it
    by the objects it keeps, in their order and in bounds, followed by the
    objects created by its calls to [uuidv4()]. *)
Lemma useFrame_carries (m : Manager num) st rnd uid :
  status (props inp) = PLAYING ->
  let out := useFrame P inp m st rnd uid in
  (renderTrigger (manager out) = renderTrigger m /\
   Forall2 (persists inp) (objects m) (objects (manager out)) /\
   Forall (fun o' => type o' <> BULLET -> in_bounds o')
     (objects (manager out)))
  \/
  (renderTrigger (manager out) = S (renderTrigger m) /\
   carries (fun o o' => persists inp o o' /\ in_bounds o')
     (fun o' => fresh inp o' \/ exists z, spawned_at inp z o')
     (objects m) (objects (manager out)) (uuidsUsed out - uid)).
Proof.
  intros E. cbv zeta. unfold useFrame. rewrite E.
  destruct (updateObjects_conducted P inp (objects m)
              (updateTime (safeDelta inp) st) rnd uid) as ([Hh Hk Hd] & _).
  destruct (updateObjects_inv P inp (objects m)
              (updateTime (safeDelta inp) st) rnd uid) as ([_ _ Hsp] & _).
  destruct (updateObjects_issues P inp (objects m)
              (updateTime (safeDelta inp) st) rnd uid) as (_ & Hu & _).
  assert (Hord : sublist
            (keptObjects
               (updateObjects P inp
                  (mkFrame (objects m) [] [] (updateTime (safeDelta inp) st)
                     [] false rnd uid (hitListener inp))))
            (seq 0 (length (objects m)))).
  { unfold updateObjects. cbn [heap].
    apply (loop_kept_ordered _ (length (objects m)) 0). constructor. }
  set (fr := updateObjects P inp _) in *.
  destruct (director_pushed P inp (keptAfterLoop fr)
              (nadd (distanceTraveled m) (dist inp)) (hasChanges fr)
              (nextLetterDistance m) (randoms fr) (uuids fr))
    as ((z & Hz) & Hc).
  destruct (spawnDirector_issues P inp (keptAfterLoop fr)
              (nadd (distanceTraveled m) (dist inp))
              (mkDirector [] (hasChanges fr) (nextLetterDistance m)
                 (randoms fr) (uuids fr))) as (e & He & _ & Ue).
  cbv zeta in Hz, Hc. cbn [pushed d_uuids app] in He, Ue.
  cbn [manager objects renderTrigger uuidsUsed].
  destruct (d_hasChanges _) eqn:Ed.
  - right. split; [reflexivity|].
    exists (keptObjects fr), (omap (fun i => heap fr !! i) (keptObjects fr)),
      (newSpawns fr ++ pushed
         (spawnDirector P inp (keptAfterLoop fr)
            (nadd (distanceTraveled m) (dist inp))
            (mkDirector [] (hasChanges fr) (nextLetterDistance m)
               (randoms fr) (uuids fr)))).
    split; [unfold keptAfterLoop; now rewrite <- app_assoc|]. split.
    { rewrite He, Ue, Hu, length_app. lia. }
    split; [exact Hord|]. split.
    + apply kept_carried; [exact Hh|].
      intros j Hj. now destruct (Hk j Hj) as (_ & Ho).
    + apply Forall_app. split.
      * eapply Forall_impl; [exact Hsp|]. intros; now left.
      * eapply Forall_impl; [exact Hz|]. intros; right; now exists z.
  - left. split; [reflexivity|]. split; [exact Hh|].
    assert (Hno : hasChanges fr = false).
    { apply not_true_is_false. intros Eh. specialize (Hc Eh). congruence. }
    apply Forall_lookup. intros j o' Hj Ht.
    destruct (in_dec Nat.eq_dec j (keptObjects fr)) as [Hin | Hnin].
    + destruct (Hk j Hin) as (_ & o2 & Ho2 & Hb). congruence.
    + assert (Hlt : j < length (objects m)).
      { rewrite (Forall2_length _ _ _ Hh). eapply lookup_lt_Some, Hj. }
      rewrite (Hd j o' Hlt Hj Hnin Ht) in Hno. discriminate.
Qed.

(** X17.  An object keeps what it is for as long as it is in the store.  A
    frame either leaves the store in place, each object persisting, or
    replaces it by objects carried over, followed by the objects created by
    the frame's calls to [uuidv4()], as many as the calls: so the objects
    before the last [uuidsUsed - uid] ones are objects of the old store, in
    their order, and persist.  To persist is to keep id, type, value, color,
    target index, points, maximal health, variant, velocity, scale, speed
    bonus and lateral velocity, never to be activated again, to keep
    [hasFired] once set, and (with a damage per shot that is not negative)
    never to gain health.  A flyer that has fired is left alone by the flyer
    AI, so it launches one missile in its lifetime. *)
Theorem entities_keep_what_they_are (m : Manager num) st rnd uid :
  let out := useFrame P inp m st rnd uid in
  ((renderTrigger (manager out) = renderTrigger m /\
    Forall2 (persists inp) (objects m) (objects (manager out)))
   \/
   (renderTrigger (manager out) = S (renderTrigger m) /\
    carries (persists inp)
      (fun o' => fresh inp o' \/ exists z, spawned_at inp z o')
      (objects m) (objects (manager out)) (uuidsUsed out - uid)))
  /\ (forall obj fr, hasFired obj = Some true ->
        flyerAI P inp obj fr = (obj, fr)).
Proof.
  cbv zeta. split; [|apply flyerAI_idle_once_fired].
  destruct (status_playing_dec (status (props inp))) as [E | E].
  - destruct (useFrame_carries m st rnd uid E) as [(Ht & Hp & _) | (Ht & Hc)].
    + left. now split.
    + right. split; [exact Ht|].
      eapply carries_impl; [| |exact Hc]; [now intros o o' [? _] | auto].
  - rewrite (useFrame_not_playing P inp m st rnd uid E). simpl. left.
    split; [reflexivity|].
    apply Forall_Forall2_diag, Forall_forall. intros; apply persists_refl.
Qed.

(** X18.  While the game is playing the cull applies to what the frame
    carries over.  A store left in place holds no object other than a bullet
    beyond [REMOVE_DISTANCE]: dropping one always marks the frame changed,
    so the store is replaced.  In a store that is replaced, every object
    before the last [uuidsUsed - uid] ones is an object of the old store, in
    bounds: not beyond [REMOVE_DISTANCE], and for an active bullet not
    beyond 30 units ahead.  The objects the frame creates follow, as many as
    its calls to [uuidv4()]; no bound is put on them.  A bullet that passes
    its range does not mark the frame changed by itself: it leaves the store
    with the next replacement. *)
Theorem carried_over_objects_are_in_bounds (m : Manager num) st rnd uid :
  status (props inp) = PLAYING ->
  let out := useFrame P inp m st rnd uid in
  (renderTrigger (manager out) = renderTrigger m /\
   length (objects (manager out)) = length (objects m) /\
   Forall (fun o' => type o' <> BULLET -> in_bounds o')
     (objects (manager out)))
  \/
  (renderTrigger (manager out) = S (renderTrigger m) /\
   carries (fun _ o' => in_bounds o')
     (fun o' => fresh inp o' \/ exists z, spawned_at inp z o')
     (objects m) (objects (manager out)) (uuidsUsed out - uid)).
Proof.
  intros E. cbv zeta.
  destruct (useFrame_carries m st rnd uid E) as [(Ht & Hp & Hb) | (Ht & Hc)].
  - left. split; [exact Ht|]. split; [|exact Hb].
    symmetry. eapply Forall2_length, Hp.
  - right. split; [exact Ht|].
    eapply carries_impl; [| |exact Hc]; [now intros o o' [_ ?] | auto].
Qed.

End CarriedProperties.

(** * Enemy fire in exact arithmetic *)

Section EnemyFire.
Local Open Scope R_scope.
Variable P : Platform R.
Variable inp : FrameInput R.

(** What the saucer fires: one enemy bullet, one unit behind it, with the
    velocity aimed from the saucer's own position. *)
Lemma shooterAI_fires (obj : GameObject R) (fr : Frame R) :
  newSpawns (snd (shooterAI P inp obj fr)) = newSpawns fr \/
  exists b,
    newSpawns (snd (shooterAI P inp obj fr)) = newSpawns fr ++ [b] /\
    type b = ENEMY_BULLET /\
    velocity b = Some (aimedVelocity inp (position obj)) /\
    position b = (posX obj, posY obj, posZ obj + 1).
Proof.
  unfold shooterAI.
  destruct (_ && _); [|now left].
  destruct (lastShotTime obj); simpl.
  all: destruct (Exact.ltb _ _); simpl; [right | now left].
  all: eexists; split; [reflexivity | now repeat split].
Qed.

(** The velocity has the speed of enemy bullets, halved under slow motion,
    and leads from the position it is aimed from to the aim point. *)
Lemma aimedVelocity_aims (from : Vec3 R) :
  from <> aimPoint inp ->
  exists t, 0 < t /\
    magnitude (aimedVelocity inp from)
    = (if isSlowMotion (props inp) then 10 else 20) /\
    let '(x, y, z) := from in
    let '(vx, vy, vz) := aimedVelocity inp from in
    let '(ax, ay, az) := aimPoint inp in
    x + t * vx = ax /\ y + t * vy = ay /\ z + t * vz = az.
Proof.
  intros Hne. unfold aimedVelocity, aimPoint, magnitude in *.
  destruct (playerPos inp) as [[px py] pz]. destruct from as [[x y] z].
  cbn in *. change (IZR (10 ^ Z.of_nat 1)) with 10 in *.
  set (dx := px - x). set (dy := py + 5 / 10 - y). set (dz := pz - z).
  set (s := dx * dx + dy * dy + dz * dz).
  assert (Hs : 0 < s).
  { destruct (Rle_lt_or_eq_dec 0 s) as [Hlt | Heq]; [unfold s; nra | exact Hlt|].
    symmetry in Heq. apply sum_squares_zero in Heq.
    destruct Heq as (Hx & Hy & Hz). exfalso. apply Hne.
    unfold dx, dy, dz in *. repeat f_equal; lra. }
  assert (Hm : sqrt s * sqrt s = s) by (apply sqrt_sqrt; lra).
  assert (Hpos : 0 < sqrt s) by (apply sqrt_lt_R0; exact Hs).
  assert (Hm0 : sqrt s <> 0) by lra.
  set (v := if isSlowMotion (props inp) then 20 * (5 / 10) else 20).
  assert (Hv : 0 < v) by (unfold v; destruct (isSlowMotion _); lra).
  assert (Ev : v = if isSlowMotion (props inp) then 10 else 20)
    by (unfold v; destruct (isSlowMotion _); lra).
  exists (sqrt s / v). split; [apply Rdiv_lt_0_compat; assumption|]. split.
  - rewrite <- Ev.
    replace (dx / sqrt s * v * (dx / sqrt s * v)
             + dy / sqrt s * v * (dy / sqrt s * v)
             + dz / sqrt s * v * (dz / sqrt s * v))
      with (v * v).
    + apply sqrt_square. lra.
    + transitivity (v * v * s / (sqrt s * sqrt s)).
      * rewrite Hm. field. lra.
      * unfold s. field. exact Hm0.
  - unfold dx, dy, dz. repeat split; field; split; lra.
Qed.



(** X1.  An enemy bullet is aimed from where its saucer is, and starts one
    unit behind it.  In exact arithmetic its velocity has magnitude 20, or
    10 under slow motion, and leads from the saucer to the point aimed at
    (the player's position, raised by 0.5) in a time that is positive; the
    bullet, flying at that velocity from its own position, is then one unit
    behind that point.  A frame moves an enemy bullet that has a velocity by
    that velocity times the capped delta. *)
Theorem enemy_bullet_passes_behind_the_aim_point (obj : GameObject R)
  (fr : Frame R) :
  (position obj <> aimPoint inp ->
   Forall (fun b =>
             type b = ENEMY_BULLET /\
             exists v t, velocity b = Some v /\ 0 < t /\
               magnitude v = (if isSlowMotion (props inp) then 10 else 20) /\
               let '(vx, vy, vz) := v in
               let '(ax, ay, az) := aimPoint inp in
               posX obj + t * vx = ax /\ posY obj + t * vy = ay /\
               posZ obj + t * vz = az /\
               posX b + t * vx = ax /\ posY b + t * vy = ay /\
               posZ b + t * vz = az + 1)
     (drop (length (newSpawns fr))
        (newSpawns (snd (shooterAI P inp obj fr)))))
  /\
  (forall b vx vy vz,
     type b = ENEMY_BULLET -> velocity b = Some (vx, vy, vz) ->
     position (moveObject inp b)
     = (posX b + vx * safeDelta inp, posY b + vy * safeDelta inp,
        posZ b + vz * safeDelta inp)).
Proof.
  split.
  - intros Hne.
    destruct (shooterAI_fires obj fr) as [-> | (b & -> & Ht & Hv & Hp)].
    + rewrite drop_all. constructor.
    + rewrite drop_app_length. constructor; [|constructor].
      split; [exact Ht|].
      destruct (aimedVelocity_aims (position obj) Hne) as (t & Ht0 & Hm & Ha).
      exists (aimedVelocity inp (position obj)), t.
      split; [exact Hv|]. split; [exact Ht0|]. split; [exact Hm|].
      unfold posX, posY, posZ in *. rewrite Hp.
      destruct (position obj) as [[x y] z].
      destruct (aimedVelocity inp (x, y, z)) as [[vx vy] vz].
      destruct (aimPoint inp) as [[ax ay] az].
      destruct Ha as (Hx & Hy & Hz). cbn [fst snd].
      repeat split; try assumption. cbn. lra.
  - intros b vx vy vz Ht Hv. unfold moveObject, posX, posY, posZ.
    destruct (position b) as [[x y] z]. rewrite Ht, Hv. reflexivity.
Qed.

End EnemyFire.

(** * The cadence of the letters *)

Section LetterProperties.
Context {num : Type} `{Number num}.
Variable P : Platform num.
Variable inp : FrameInput num.

Lemma no_letter_refl (d : Director num) : no_letter d d.
Proof. split; [apply pushes_refl | reflexivity]. Qed.

Lemma no_letter_same (d d' d'' : Director num) :
  pushed d'' = pushed d' ->
  d_nextLetterDistance d'' = d_nextLetterDistance d' ->
  no_letter d d' -> no_letter d d''.
Proof.
  intros Hp Hn [Hd Hl]. split; [|congruence].
  now apply (pushes_same _ d d' d'').
Qed.

Lemma no_letter_inert (d d' : Director num) :
  pushed d' = pushed d -> d_nextLetterDistance d' = d_nextLetterDistance d ->
  no_letter d d'.
Proof.
  intros Hp Hn. apply (no_letter_same d d d' Hp Hn), no_letter_refl.
Qed.

Lemma no_letter_push (mk : string -> GameObject num) (d d' : Director num) :
  (forall i, type (mk i) <> LETTER) ->
  no_letter d d' -> no_letter d (push P mk d').
Proof.
  intros Hmk [Hd Hl]. split; [|exact Hl]. now apply pushes_push.
Qed.

Ltac quiet :=
  repeat first
    [ apply no_letter_refl
    | assumption
    | (apply no_letter_inert; reflexivity)
    | apply (no_letter_same _ (d_changed _)); [reflexivity|reflexivity|]
    | apply (no_letter_same _ (d_skip _ _)); [reflexivity|reflexivity|]
    | apply (no_letter_same _ (snd (d_random _ _))); [reflexivity|reflexivity|]
    | apply no_letter_push; [intros i E; discriminate E|] ].

Lemma spawnAliens_no_letter (lanes : list Z) (z : num) (n k : nat)
  (d0 d : Director num) :
  no_letter d0 d -> no_letter d0 (spawnAliens P inp lanes z n k d).
Proof.
  revert k d. induction n as [|n IH]; intros k d Hd; [assumption|].
  cbn [spawnAliens]. apply IH. quiet.
Qed.

Lemma spawnHazards_no_letter (lanes : list Z) (z : num) (n k : nat)
  (d0 d : Director num) :
  no_letter d0 d -> no_letter d0 (spawnHazards P inp lanes z n k d).
Proof.
  revert k d. induction n as [|n IH]; intros k d Hd; [assumption|].
  cbn [spawnHazards]. cbv beta iota zeta delta [d_random].
  destruct (_ && _); [|destruct (_ && _)]; cbv beta iota zeta.
  all: apply IH; destruct (nltb _ _); quiet.
Qed.

Lemma spawnObstacleOrGem_no_letter (z : num) (d : Director num) :
  no_letter d (spawnObstacleOrGem P inp z d).
Proof.
  unfold spawnObstacleOrGem. cbv beta iota zeta delta [d_random].
  destruct (nltb _ _); [|quiet].
  unfold shuffledLanes.
  destruct (2 <=? _)%Z; cbv beta iota zeta delta [d_random];
    [destruct (nltb _ _)|].
  all: destruct (sortRandom P _ _) as [lanes calls];
    cbv beta iota zeta delta [d_random].
  - apply spawnAliens_no_letter. quiet.
  - apply spawnHazards_no_letter. quiet.
  - apply spawnHazards_no_letter. quiet.
Qed.

Lemma spawnLetter_cadence (z : num) (d : Director num) :
  (d_nextLetterDistance (spawnLetter P inp z d)
   = nadd (d_nextLetterDistance d) (getLetterInterval P (level (props inp))) /\
   exists letter,
     pushed (spawnLetter P inp z d) = pushed d ++ [letter] /\
     type letter = LETTER)
  \/ (no_letter d (spawnLetter P inp z d) /\
      forall index, In index (seqZ 0 (Z.of_nat (length GEMINI_TARGET))) ->
        includes (collectedLetters (props inp)) index = true).
Proof.
  unfold spawnLetter. cbv beta iota zeta delta [d_random].
  match goal with |- context [List.filter ?f ?l] =>
    destruct (List.filter f l) as [|a rest] eqn:Ea end.
  - right. split; [quiet|].
    intros index Hin.
    destruct (includes (collectedLetters (props inp)) index) eqn:Ei;
      [reflexivity|].
    assert (Hf : In index []).
    { rewrite <- Ea. apply filter_In. split; [exact Hin | now rewrite Ei]. }
    destruct Hf.
  - left. split; [reflexivity|]. eexists. split; reflexivity.
Qed.

(** X26.  The spawning logic creates a letter only in a frame where the
    distance travelled has reached [nextLetterDistance]; it then creates that
    one letter and nothing else, and moves [nextLetterDistance] on by the
    letter interval of the level.  In every other frame it creates no
    letter and leaves [nextLetterDistance] where it is; when the letter was
    due and that happens, the store holds every letter of the word
    already. *)
Theorem letters_come_when_due (kept : list (GameObject num))
  (traveled : num) (d : Director num) :
  let d' := spawnDirector P inp kept traveled d in
  (nleb (d_nextLetterDistance d) traveled = true /\
   d_nextLetterDistance d'
   = nadd (d_nextLetterDistance d) (getLetterInterval P (level (props inp))) /\
   exists letter, pushed d' = pushed d ++ [letter] /\ type letter = LETTER)
  \/ (no_letter d d' /\
      (nleb (d_nextLetterDistance d) traveled = true ->
       d' = d \/
       forall index, In index (seqZ 0 (Z.of_nat (length GEMINI_TARGET))) ->
         includes (collectedLetters (props inp)) index = true)).
Proof.
  cbv zeta. unfold spawnDirector.
  destruct (nltb (nopp SPAWN_DISTANCE) (furthestZ kept));
    [|right; split; [apply no_letter_refl | now left]].
  destruct (nltb (spawnZ inp (furthestZ kept)) (furthestZ kept));
    [|right; split; [apply no_letter_refl | now left]].
  destruct (nleb _ _) eqn:Edue.
  - destruct (spawnLetter_cadence (spawnZ inp (furthestZ kept)) d)
      as [[Hn Hl] | [Hq Hall]].
    + left. split; [reflexivity | split; [exact Hn | exact Hl]].
    + right. split; [exact Hq | intros _; right; exact Hall].
  - right. split; [|intros E; discriminate E].
    cbv beta iota zeta delta [d_random]. destruct (nltb _ _); quiet.
    destruct (spawnObstacleOrGem_no_letter (spawnZ inp (furthestZ kept))
      {| pushed := pushed d; d_hasChanges := d_hasChanges d;
         d_nextLetterDistance := d_nextLetterDistance d;
         d_randoms := S (d_randoms d); d_uuids := d_uuids d |})
      as [Hp Hn].
    split; [|exact Hn]. apply (pushes_same _ _ _ _ eq_refl Hp).
Qed.

End LetterProperties.

(** * The further theorems at work on the scenarios *)

Section Episodes.
Import Scenario Episode.

Lemma level_never_exceeds_max_level_witness :
  forallb Session.called_by_components campaign = true /\
  (1 <= level (Session.run campaign Session.initial) <= MAX_LEVEL)%Z.
Proof.
  split; [vm_compute; reflexivity|].
  apply (level_never_exceeds_max_level campaign). vm_compute. reflexivity.
Defined.

Lemma letters_fill_the_word_once_witness :
  forallb Session.letter_of_the_word campaign = true /\
  length (collectedLetters (Session.run campaign Session.initial))
  = length GEMINI_TARGET /\
  forall index, In index Session.slots ->
    collectLetter index (Session.run campaign Session.initial)
    = Session.run campaign Session.initial.
Proof.
  assert (Hall : forallb Session.letter_of_the_word campaign = true)
    by (vm_compute; reflexivity).
  split; [exact Hall|].
  assert (Hsix : length (collectedLetters (Session.run campaign Session.initial))
                 = length GEMINI_TARGET) by (vm_compute; reflexivity).
  split; [exact Hsix|].
  exact (proj2 (proj2 (proj2 (letters_fill_the_word_once campaign Hall))) Hsix).
Defined.

Lemma shop_offers_three_distinct_items_witness :
  length (HUD.offers reversed rich) = 3%nat /\
  List.NoDup (HUD.offers reversed rich).
Proof.
  destruct (shop_offers_three_distinct_items reversed rich
              (Permutation_rev _)) as (Hlen & Hnd & _).
  split; assumption.
Defined.

Lemma purchase_can_buy_nothing_witness :
  HUD.clickBuy repairKit rich = set_score 5500 rich.
Proof.
  apply (proj1 (purchase_can_buy_nothing repairKit rich
                  ltac:(simpl; auto) eq_refl
                  (or_introl (conj eq_refl eq_refl)))).
Defined.

Lemma shop_visit_only_upgrades_witness :
  HUD.upgraded rich (HUD.visit reversed [0; 1; 2; 0] rich) /\
  status (HUD.visit reversed [0; 1; 2; 0] rich) = PLAYING.
Proof.
  apply (shop_visit_only_upgrades reversed [0; 1; 2; 0] rich
           (Permutation_rev _)); vm_compute; discriminate.
Defined.

Lemma lane_stays_on_the_track_witness :
  Player.on_track 3
    (fst (fst (Player.play leftwards (Player.mounted, playing)))) /\
  Player.lane (fst (fst (Player.play leftwards (Player.mounted, playing))))
  = (-1)%Z.
Proof.
  split; [|vm_compute; reflexivity].
  apply (proj1 (lane_stays_on_the_track leftwards Player.mounted playing
                  ltac:(vm_compute; discriminate))).
  vm_compute. discriminate.
Defined.

Lemma one_life_per_invincibility_window_witness :
  forallb (Player.in_window 1000) pileUp = true /\
  lives (snd (fst (Player.play pileUp
                     (fst (Player.checkHit 1000 Player.mounted playing)))))
  = 2%Z.
Proof.
  split; [vm_compute; reflexivity|].
  destruct (one_life_per_invincibility_window pileUp 1000 Player.mounted
              playing eq_refl eq_refl eq_refl) as (H1 & H2 & _).
  rewrite H2, H1. reflexivity.
Defined.

Lemma held_trigger_fires_one_or_three_bullets_witness :
  length
    (objects
       (fst (Player.deliver (platform 0) PLAYING
               (snd (Player.useFrame 1%float 0.016%float 0 triggerHeld armed))
               0 crowded)))
  = 7%nat.
Proof.
  pose proof (held_trigger_fires_one_or_three_bullets (platform 0)
                1%float 0.016%float 0 0 triggerHeld armed crowded
                eq_refl eq_refl (or_introl eq_refl)) as Hx.
  cbv zeta in Hx. change (Player.groupPosition triggerHeld)
    with (0%float, 0%float, 0%float) in Hx. cbv beta iota in Hx.
  destruct Hx as (_ & _ & _ & Hplay).
  destruct (Hplay eq_refl) as (bullets & Ho & Hl & _).
  change (status armed) with PLAYING in Ho.
  rewrite Ho, length_app, Hl. reflexivity.
Defined.

Lemma slide_towards_lane_witness :
  (fst (fst (Player.groupPosition
               (fst (Player.useFrame 1 (1 / 60) 0 exact_player
                       (props exact_slow)))))
   - IZR (Player.lane exact_player) * (22 / 10)
   = (1 - 15 * (1 / 60))
     * (fst (fst (Player.groupPosition exact_player))
        - IZR (Player.lane exact_player) * (22 / 10)))%R.
Proof.
  apply (proj1 (slide_towards_lane 1%R (1 / 60)%R 0 exact_player
                  (props exact_slow) (or_introl eq_refl))).
Defined.

Lemma level_up_keeps_near_objects_and_adds_a_portal_witness :
  exists kept portal,
    objects
      (snd (fst (fst (Transitions.onTransition (platform 0) PLAYING 2
                        levelOne crowded playing 0))))
    = kept ++ [portal] /\
    sublist kept (objects crowded) /\
    type portal = SHOP_PORTAL.
Proof.
  destruct (level_up_keeps_near_objects_and_adds_a_portal (platform 0) 2
              levelOne crowded playing 0
              ltac:(discriminate) ltac:(discriminate) ltac:(discriminate)
              eq_refl) as (kept & portal & Ho & Hs & _ & (Ht & _) & _).
  exists kept, portal. split; [exact Ho | split; [exact Hs | exact Ht]].
Defined.

Lemma portal_is_the_furthest_object_witness :
  furthestZ
    (objects
       (snd (fst (fst (Transitions.onTransition exact_platform PLAYING 2
                         levelOne exact_store (props exact_slow) 0)))))
  = (-100)%R.
Proof.
  apply (proj1 (portal_is_the_furthest_object exact_platform 2 levelOne
                  exact_store (props exact_slow) 0
                  ltac:(discriminate) ltac:(discriminate) ltac:(discriminate)
                  eq_refl)).
Defined.

Lemma carried_over_objects_are_in_bounds_witness :
  carries (fun _ o' => in_bounds o')
    (fun o' => fresh input o' \/ exists z, spawned_at input z o')
    (objects rearguard)
    (objects (manager (useFrame (platform 0) input rearguard playing 0 0))) 1
  /\ List.map (fun o => (type o, nltb REMOVE_DISTANCE (posZ o)))
       (objects (manager (useFrame (platform 0) input rearguard playing 0 0)))
     = [(BARREL, false); (ENEMY_BULLET, true)].
Proof.
  split; [|vm_compute; reflexivity].
  destruct (carried_over_objects_are_in_bounds (platform 0) input rearguard
              playing 0 0 eq_refl) as [(Ht & _) | (_ & Hc)].
  - vm_compute in Ht. discriminate Ht.
  - assert (E : uuidsUsed (useFrame (platform 0) input rearguard playing 0 0)
                - 0 = 1) by (vm_compute; reflexivity).
    rewrite E in Hc. exact Hc.
Defined.

Lemma frame_takes_one_life_at_most_witness :
  length
    (List.filter isPlayerHit
       (emitted (useFrame (platform 0) input pincer playing 0 0))) = 2%nat
  /\ lives (state (useFrame (platform 0) input pincer playing 0 0)) = 2%Z
  /\ heard (useFrame (platform 0) input pincer playing 0 0)
     = mkHitListener true 1000 false.
Proof.
  split; [vm_compute; reflexivity|].
  destruct (frame_takes_one_life_at_most (platform 0) input pincer playing
              0 0) as (_ & [(Eh & _) | (_ & Eh & El)] & _).
  - vm_compute in Eh. discriminate Eh.
  - split; [exact El | exact Eh].
Defined.

Lemma inactive_objects_are_inert_witness :
  effects (stepObject (platform 0) input [0%nat] afterHit 0) = [] /\
  store (stepObject (platform 0) input [0%nat] afterHit 0) = playing.
Proof.
  destruct (inactive_objects_are_inert (platform 0) input [0%nat] 0 afterHit
              wreck eq_refl eq_refl) as (_ & _ & Hs & He & _).
  split; [exact He | exact Hs].
Defined.

Lemma slow_motion_ends_within_five_seconds_witness :
  isSlowMotion (Timers.current (Timers.calls timeline Timers.created)) = true
  /\ isSlowMotion
       (Timers.current
          (Timers.elapse 8000
             (Timers.pending (Timers.calls timeline Timers.created))
             (Timers.current (Timers.calls timeline Timers.created))))
     = false.
Proof.
  split; [vm_compute; reflexivity|].
  apply (proj1 (proj2 (slow_motion_ends_within_five_seconds timeline 0
                         eq_refl))).
Defined.

Lemma stale_timer_cuts_slow_motion_short_witness :
  isSlowMotion
    (Timers.current
       (Timers.elapse 5000
          (Timers.pending
             (Timers.calls
                [(0, Session.TriggerSlowMotion); (1000, Session.RestartGame);
                 (2000, Session.TriggerSlowMotion)]%Z
                (Timers.mkClocked playing [])))
          (Timers.current
             (Timers.calls
                [(0, Session.TriggerSlowMotion); (1000, Session.RestartGame);
                 (2000, Session.TriggerSlowMotion)]%Z
                (Timers.mkClocked playing [])))))
  = false.
Proof.
  apply (proj1 (proj2 (proj2 (stale_timer_cuts_slow_motion_short
                                (Timers.mkClocked playing []) 0 1000 2000
                                eq_refl eq_refl
                                ltac:(lia) ltac:(lia))))).
Defined.

Lemma exact_platform_is_fair :
  random_index exact_platform /\ fair_shuffle exact_platform.
Proof.
  split.
  - intros n k Hk. cbn. rewrite Rmult_0_l.
    change 0%R with (INR 0). rewrite Int_part_INR. simpl. lia.
  - intros n l. apply Permutation_refl.
Qed.

Lemma spawned_objects_are_well_placed_witness :
  Forall (well_placed exact_slow)
    (pushed
       (spawnDirector exact_platform exact_slow [] 0%R
          (mkDirector [] false 0%R 0 0))).
Proof.
  apply Forall_forall. intros o Ho. apply list_elem_of_In in Ho.
  destruct (spawned_objects_are_well_placed exact_platform exact_slow
              (proj1 exact_platform_is_fair) (proj2 exact_platform_is_fair)
              ltac:(vm_compute; discriminate) [] 0%R
              (mkDirector [] false 0%R 0 0) o Ho) as [[] | Hw].
  exact Hw.
Defined.

Lemma hazards_of_one_spawn_take_different_lanes_witness :
  List.map type
    (pushed
       (spawnDirector (platform 0.95) input [] 0%float
          (mkDirector [] false 150%float 0 0)))
  = [BARREL; BARREL; BARREL]
  /\ exists lanes,
       length lanes = 3 /\ List.NoDup lanes /\
       List.map posX
         (List.filter (fun o => isDamageSource (type o))
            (pushed
               (spawnDirector (platform 0.95) input [] 0%float
                  (mkDirector [] false 150%float 0 0))))
       = List.map laneX lanes.
Proof.
  split; [vm_compute; reflexivity|].
  destruct (hazards_of_one_spawn_take_different_lanes (platform 0.95) input
              (fun _ l => Permutation_refl l)
              ltac:(vm_compute; discriminate) [] 0%float
              (mkDirector [] false 150%float 0 0))
    as (extra & lanes & He & Hnd & Hm).
  cbn [pushed app] in He. rewrite <- He in Hm.
  exists lanes. split; [|split; [exact Hnd | exact Hm]].
  apply (f_equal (@length float)) in Hm.
  rewrite !length_map in Hm. rewrite <- Hm. vm_compute. reflexivity.
Defined.


Lemma enemy_bullet_passes_behind_the_aim_point_witness :
  Forall (fun b =>
            exists v t, velocity b = Some v /\ (0 < t)%R /\
              magnitude v = 10%R /\
              (posZ b + t * snd v = 1)%R)
    (newSpawns (snd (shooterAI exact_platform exact_slow exact_saucer
                       exact_frame))).
Proof.
  assert (Hne : position exact_saucer <> aimPoint exact_slow).
  { unfold aimPoint. simpl. intros [= _ Hz]. lra. }
  pose proof (proj1 (enemy_bullet_passes_behind_the_aim_point exact_platform
                       exact_slow exact_saucer exact_frame) Hne) as Hx.
  eapply Forall_impl; [exact Hx|]. clear Hx.
  intros b (_ & v & t & Hv & Ht & Hm & Ha). exists v, t.
  split; [exact Hv|]. split; [exact Ht|]. split; [exact Hm|].
  destruct v as [[vx vy] vz]. unfold aimPoint in Ha. simpl in Ha.
  destruct Ha as (_ & _ & _ & _ & _ & Hz). simpl. lra.
Defined.

Lemma tally_inj (a b : nat) : tally a = tally b -> a = b.
Proof.
  revert b. induction a as [|a IH]; intros [|b] E; try discriminate E.
  - reflexivity.
  - simpl in E. injection E as E. f_equal. apply IH, E.
Qed.

Lemma ids_are_issued_once_witness :
  issued_before counting 2 (objects fleet) /\
  List.NoDup
    (List.map id (objects (manager (useFrame counting input fleet playing 0 2)))).
Proof.
  assert (Hfleet : issued_before counting 2 (objects fleet)).
  { exists [0; 1]. split; [reflexivity|]. split.
    - repeat constructor; simpl; intuition lia.
    - repeat constructor. }
  split; [exact Hfleet|].
  destruct (ids_are_issued_once counting input fleet playing 0 2 Hfleet)
    as (Hf & _).
  cbv zeta in Hf. destruct Hf as [_ Hf].
  apply (ids_are_issued_once counting input _ playing 0 _ Hf), tally_inj.
Defined.

End Episodes.
